(** * MCP Supergateway Hub: the launcher of [gateway/index.js]

    A shallow embedding of the orchestrator script: the [.env] loader, the
    [--only] / [--exclude] selection, the construction of a child's
    environment, the per-launch startup race of [launchServer], the batch loop
    of [main] and [generateSettings].
    With it come the registry of [servers.js], what the script reads at
    start-up, the output of [--list], and the fence stripper of the
    [generate_code] tool of the ollama assistant.

    Conventions of the embedding.
    - A JavaScript string is a [string]; one [ascii] stands for one code unit
      below 256.
    - A number that the script only uses as an integer (a port, an index, an
      exit code) is a [Z]; [indexOf] answers [-1] when nothing is found.
    - [undefined] read from an array or an object is [None].
    - [process.env], a [Set] and the [mcpServers] object are stdpp finite maps
      and sets.
    - The event loop is explicit: the hub state is threaded through one
      handler call per delivered child event, and [main] is resumed by the
      handler call that settles the last promise of the batch it awaits. *)

From Stdlib Require Import ZArith Ascii String.
From stdpp Require Import gmap strings list fin_maps pretty.

Open Scope Z_scope.

(* ------------------------------------------------------------------------- *)
(** ** Strings and arrays as the script uses them *)

Module Js.

(** Code units that [String.prototype.trim] strips (those below 256):
    TAB, LF, VT, FF, CR, SPACE and NBSP. *)
Definition is_ws (c : ascii) : bool :=
  bool_decide (c ∈ ["009"; "010"; "011"; "012"; "013"; " "; "160"]%char).

Fixpoint trimStart (s : string) : string :=
  match s with
  | EmptyString => EmptyString
  | String c r => if is_ws c then trimStart r else s
  end.

Fixpoint trimEnd (s : string) : string :=
  match s with
  | EmptyString => EmptyString
  | String c r =>
      match trimEnd r with
      | EmptyString => if is_ws c then EmptyString else String c EmptyString
      | r' => String c r'
      end
  end.

Definition trim (s : string) : string := trimEnd (trimStart s).

(** [s.startsWith(p)] *)
Definition startsWith (p s : string) : bool := String.prefix p s.

(** [s.indexOf(c)] for a needle of one code unit. *)
Fixpoint indexOf (c : ascii) (s : string) : Z :=
  match s with
  | EmptyString => -1
  | String d r =>
      if Ascii.eqb d c then 0
      else let i := indexOf c r in if i =? -1 then -1 else i + 1
  end.

Fixpoint str_drop (n : nat) (s : string) : string :=
  match n, s with
  | O, _ => s
  | S n', String _ r => str_drop n' r
  | S _, EmptyString => EmptyString
  end.

Fixpoint str_take (n : nat) (s : string) : string :=
  match n, s with
  | S n', String c r => String c (str_take n' r)
  | _, _ => EmptyString
  end.

(** A relative index of [slice]: negative counts from the end, and the
    result is clamped to [0 .. len]. *)
Definition rel_index (len i : Z) : Z :=
  if i <? 0 then Z.max (len + i) 0 else Z.min i len.

(** [s.slice(a, b)] *)
Definition slice (s : string) (a b : Z) : string :=
  let len := Z.of_nat (String.length s) in
  let from := rel_index len a in
  let to := rel_index len b in
  str_take (Z.to_nat (to - from)) (str_drop (Z.to_nat from) s).

(** [s.slice(a)] *)
Definition slice_from (s : string) (a : Z) : string :=
  slice s a (Z.of_nat (String.length s)).

(** [s.split(sep)] for a separator of one code unit. *)
Fixpoint split (sep : ascii) (s : string) : list string :=
  match s with
  | EmptyString => [EmptyString]
  | String c r =>
      if Ascii.eqb c sep then EmptyString :: split sep r
      else match split sep r with
           | [] => [String c EmptyString]
           | w :: ws => String c w :: ws
           end
  end.

(** [l.join(sep)] *)
Fixpoint join (sep : string) (l : list string) : string :=
  match l with
  | [] => EmptyString
  | [w] => w
  | w :: ws => w +:+ sep +:+ join sep ws
  end.

(** [s.padEnd(n)], padding with spaces. *)
Definition padEnd (n : nat) (s : string) : string :=
  s +:+ String.concat EmptyString (replicate (n - String.length s)%nat " "%string).

(** [l.indexOf(x)] on an array. *)
Fixpoint arr_indexOf {A} `{EqDecision A} (x : A) (l : list A) : Z :=
  match l with
  | [] => -1
  | y :: r =>
      if decide (y = x) then 0
      else let i := arr_indexOf x r in if i =? -1 then -1 else i + 1
  end.

(** [l.includes(x)] *)
Definition includes {A} `{EqDecision A} (x : A) (l : list A) : bool :=
  bool_decide (x ∈ l).

(** [l[i]]: [undefined] out of range. *)
Definition arr_get {A} (l : list A) (i : Z) : option A :=
  if i <? 0 then None else l !! Z.to_nat i.

(** [l.slice(a, b)] and [l.slice(a)] on an array. *)
Definition arr_slice {A} (l : list A) (a b : Z) : list A :=
  let len := Z.of_nat (length l) in
  let from := rel_index len a in
  let to := rel_index len b in
  take (Z.to_nat (to - from)) (drop (Z.to_nat from) l).

Definition arr_slice_from {A} (l : list A) (a : Z) : list A :=
  arr_slice l a (Z.of_nat (length l)).

(** Truthiness of a string-or-undefined value. *)
Definition truthy (o : option string) : bool :=
  match o with
  | Some s => negb (bool_decide (s = EmptyString))
  | None => false
  end.

End Js.

(* ------------------------------------------------------------------------- *)
(** ** The registry entries of [servers.js] *)

(** A value found in a descriptor's [env] object: the registry writes
    [e.SOME_KEY], which is a string or [undefined]; [launchServer] also tests
    for [null]. *)
Inductive env_val :=
| VUndefined
| VNull
| VStr (s : string).

Record server := Server {
  srv_name : string;
  srv_command : string;
  srv_args : list string;
  srv_env : option (gmap string env_val)
}.

(* ------------------------------------------------------------------------- *)
(** ** Loading [.env] into [process.env] *)

Module EnvLoader.

(** The body of the [for (const line of ...)] loop. *)
Definition load_line (penv : gmap string string) (line : string)
  : gmap string string :=
  let trimmed := Js.trim line in
  if bool_decide (trimmed = EmptyString) || Js.startsWith "#" trimmed then penv
  else
    let eqIdx := Js.indexOf "="%char trimmed in
    if eqIdx =? -1 then penv
    else
      let key := Js.trim (Js.slice trimmed 0 eqIdx) in
      let val := Js.trim (Js.slice_from trimmed (eqIdx + 1)) in
      if negb (Js.truthy (penv !! key)) then <[key := val]> penv else penv.

(** [envContent.split('\n')] folded over [process.env]. *)
Definition load_env (envContent : string) (penv : gmap string string)
  : gmap string string :=
  foldl load_line penv (Js.split "010"%char envContent).

End EnvLoader.

(* ------------------------------------------------------------------------- *)
(** ** Selection: [--only] and [--exclude] *)

Module Selector.

Definition flagIdx (argv : list string) (flag : string) : Z :=
  Js.arr_indexOf flag argv.

(** The guard [idx !== -1 && args[idx + 1]] followed by
    [new Set(args[idx + 1].split(','))]: the name set of a flag, when the
    flag is there with a non-empty value. *)
Definition flagSet (argv : list string) (flag : string) : option (gset string) :=
  let idx := flagIdx argv flag in
  if negb (idx =? -1) && Js.truthy (Js.arr_get argv (idx + 1)) then
    match Js.arr_get argv (idx + 1) with
    | Some v => Some (list_to_set (Js.split ","%char v))
    | None => None
    end
  else None.

(** The two [servers = servers.filter(...)] statements. *)
Definition applyFilters (only exclude : option (gset string))
    (registry : list server) : list server :=
  let servers := registry in
  let servers :=
    match only with
    | Some o => filter (λ s, srv_name s ∈ o) servers
    | None => servers
    end in
  match exclude with
  | Some x => filter (λ s, srv_name s ∉ x) servers
  | None => servers
  end.

Definition selectServers (argv : list string) (registry : list server)
  : list server :=
  applyFilters (flagSet argv "--only") (flagSet argv "--exclude") registry.

(** What the script does with a command line: [--list] and [--generate]
    are looked at first, in that order, and end the process; otherwise the
    selected descriptors are launched. *)
Inductive invocation :=
| ListServers
| GenerateOnly
| LaunchSelected (servers : list server).

Definition invocation_of (argv : list string) (registry : list server)
  : invocation :=
  if Js.includes "--list"%string argv then ListServers
  else if Js.includes "--generate"%string argv then GenerateOnly
  else LaunchSelected (selectServers argv registry).

(** The selection of §4.1 in the words of the specification: keep a
    descriptor when its name is in [only] (if [only] is given) and is not in
    [exclude] (if [exclude] is given). *)
Definition spec_keeps (only exclude : option (gset string)) (s : server) : Prop :=
  (∀ o, only = Some o → srv_name s ∈ o) ∧
  (∀ x, exclude = Some x → srv_name s ∉ x).

End Selector.

(* ------------------------------------------------------------------------- *)
(** ** The environment of a child *)

Module ChildEnv.

(** [String(v)] on the values of the registry. *)
Definition to_String (v : env_val) : string :=
  match v with
  | VUndefined => "undefined"
  | VNull => "null"
  | VStr s => s
  end.

(** The body of [for (const [k, v] of Object.entries(server.env))]. *)
Definition overlay_entry (childEnv : gmap string string)
    (kv : string * env_val) : gmap string string :=
  match kv.2 with
  | VUndefined | VNull => childEnv
  | v => <[kv.1 := to_String v]> childEnv
  end.

(** [{ ...process.env }] followed by the overlay loop. *)
Definition childEnv (penv : gmap string string) (s : server)
  : gmap string string :=
  match srv_env s with
  | Some e => foldl overlay_entry penv (map_to_list e)
  | None => penv
  end.

End ChildEnv.

(* ------------------------------------------------------------------------- *)
(** ** The launcher: [launchServer], [main] and [generateSettings] *)

Module Launcher.

(** What the script reads once at start-up, and what the operating system
    answers to the [id]-th call of [spawn] ([child.pid], [undefined] when
    the process could not be created). *)
Record config := Config {
  BASE_PORT : Z;
  PUBLIC_HOST : string;
  process_env : gmap string string;
  registry : list server;
  servers : list server;
  spawn_pid : nat → option Z
}.

Definition BATCH_SIZE : Z := 10.

(** Entries of the two module-level arrays [running] and [failed]. *)
Record running_entry := Running {
  r_name : string;
  r_port : Z;
  r_pid : option Z
}.

Record failed_entry := Failed {
  f_name : string;
  f_error : string
}.

(** What the event loop can deliver to one launch: the [setTimeout]
    callback, the child's ['error'] and ['exit'] events (the exit code is
    [null] when a signal ended the process) and a chunk on its stderr. *)
Inductive child_event :=
| Timeout
| Error (message : string)
| Exit (code : option Z)
| StderrData (data : string).

(** The closure of one [launchServer] call: its arguments, the local
    variables [started] and [stderrBuf], whether the timer is still armed,
    and the state of the returned promise. *)
Record launch := Launch {
  l_server : server;
  l_port : Z;
  l_pid : option Z;
  started : bool;
  timer_armed : bool;
  stderrBuf : string;
  settled : option bool
}.

(** Lines written to the console, kept structured; [render] gives the text. *)
Inductive message :=
| MBlank
| MRule
| MTitle
| MLaunching (n : nat) (lo hi : Z)
| MOk (name : string) (port : Z)
| MFail (name error : string)
| MStarted (r n : nat)
| MFailedCount (f : nat)
| MSettingsWritten
| MCopyHint
| MPressCtrlC
| MDied (name : string) (port : Z) (code : option Z)
| MDiedStderr (name tail : string).

(** [`${code}`] for an exit code. *)
Definition show_code (code : option Z) : string :=
  match code with
  | Some c => pretty c
  | None => "null"
  end.

(** The text of a line. The script prints the absolute path of the settings
    file; here only its name is kept. *)
Definition render (m : message) : string :=
  match m with
  | MBlank => ""
  | MRule => "=============================================="
  | MTitle => "  MCP Supergateway Hub"
  | MLaunching n lo hi =>
      "  Launching " +:+ pretty n +:+ " servers on ports " +:+ pretty lo
        +:+ "-" +:+ pretty hi
  | MOk name port =>
      "  [OK] " +:+ Js.padEnd 22 name +:+ " -> port " +:+ pretty port
  | MFail name error => "  [XX] " +:+ Js.padEnd 22 name +:+ " -> " +:+ error
  | MStarted r n => "  Started: " +:+ pretty r +:+ "/" +:+ pretty n
  | MFailedCount f => "  Failed:  " +:+ pretty f
  | MSettingsWritten => "  Claude Code settings written to: claude-settings.json"
  | MCopyHint => "  Copy the mcpServers block into ~/.claude/settings.json"
  | MPressCtrlC => "Press Ctrl+C to stop all servers."
  | MDied name port code =>
      "[DIED] " +:+ name +:+ " (port " +:+ pretty port
        +:+ ") exited with code " +:+ show_code code
  | MDiedStderr name tail =>
      "[DIED] " +:+ name +:+ " stderr:" +:+ String "010" tail
  end.

(** What the script does to the outside, in order; [Settle] is the call of
    a launch's [resolve]. *)
Inductive effect :=
| Spawn (id : nat) (sgArgs : list string) (env : gmap string string)
| Settle (id : nat) (ok : bool)
| ConsoleLog (m : message)
| ConsoleError (m : message)
| WriteSettings (mcpServers : gmap string string).

(** Where [main] stands: suspended in [await Promise.all(promises)] of the
    batch that starts at index [i], or returned. *)
Inductive main_pc :=
| Awaiting (i : Z) (batch : list server) (promises : list nat)
| Done.

Record hub := Hub {
  launches : list launch;
  running : list running_entry;
  failed : list failed_entry;
  effects : list effect;
  pc : main_pc
}.

Definition emit (e : effect) (h : hub) : hub :=
  Hub (launches h) (running h) (failed h) (effects h ++ [e]) (pc h).

Definition set_launch (id : nat) (l : launch) (h : hub) : hub :=
  Hub (<[id := l]> (launches h)) (running h) (failed h) (effects h) (pc h).

Definition push_running (r : running_entry) (h : hub) : hub :=
  Hub (launches h) (running h ++ [r]) (failed h) (effects h) (pc h).

Definition push_failed (f : failed_entry) (h : hub) : hub :=
  Hub (launches h) (running h) (failed h ++ [f]) (effects h) (pc h).

Definition set_pc (p : main_pc) (h : hub) : hub :=
  Hub (launches h) (running h) (failed h) (effects h) p.

Definition mark_started (l : launch) : launch :=
  Launch (l_server l) (l_port l) (l_pid l) true (timer_armed l) (stderrBuf l)
    (settled l).

(** [clearTimeout(timeout)], and also what happens to the timer once its
    callback has run. *)
Definition disarm (l : launch) : launch :=
  Launch (l_server l) (l_port l) (l_pid l) (started l) false (stderrBuf l)
    (settled l).

Definition append_stderr (data : string) (l : launch) : launch :=
  Launch (l_server l) (l_port l) (l_pid l) (started l) (timer_armed l)
    (stderrBuf l +:+ data) (settled l).

(** [resolve(ok)]: a promise keeps its first settlement. *)
Definition settle (ok : bool) (l : launch) : launch :=
  Launch (l_server l) (l_port l) (l_pid l) (started l) (timer_armed l)
    (stderrBuf l)
    (match settled l with Some b => Some b | None => Some ok end).

(** [stderrBuf.trim().split('\n').slice(-n).join(sep)] *)
Definition stderr_tail (n : Z) (sep : string) (buf : string) : string :=
  Js.join sep (Js.arr_slice_from (Js.split "010" (Js.trim buf)) (- n)).

(** The [errMsg] of an early exit with a code other than 0. *)
Definition exit_message (code : option Z) (buf : string) : string :=
  if Js.truthy (Some (Js.trim buf))
  then "exit code " +:+ show_code code +:+ ": " +:+ stderr_tail 3 " | " buf
  else "exit code " +:+ show_code code.

(** *** The four callbacks that [launchServer] registers *)

Definition on_timeout (id : nat) (l : launch) (h : hub) : hub :=
  let l := disarm l in
  if negb (started l) then
    let l := mark_started l in
    let h := push_running (Running (srv_name (l_server l)) (l_port l) (l_pid l)) h in
    emit (Settle id true) (set_launch id (settle true l) h)
  else set_launch id l h.

Definition on_error (message : string) (id : nat) (l : launch) (h : hub) : hub :=
  if negb (started l) then
    let l := disarm (mark_started l) in
    let h := push_failed (Failed (srv_name (l_server l)) message) h in
    emit (Settle id false) (set_launch id (settle false l) h)
  else h.

Definition on_exit (code : option Z) (id : nat) (l : launch) (h : hub) : hub :=
  if negb (started l) then
    let l := disarm (mark_started l) in
    if negb (bool_decide (code = Some 0)) then
      let errMsg := exit_message code (stderrBuf l) in
      let h := push_failed (Failed (srv_name (l_server l)) errMsg) h in
      emit (Settle id false) (set_launch id (settle false l) h)
    else set_launch id l h
  else
    let h := emit (ConsoleError (MDied (srv_name (l_server l)) (l_port l) code)) h in
    if Js.truthy (Some (Js.trim (stderrBuf l)))
    then emit (ConsoleError
                 (MDiedStderr (srv_name (l_server l))
                    (stderr_tail 10 (String "010" EmptyString) (stderrBuf l)))) h
    else h.

Definition on_stderr (data : string) (id : nat) (l : launch) (h : hub) : hub :=
  set_launch id (append_stderr data l) h.

(** One callback run. A cleared or already fired timer never calls back. *)
Definition handle (ev : child_event) (id : nat) (l : launch) (h : hub) : hub :=
  match ev with
  | Timeout => if timer_armed l then on_timeout id l h else h
  | Error message => on_error message id l h
  | Exit code => on_exit code id l h
  | StderrData data => on_stderr data id l h
  end.

(** *** [generateSettings] *)

Definition endpoint_url (host : string) (port : Z) : string :=
  "http://" +:+ host +:+ ":" +:+ pretty port +:+ "/mcp".

(** The loop [mcpServers[s.name] = { url }] over name and port pairs. *)
Definition build_mcpServers (host : string) (entries : list (string * Z))
  : gmap string string :=
  foldl (λ m e, <[e.1 := endpoint_url host e.2]> m) ∅ entries.

Section WithConfig.

Variable cfg : config.

(** [activeServers || getServers().map((s, i) => ...)]: an array, even an
    empty one, is truthy. *)
Definition settings_entries (activeServers : option (list running_entry))
  : list (string * Z) :=
  match activeServers with
  | Some act => (λ r, (r_name r, r_port r)) <$> act
  | None => imap (λ i s, (srv_name s, BASE_PORT cfg + Z.of_nat i)) (registry cfg)
  end.

Definition generateSettings (activeServers : option (list running_entry))
    (h : hub) : hub :=
  let mcpServers :=
    build_mcpServers (PUBLIC_HOST cfg) (settings_entries activeServers) in
  emit (ConsoleLog MBlank)
    (emit (ConsoleLog MCopyHint)
       (emit (ConsoleLog MSettingsWritten)
          (emit (WriteSettings mcpServers) h))).

(** *** [launchServer] up to the point where it returns its promise *)

Definition sgArgs (s : server) (port : Z) : list string :=
  let stdioCmd := Js.join " " (srv_command s :: srv_args s) in
  ["--stdio"; stdioCmd; "--outputTransport"; "streamableHttp";
   "--port"; pretty port; "--cors"; "--logLevel"; "none";
   "--healthEndpoint"; "/health"]%string.

Definition launchServer (s : server) (port : Z) (h : hub) : hub * nat :=
  let id := length (launches h) in
  let childEnv := ChildEnv.childEnv (process_env cfg) s in
  let l := Launch s port (spawn_pid cfg id) false true EmptyString None in
  (emit (Spawn id (sgArgs s port) childEnv)
     (Hub (launches h ++ [l]) (running h) (failed h) (effects h) (pc h)),
   id).

(** *** [main] *)

(** [batch.map((server, j) => launchServer(server, BASE_PORT + i + j))]:
    first the ports, then the calls from left to right. *)
Definition plan_batch (i : Z) (batch : list server) : list (server * Z) :=
  imap (λ j s, (s, BASE_PORT cfg + i + Z.of_nat j)) batch.

Fixpoint launch_all (plan : list (server * Z)) (h : hub) : hub * list nat :=
  match plan with
  | [] => (h, [])
  | (s, port) :: rest =>
      let '(h1, id) := launchServer s port h in
      let '(h2, ids) := launch_all rest h1 in
      (h2, id :: ids)
  end.

(** The progress line of one descriptor of a batch, if any. *)
Definition progress_line (h : hub) (s : server) : option message :=
  let r := list_find (λ x, r_name x = srv_name s) (running h) in
  let f := list_find (λ x, f_name x = srv_name s) (failed h) in
  match r, f with
  | Some (_, r), _ => Some (MOk (srv_name s) (r_port r))
  | None, Some (_, f) => Some (MFail (srv_name s) (f_error f))
  | None, None => None
  end.

Definition print_progress (batch : list server) (h : hub) : hub :=
  foldl (λ h s, match progress_line h s with
                | Some m => emit (ConsoleLog m) h
                | None => h
                end) h batch.

(** After the loop: the summary, the settings and the last two lines. *)
Definition main_finish (h : hub) : hub :=
  let h := emit (ConsoleLog MBlank) h in
  let h := emit (ConsoleLog MRule) h in
  let h := emit (ConsoleLog (MStarted (length (running h)) (length (servers cfg)))) h in
  let h := if bool_decide (0 < length (failed h))%nat
           then emit (ConsoleLog (MFailedCount (length (failed h)))) h else h in
  let h := emit (ConsoleLog MRule) h in
  let h := emit (ConsoleLog MBlank) h in
  let h := generateSettings (Some (running h)) h in
  let h := emit (ConsoleLog MPressCtrlC) h in
  let h := emit (ConsoleLog MBlank) h in
  set_pc Done h.

(** The head of the [for] loop at index [i]: either the next batch is
    launched and [main] suspends on its promises, or the loop is over. *)
Definition main_loop (i : Z) (h : hub) : hub :=
  if i <? Z.of_nat (length (servers cfg)) then
    let batch := Js.arr_slice (servers cfg) i (i + BATCH_SIZE) in
    let '(h, promises) := launch_all (plan_batch i batch) h in
    set_pc (Awaiting i batch promises) h
  else main_finish h.

(** [main] from its first line to its first suspension. *)
Definition main_start : hub :=
  let n := length (servers cfg) in
  let h := Hub [] [] [] [] Done in
  let h := emit (ConsoleLog MBlank) h in
  let h := emit (ConsoleLog MRule) h in
  let h := emit (ConsoleLog MTitle) h in
  let h := emit (ConsoleLog MRule) h in
  let h := emit (ConsoleLog
                   (MLaunching n (BASE_PORT cfg)
                      (BASE_PORT cfg + Z.of_nat n - 1))) h in
  let h := emit (ConsoleLog MBlank) h in
  main_loop 0 h.

Definition is_settled (h : hub) (id : nat) : bool :=
  match launches h !! id with
  | Some l => bool_decide (is_Some (settled l))
  | None => false
  end.

(** The continuation of [await Promise.all(promises)]: it runs once every
    promise of the batch is settled; it prints the batch and re-enters
    the loop at [i + BATCH_SIZE]. *)
Definition resume_main (h : hub) : hub :=
  match pc h with
  | Awaiting i batch promises =>
      if forallb (is_settled h) promises
      then main_loop (i + BATCH_SIZE) (print_progress batch h)
      else h
  | Done => h
  end.

(** One turn of the event loop: the callback of launch [id] for [ev], and
    then [main] if that callback settled the last promise it waits for.
    A child that was never spawned sends nothing. *)
Definition deliver (h : hub) (de : nat * child_event) : hub :=
  match launches h !! de.1 with
  | None => h
  | Some l =>
      let h' := handle de.2 de.1 l h in
      if negb (is_settled h de.1) && is_settled h' de.1
      then resume_main h' else h'
  end.

(** A run: [main] starts, then the event loop delivers a schedule. *)
Definition run (sched : list (nat * child_event)) : hub :=
  foldl deliver main_start sched.

(** The batches that the loop of [main] goes through when nothing stops
    it, each with its ports; [fuel] bounds the number of iterations. *)
Fixpoint batches_from (fuel : nat) (i : Z) : list (list (server * Z)) :=
  match fuel with
  | O => []
  | S fuel' =>
      if i <? Z.of_nat (length (servers cfg)) then
        plan_batch i (Js.arr_slice (servers cfg) i (i + BATCH_SIZE))
          :: batches_from fuel' (i + BATCH_SIZE)
      else []
  end.

Definition launch_plan : list (list (server * Z)) :=
  batches_from (length (servers cfg)) 0.

(** *** Vocabulary of the statements below *)

(** The closure that [launchServer] creates for its [id]-th call, and the
    [spawn] it performs. *)
Definition new_launch (id : nat) (p : server * Z) : launch :=
  Launch p.1 p.2 (spawn_pid cfg id) false true EmptyString None.

Definition spawn_of (id : nat) (p : server * Z) : effect :=
  Spawn id (sgArgs p.1 p.2) (ChildEnv.childEnv (process_env cfg) p.1).

(** The descriptor and the port of a launch. *)
Definition plan_of (l : launch) : server * Z := (l_server l, l_port l).

(** Every selected descriptor with [BASE_PORT] plus its index. *)
Definition full_plan : list (server * Z) :=
  imap (λ k s, (s, BASE_PORT cfg + Z.of_nat k)) (servers cfg).

(** The group of the [id]-th launch: launches are numbered in the order
    of the [spawn] calls. *)
Definition group (id : nat) : Z := Z.of_nat id / BATCH_SIZE.

(** What must have happened before an effect.
    - Before a [spawn]: every launch of an earlier group has settled;
      and a launch that is not the first of its group directly follows
      the [spawn] of its predecessor (nothing is awaited in between).
    - Before a progress line: every launch spawned so far has settled. *)
Definition justified (before : list effect) (e : effect) : Prop :=
  match e with
  | Spawn id _ _ =>
      (∀ id', group id' < group id → ∃ ok, Settle id' ok ∈ before)
      ∧ (id ≠ 0%nat → group (id - 1) = group id →
         ∃ a env, last before = Some (Spawn (id - 1) a env))
  | ConsoleLog (MOk _ _) | ConsoleLog (MFail _ _) =>
      ∀ id a env, Spawn id a env ∈ before → ∃ ok, Settle id ok ∈ before
  | _ => True
  end.

Definition ordered (tr : list effect) : Prop :=
  ∀ before e after, tr = before ++ e :: after → justified before e.

(** A callback that settles nothing may only write to [console.error]. *)
Definition is_console_error (e : effect) : Prop :=
  match e with
  | ConsoleError _ => True
  | _ => False
  end.

Definition no_spawn (e : effect) : Prop :=
  match e with
  | Spawn _ _ _ => False
  | _ => True
  end.

(** The number of launches whose promise is settled. *)
Definition settled_count (ls : list launch) : nat :=
  length (filter (λ l, is_Some (settled l)) ls).

(** The entry that a settled launch has pushed. *)
Definition outcome_recorded (h : hub) (l : launch) : Prop :=
  match settled l with
  | Some true =>
      Running (srv_name (l_server l)) (l_port l) (l_pid l) ∈ running h
  | Some false => ∃ err, Failed (srv_name (l_server l)) err ∈ failed h
  | None => True
  end.

(** What holds of the hub after every turn of the event loop. *)
Record base_inv (h : hub) : Prop := BaseInv {
  bi_plan : ∀ k l,
      launches h !! k = Some l →
      l_port l = BASE_PORT cfg + Z.of_nat k
      ∧ servers cfg !! k = Some (l_server l);
  bi_ordered : ordered (effects h);
  bi_spawn_args : ∀ id a env,
      Spawn id a env ∈ effects h →
      ∃ l, launches h !! id = Some l
           ∧ Spawn id a env = spawn_of id (plan_of l);
  bi_settled : ∀ id,
      is_settled h id = true → ∃ ok, Settle id ok ∈ effects h;
  bi_started : ∀ id l,
      launches h !! id = Some l → is_Some (settled l) → started l = true;
  bi_outcome : ∀ id l,
      launches h !! id = Some l → outcome_recorded h l;
  bi_total :
    (length (running h) + length (failed h))%nat
    = settled_count (launches h)
}.

Definition pc_inv (h : hub) : Prop :=
  match pc h with
  | Awaiting i batch promises =>
      0 ≤ i ∧ (BATCH_SIZE | i) ∧ i < Z.of_nat (length (servers cfg))
      ∧ batch = Js.arr_slice (servers cfg) i (i + BATCH_SIZE)
      ∧ promises = seq (Z.to_nat i) (length batch)
      ∧ length (launches h) = (Z.to_nat i + length batch)%nat
      ∧ (∀ id, (id < Z.to_nat i)%nat → is_settled h id = true)
  | Done =>
      length (launches h) = length (servers cfg)
      ∧ (∀ id, (id < length (launches h))%nat → is_settled h id = true)
  end.

Definition inv (h : hub) : Prop := base_inv h ∧ pc_inv h.

(** A progress line of the batch loop. *)
Definition is_progress (e : effect) : Prop :=
  match e with
  | ConsoleLog (MOk _ _) | ConsoleLog (MFail _ _) => True
  | _ => False
  end.

(** An effect of the end of [main]: a console line that is not a progress
    line, or the settings file. *)
Definition quiet (e : effect) : Prop :=
  match e with
  | ConsoleLog (MOk _ _) | ConsoleLog (MFail _ _) => False
  | ConsoleLog _ | WriteSettings _ => True
  | _ => False
  end.

Definition extends_quietly (h h' : hub) : Prop :=
  ∃ evs,
    effects h' = effects h ++ evs
    ∧ Forall quiet evs
    ∧ launches h' = launches h
    ∧ running h' = running h
    ∧ failed h' = failed h.

End WithConfig.

End Launcher.

(* ------------------------------------------------------------------------- *)
(** ** Scenarios *)

Module Scenarios.

Import Launcher.

Definition pids (id : nat) : option Z := Some (1000 + Z.of_nat id).

(** The three descriptors of the scenario of §8 of the specification, on
    base port 4000. *)
Definition abc : list server :=
  [Server "a" "true" [] None;
   Server "b" "sleep" ["999"%string] None;
   Server "c" "false" [] None].

Definition abc_cfg : config := Config 4000 "192.168.1.7" ∅ abc abc pids.

(** [a] exits with code 0 at once, [c] with code 1, and the timer of [b]
    fires. *)
Definition abc_sched : list (nat * child_event) :=
  [(0%nat, Exit (Some 0)); (2%nat, Exit (Some 1)); (1%nat, Timeout)].

(** Twenty-five descriptors, as in the batching scenario of §8. *)
Definition twenty_five : list server :=
  (λ k, Server ("s" +:+ pretty k) "npx" [] None) <$> seq 0 25.

Definition twenty_five_cfg : config :=
  Config 3170 "192.168.1.7" ∅ twenty_five twenty_five pids.

(** Every timer fires, in the order of the launches. *)
Definition twenty_five_sched : list (nat * child_event) :=
  (λ k, (k, Timeout)) <$> seq 0 25.

(** The launch that an effect starts ([inl]) or settles ([inr]). *)
Definition spawn_or_settle (e : effect) : option (nat + nat) :=
  match e with
  | Spawn id _ _ => Some (inl id)
  | Settle id _ => Some (inr id)
  | _ => None
  end.




End Scenarios.

(* ------------------------------------------------------------------------- *)
(** ** The end of a run *)

Module Report.

Import Launcher.

(** An event that decides the race of a launch whose race is open: the
    timer, a spawn error, or an exit with a code other than 0. *)
Definition decisive (ev : child_event) : Prop :=
  match ev with
  | Timeout | Error _ => True
  | Exit code => code ≠ Some 0
  | StderrData _ => False
  end.

(** A line of the summary or of [generateSettings], or the settings file. *)
Definition is_report (e : effect) : Prop :=
  match e with
  | WriteSettings _ => True
  | ConsoleLog (MStarted _ _) | ConsoleLog (MFailedCount _)
  | ConsoleLog MSettingsWritten | ConsoleLog MCopyHint
  | ConsoleLog MPressCtrlC => True
  | _ => False
  end.

Section WithConfig.

Variable cfg : config.

(** The six lines that [main] prints before the loop. *)
Definition header_effects : list effect :=
  [ConsoleLog MBlank; ConsoleLog MRule; ConsoleLog MTitle; ConsoleLog MRule;
   ConsoleLog (MLaunching (length (servers cfg)) (BASE_PORT cfg)
                 (BASE_PORT cfg + Z.of_nat (length (servers cfg)) - 1));
   ConsoleLog MBlank].

(** What [main] does after the loop, given the two arrays at that time. *)
Definition finish_effects (R : list running_entry) (F : list failed_entry)
  : list effect :=
  [ConsoleLog MBlank; ConsoleLog MRule;
   ConsoleLog (MStarted (length R) (length (servers cfg)))]
  ++ (if bool_decide (0 < length F)%nat
      then [ConsoleLog (MFailedCount (length F))] else [])
  ++ [ConsoleLog MRule; ConsoleLog MBlank;
      WriteSettings
        (build_mcpServers (PUBLIC_HOST cfg) (settings_entries cfg (Some R)));
      ConsoleLog MSettingsWritten; ConsoleLog MCopyHint; ConsoleLog MBlank;
      ConsoleLog MPressCtrlC; ConsoleLog MBlank].

(** The [running] entry of the [k]-th selected descriptor. *)
Definition running_of (k : nat) (s : server) : running_entry :=
  Running (srv_name s) (BASE_PORT cfg + Z.of_nat k) (spawn_pid cfg k).

(** One event for every selected descriptor, in the order of the launches. *)
Definition one_event_each (ev : nat → child_event) : list (nat * child_event) :=
  (λ k, (k, ev k)) <$> seq 0 (length (servers cfg)).

(** What ties the launches to the two arrays: every launch has the process
    id of its [spawn]; its timer is pending exactly while [started] is
    false; every entry of [running] and of [failed] was pushed by a launch
    that settled accordingly. *)
Record outcome_inv (h : hub) : Prop := OutcomeInv {
  oi_pid : ∀ id l, launches h !! id = Some l → l_pid l = spawn_pid cfg id;
  oi_timer : ∀ id l,
      launches h !! id = Some l → timer_armed l = negb (started l);
  oi_running : ∀ r,
      r ∈ running h →
      ∃ id l, launches h !! id = Some l ∧ settled l = Some true
              ∧ r = Running (srv_name (l_server l)) (l_port l) (l_pid l);
  oi_failed : ∀ f,
      f ∈ failed h →
      ∃ id l, launches h !! id = Some l ∧ settled l = Some false
              ∧ f_name f = srv_name (l_server l)
}.

(** Where the report of a run stands: nothing of it before [main] has left
    the loop; afterwards it is there once, computed from the two arrays as
    they are, and only [console.error] lines follow it. *)
Definition report_inv (h : hub) : Prop :=
  match pc h with
  | Awaiting _ _ _ => Forall (λ e, ¬ is_report e) (effects h)
  | Done =>
      ∃ pre late,
        effects h = pre ++ finish_effects (running h) (failed h) ++ late
        ∧ Forall (λ e, ¬ is_report e) pre
        ∧ Forall is_console_error late
  end.

(** [main] is never left suspended on a batch whose promises have all
    settled. *)
Definition waiting_inv (h : hub) : Prop :=
  match pc h with
  | Awaiting _ _ promises => forallb (is_settled h) promises = false
  | Done => True
  end.

(** Every launch whose race is decided has settled its promise. *)
Definition decided_is_settled (h : hub) : Prop :=
  ∀ id l, launches h !! id = Some l → started l = true → is_Some (settled l).

End WithConfig.

(** A schedule in which no child exits with code 0. *)
Definition no_clean_exit (sched : list (nat * child_event)) : Prop :=
  Forall (λ de, de.2 ≠ Exit (Some 0)) sched.

End Report.

(* ------------------------------------------------------------------------- *)
(** ** More scenarios *)

Module MoreScenarios.

Import Launcher Scenarios.

(** [--only nosuch] over the three descriptors: nothing is selected. *)
Definition nothing_cfg : config :=
  Config 4000 "192.168.1.7" ∅ abc
    (Selector.selectServers ["--only"; "nosuch"]%string abc) pids.

(** The timer of [a] fires, [c] exits with code 1, [b] fails to spawn. *)
Definition all_decided_sched : list (nat * child_event) :=
  [(0%nat, Timeout); (2%nat, Exit (Some 1)); (1%nat, Error "spawn ENOENT")].

(** The three timers fire, the last one first. *)
Definition all_timeouts_sched : list (nat * child_event) :=
  [(2%nat, Timeout); (0%nat, Timeout); (1%nat, Timeout)].

End MoreScenarios.

(* ------------------------------------------------------------------------- *)
(** ** The registry: [getServers] of [servers.js] *)

Module Registry.

(** [e.KEY] as the value of an [env] entry: a string, or [undefined] when
    the variable is not set. *)
Definition env_ref (e : gmap string string) (k : string) : env_val :=
  match e !! k with
  | Some v => VStr v
  | None => VUndefined
  end.

(** [e.KEY || dflt] *)
Definition env_or (e : gmap string string) (k dflt : string) : string :=
  match e !! k with
  | Some v => if Js.truthy (Some v) then v else dflt
  | None => dflt
  end.

(** The array literal of [getServers], entry by entry; [e] is
    [process.env] at the time of the call and [ollama_index] is the value of
    [resolve(__dirname, '..', 'servers', 'ollama-assistant', 'index.js')]. *)
Definition getServers (ollama_index : string) (e : gmap string string)
  : list server :=
  [
    Server "filesystem" "npx"
      ["-y"; "@modelcontextprotocol/server-filesystem"; "/data"]
      None;
    Server "git" "npx"
      ["-y"; "@modelcontextprotocol/server-git"]
      None;
    Server "github" "npx"
      ["-y"; "@modelcontextprotocol/server-github"]
      (Some (list_to_map
         [("GITHUB_PERSONAL_ACCESS_TOKEN", env_ref e "GITHUB_TOKEN")]));
    Server "memory" "npx"
      ["-y"; "@modelcontextprotocol/server-memory"]
      None;
    Server "sequential-thinking" "npx"
      ["-y"; "@modelcontextprotocol/server-sequential-thinking"]
      None;
    Server "fetch" "npx"
      ["-y"; "@modelcontextprotocol/server-fetch"]
      None;
    Server "time" "npx"
      ["-y"; "@modelcontextprotocol/server-time"]
      None;
    Server "docker" "npx"
      ["-y"; "mcp-server-docker"]
      None;
    Server "postgres" "npx"
      ["-y"; "@modelcontextprotocol/server-postgres"; env_or e "POSTGRES_CONNECTION_STRING" EmptyString]
      None;
    Server "sqlite" "npx"
      ["-y"; "@modelcontextprotocol/server-sqlite"; "--db-path"; env_or e "SQLITE_DB_PATH" "/data/sqlite"]
      None;
    Server "mongodb" "npx"
      ["-y"; "mcp-mongo-server"]
      (Some (list_to_map
         [("MONGODB_URI", env_ref e "MONGODB_CONNECTION_STRING")]));
    Server "redis" "npx"
      ["-y"; "@modelcontextprotocol/server-redis"; env_or e "REDIS_URL" "redis://localhost:6379"]
      None;
    Server "cloudflare" "npx"
      ["-y"; "@cloudflare/mcp-server-cloudflare"]
      (Some (list_to_map
         [("CLOUDFLARE_API_TOKEN", env_ref e "CLOUDFLARE_API_TOKEN");
          ("CLOUDFLARE_ACCOUNT_ID", env_ref e "CLOUDFLARE_ACCOUNT_ID")]));
    Server "terraform" "npx"
      ["-y"; "@hashicorp/terraform-mcp-server"]
      (Some (list_to_map
         [("TFC_TOKEN", env_ref e "TFC_TOKEN")]));
    Server "kubernetes" "npx"
      ["-y"; "mcp-server-kubernetes"]
      None;
    Server "localstack" "npx"
      ["-y"; "localstack-mcp-server"]
      None;
    Server "playwright" "npx"
      ["-y"; "@anthropic/mcp-server-playwright"]
      None;
    Server "puppeteer" "npx"
      ["-y"; "@modelcontextprotocol/server-puppeteer"]
      None;
    Server "brave-search" "npx"
      ["-y"; "@modelcontextprotocol/server-brave-search"]
      (Some (list_to_map
         [("BRAVE_API_KEY", env_ref e "BRAVE_API_KEY")]));
    Server "pagemap" "npx"
      ["-y"; "pagemap-mcp"]
      None;
    Server "slack" "npx"
      ["-y"; "@modelcontextprotocol/server-slack"]
      (Some (list_to_map
         [("SLACK_BOT_TOKEN", env_ref e "SLACK_BOT_TOKEN");
          ("SLACK_TEAM_ID", env_ref e "SLACK_TEAM_ID")]));
    Server "discord" "npx"
      ["-y"; "mcp-discord"]
      (Some (list_to_map
         [("DISCORD_TOKEN", env_ref e "DISCORD_BOT_TOKEN")]));
    Server "notion" "npx"
      ["-y"; "notion-mcp-server"]
      (Some (list_to_map
         [("NOTION_API_KEY", env_ref e "NOTION_API_KEY")]));
    Server "figma" "npx"
      ["-y"; "@anthropic/figma-mcp-server"]
      (Some (list_to_map
         [("FIGMA_ACCESS_TOKEN", env_ref e "FIGMA_ACCESS_TOKEN")]));
    Server "blender" "uvx"
      ["blender-mcp"]
      None;
    Server "ableton" "uvx"
      ["ableton-mcp"]
      None;
    Server "reaper" "npx"
      ["-y"; "reaper-mcp"]
      None;
    Server "svgmaker" "npx"
      ["-y"; "svgmaker-mcp"]
      None;
    Server "manim" "uvx"
      ["manim-mcp-server"]
      None;
    Server "davinci-resolve" "npx"
      ["-y"; "davinci-resolve-mcp"]
      None;
    Server "home-assistant" "uvx"
      ["ha-mcp"]
      (Some (list_to_map
         [("HASS_URL", env_ref e "HASS_URL");
          ("HASS_TOKEN", env_ref e "HASS_TOKEN")]));
    Server "coingecko" "npx"
      ["-y"; "coingecko-mcp-server"]
      (Some (list_to_map
         [("COINGECKO_API_KEY", env_ref e "COINGECKO_API_KEY")]));
    Server "alpaca" "npx"
      ["-y"; "@alpacahq/alpaca-mcp-server"]
      (Some (list_to_map
         [("ALPACA_API_KEY", env_ref e "ALPACA_API_KEY");
          ("ALPACA_API_SECRET", env_ref e "ALPACA_API_SECRET");
          ("ALPACA_PAPER", env_ref e "ALPACA_PAPER")]));
    Server "crypto-trading" "npx"
      ["-y"; "crypto-trading-mcp"]
      None;
    Server "crypto-portfolio" "uvx"
      ["crypto-portfolio-mcp"]
      None;
    Server "alphavantage" "npx"
      ["-y"; "alphavantage-mcp"]
      (Some (list_to_map
         [("ALPHAVANTAGE_API_KEY", env_ref e "ALPHAVANTAGE_API_KEY")]));
    Server "bankless-onchain" "npx"
      ["-y"; "@bankless/onchain-mcp"]
      None;
    Server "sentry" "npx"
      ["-y"; "@sentry/mcp-server"]
      (Some (list_to_map
         [("SENTRY_AUTH_TOKEN", env_ref e "SENTRY_AUTH_TOKEN");
          ("SENTRY_ORG", env_ref e "SENTRY_ORG")]));
    Server "axiom" "npx"
      ["-y"; "@axiom/mcp-server"]
      (Some (list_to_map
         [("AXIOM_API_TOKEN", env_ref e "AXIOM_API_TOKEN");
          ("AXIOM_ORG_ID", env_ref e "AXIOM_ORG_ID")]));
    Server "anyquery" "npx"
      ["-y"; "anyquery-mcp"]
      None;
    Server "pipedream" "npx"
      ["-y"; "@pipedream/mcp-server"]
      None;
    Server "apify" "npx"
      ["-y"; "apify-mcp-server"]
      (Some (list_to_map
         [("APIFY_API_TOKEN", env_ref e "APIFY_API_TOKEN")]));
    Server "e2b" "npx"
      ["-y"; "e2b-mcp-server"]
      (Some (list_to_map
         [("E2B_API_KEY", env_ref e "E2B_API_KEY")]));
    Server "mindsdb" "uvx"
      ["mindsdb-mcp-server"]
      None;
    Server "ollama-assistant" "node"
      [ollama_index]
      (Some (list_to_map
         [("OLLAMA_HOST", env_ref e "OLLAMA_HOST");
          ("OLLAMA_MODEL", env_ref e "OLLAMA_MODEL")]));
    Server "ollama-bridge" "npx"
      ["-y"; "mcp-server-ollama-bridge"]
      (Some (list_to_map
         [("OLLAMA_HOST", env_ref e "OLLAMA_HOST")]));
    Server "openai-bridge" "npx"
      ["-y"; "mcp-server-openai-bridge"]
      (Some (list_to_map
         [("OPENAI_API_KEY", env_ref e "OPENAI_API_KEY")]));
    Server "gemini-bridge" "npx"
      ["-y"; "mcp-server-gemini-bridge"]
      (Some (list_to_map
         [("GOOGLE_API_KEY", env_ref e "GOOGLE_API_KEY")]));
    Server "openai-image" "npx"
      ["-y"; "openai-gpt-image-mcp"]
      (Some (list_to_map
         [("OPENAI_API_KEY", env_ref e "OPENAI_API_KEY")]));
    Server "google-imagen" "npx"
      ["-y"; "imagen3-mcp"]
      (Some (list_to_map
         [("GOOGLE_API_KEY", env_ref e "GOOGLE_API_KEY")]));
    Server "aseprite" "npx"
      ["-y"; "aseprite-mcp"]
      None;
    Server "atlassian" "npx"
      ["-y"; "@atlassian/mcp-server"]
      (Some (list_to_map
         [("ATLASSIAN_URL", env_ref e "ATLASSIAN_URL");
          ("ATLASSIAN_EMAIL", env_ref e "ATLASSIAN_EMAIL");
          ("ATLASSIAN_API_TOKEN", env_ref e "ATLASSIAN_API_TOKEN")]));
    Server "azure-devops" "npx"
      ["-y"; "azure-devops-mcp"]
      (Some (list_to_map
         [("AZURE_DEVOPS_ORG", env_ref e "AZURE_DEVOPS_ORG");
          ("AZURE_DEVOPS_TOKEN", env_ref e "AZURE_DEVOPS_TOKEN")]));
    Server "gitlab" "npx"
      ["-y"; "@modelcontextprotocol/server-gitlab"]
      (Some (list_to_map
         [("GITLAB_TOKEN", env_ref e "GITLAB_TOKEN");
          ("GITLAB_URL", env_ref e "GITLAB_URL")]));
    Server "youtube-transcript" "npx"
      ["-y"; "mcp-server-youtube-transcript"]
      None;
    Server "spotify" "npx"
      ["-y"; "spotify-mcp"]
      (Some (list_to_map
         [("SPOTIFY_CLIENT_ID", env_ref e "SPOTIFY_CLIENT_ID");
          ("SPOTIFY_CLIENT_SECRET", env_ref e "SPOTIFY_CLIENT_SECRET")]));
    Server "open-library" "npx"
      ["-y"; "mcp-open-library"]
      None;
    Server "tmdb" "npx"
      ["-y"; "wizzy-mcp-tmdb"]
      (Some (list_to_map
         [("TMDB_API_KEY", env_ref e "TMDB_API_KEY")]));
    Server "personalization" "uvx"
      ["personalization-mcp"]
      None;
    Server "everything" "npx"
      ["-y"; "@modelcontextprotocol/server-everything"]
      None;
    Server "forage" "npx"
      ["-y"; "forage-mcp"]
      None
  ]%string.

End Registry.

(* ------------------------------------------------------------------------- *)
(** ** What the script reads at start-up *)

Module Startup.

Import Launcher.

(** The configuration of a launching invocation: [process.env] after the
    [.env] file (if there is one) was loaded, [PUBLIC_HOST] with its
    default, the registry, and the descriptors that the filters keep.
    [base_port] is the value of
    [parseInt(process.env.MCP_BASE_PORT || '3170', 10)]. *)
Definition hub_config (ollama_index : string) (envFile : option string)
    (penv : gmap string string) (argv : list string) (base_port : Z)
    (pids : nat → option Z) : config :=
  let penv :=
    match envFile with
    | Some envContent => EnvLoader.load_env envContent penv
    | None => penv
    end in
  let registry := Registry.getServers ollama_index penv in
  Config base_port (Registry.env_or penv "MCP_PUBLIC_HOST" "192.168.1.7")
    penv registry (Selector.selectServers argv registry) pids.

End Startup.

(* ------------------------------------------------------------------------- *)
(** ** [--list] *)

Module Listing.

(** [s.padStart(n)], padding with spaces. *)
Definition padStart (n : nat) (s : string) : string :=
  String.concat EmptyString (replicate (n - String.length s)%nat " "%string) +:+ s.

(** The line of the descriptor at index [i]. *)
Definition list_line (i : nat) (s : server) : string :=
  "  " +:+ padStart 2 (pretty (Z.of_nat i + 1)) +:+ ". "
  +:+ Js.padEnd 22 (srv_name s) +:+ " " +:+ srv_command s +:+ " "
  +:+ Js.join " " (srv_args s).

(** Everything that [--list] prints, one element per [console.log]. *)
Definition list_output (registry : list server) : list string :=
  (String "010" "Available MCP servers ("
   +:+ pretty (Z.of_nat (length registry)) +:+ "):" +:+ String "010" EmptyString)
  :: imap list_line registry.

(** The column at which the command of a line starts when the index has at
    most two digits and the name at most 22 code units. *)
Definition command_column : nat := 29.

End Listing.

(* ------------------------------------------------------------------------- *)
(** ** What a [.env] file assigns *)

Module EnvFile.

(** The key and the value that the loop body of the loader reads off a
    line, when the line is an assignment. *)
Definition parse_line (line : string) : option (string * string) :=
  let trimmed := Js.trim line in
  if bool_decide (trimmed = EmptyString) || Js.startsWith "#" trimmed then None
  else
    let eqIdx := Js.indexOf "="%char trimmed in
    if eqIdx =? -1 then None
    else Some (Js.trim (Js.slice trimmed 0 eqIdx),
               Js.trim (Js.slice_from trimmed (eqIdx + 1))).

(** The assignments of a file, in the order of its lines. *)
Definition assignments (envContent : string) : list (string * string) :=
  omap parse_line (Js.split "010"%char envContent).

(** What a list of assignments leaves in a key that has no non-empty value
    at the start: the first non-empty value given to it, the empty string if
    all its values are empty, nothing if it is never assigned. *)
Definition file_value (k : string) (kvs : list (string * string))
  : option string :=
  match filter (λ kv, kv.1 = k) kvs with
  | [] => None
  | l => Some (default EmptyString
                 (head (filter (λ v, v ≠ EmptyString) l.*2)))
  end.

End EnvFile.

(* ------------------------------------------------------------------------- *)
(** ** The stderr of a child *)

Module Stderr.

Import Launcher.

(** The chunks that a schedule delivers on the stderr of launch [id],
    concatenated in the order of their delivery. *)
Definition chunks (id : nat) (sched : list (nat * child_event)) : string :=
  String.concat EmptyString
    (omap (λ de : nat * child_event,
             match de.2 with
             | StderrData data => if bool_decide (de.1 = id) then Some data else None
             | _ => None
             end) sched).

(** The lines that [stderrBuf.trim().split('\n')] gives. *)
Definition lines (buf : string) : list string :=
  Js.split "010"%char (Js.trim buf).

End Stderr.

(* ------------------------------------------------------------------------- *)
(** ** The fence stripper of [generate_code] (ollama-assistant) *)

Module Assistant.

(** The class [\w]: ASCII letters, digits and the underscore. *)
Definition is_word (c : ascii) : bool :=
  let n := nat_of_ascii c in
  ((48 <=? n) && (n <=? 57) || (65 <=? n) && (n <=? 90)
   || (97 <=? n) && (n <=? 122) || (n =? 95))%nat.

Fixpoint all_word (s : string) : bool :=
  match s with
  | EmptyString => true
  | String c r => is_word c && all_word r
  end.

(** What is left after the longest run of word characters: the only place
    where the greedy [[\w]*] can stop when a line feed has to follow, since a
    line feed is not a word character. *)
Fixpoint drop_word (s : string) : string :=
  match s with
  | EmptyString => EmptyString
  | String c r => if is_word c then drop_word r else s
  end.

Definition fence : string := "```".

(** [code.match(/^```[\w]*\n([\s\S]*?)```$/)], reduced to its first group:
    the text starts with a fence, a run of word characters and a line feed,
    and ends with a fence; the lazy group is all that lies between, because
    [$] lets the closing fence match at the very end only. *)
Definition fence_match (code : string) : option string :=
  if Js.startsWith fence code then
    match drop_word (Js.str_drop 3 code) with
    | String "010" body =>
        if bool_decide (Js.slice_from body (-3) = fence)
        then Some (Js.slice body 0 (-3))
        else None
    | _ => None
    end
  else None.

(** [let code = result.content; if (fenceMatch) code = fenceMatch[1];] *)
Definition strip_fence (content : string) : string :=
  match fence_match content with
  | Some inner => inner
  | None => content
  end.

(** The last code unit of a text. *)
Fixpoint last_char (s : string) : option ascii :=
  match s with
  | EmptyString => None
  | String c EmptyString => Some c
  | String _ r => last_char r
  end.

End Assistant.

(* ------------------------------------------------------------------------- *)
(** ** The promises of the launches *)

Module Promises.

Import Launcher.

(** The launch whose promise an effect settles. *)
Definition settle_id (e : effect) : option nat :=
  match e with
  | Settle id _ => Some id
  | _ => None
  end.

(** The trace and the launches agree on the settled promises, and no
    promise is settled twice. *)
Definition settle_inv (h : hub) : Prop :=
  NoDup (omap settle_id (effects h))
  ∧ ∀ id ok, Settle id ok ∈ effects h →
             ∃ l, launches h !! id = Some l ∧ settled l = Some ok.

End Promises.

(* ========================================================================= *)
(** * Properties *)

(* ------------------------------------------------------------------------- *)
(** ** The helpers on a few inputs *)

Example trim_strips_both_ends : Js.trim "  KEY = v  " = "KEY = v"%string.
Proof. reflexivity. Qed.

Example split_keeps_empty_fields : Js.split "," "git,,time," = ["git"; ""; "time"; ""]%string.
Proof. reflexivity. Qed.

Example split_of_empty : Js.split "," "" = [""]%string.
Proof. reflexivity. Qed.

Example indexOf_finds_first : Js.indexOf "=" "A=b=c" = 1.
Proof. reflexivity. Qed.

Example indexOf_misses : Js.indexOf "=" "export" = -1.
Proof. reflexivity. Qed.

Example slice_from_negative :
  Js.arr_slice_from ["l1"; "l2"; "l3"; "l4"]%string (-3) = ["l2"; "l3"; "l4"]%string.
Proof. reflexivity. Qed.

Example slice_from_negative_short :
  Js.arr_slice_from ["l1"]%string (-3) = ["l1"]%string.
Proof. reflexivity. Qed.

Example exit_message_with_stderr :
  Launcher.exit_message (Some 1) "npm ERR! a
npm ERR! b
npm ERR! c
npm ERR! d
" = "exit code 1: npm ERR! b | npm ERR! c | npm ERR! d"%string.
Proof. vm_compute. reflexivity. Qed.

Example exit_message_by_signal : Launcher.exit_message None "" = "exit code null"%string.
Proof. vm_compute. reflexivity. Qed.

Example ok_line :
  Launcher.render (Launcher.MOk "git" 3171)
  = "  [OK] git                    -> port 3171"%string.
Proof. vm_compute. reflexivity. Qed.

Example env_file_first_value_wins :
  EnvLoader.load_env "# ports
MCP_BASE_PORT = 4000
MCP_BASE_PORT=5000
not a pair" ∅ = {["MCP_BASE_PORT" := "4000"]}.
Proof. vm_compute. reflexivity. Qed.

(* ------------------------------------------------------------------------- *)
(** ** Array lookups *)

Section ArrayFacts.

Context {A : Type} `{EqDecision A}.

Lemma arr_indexOf_range (x : A) (l : list A) :
  -1 ≤ Js.arr_indexOf x l < Z.of_nat (length l).
Proof.
  induction l as [|y r IH]; simpl; [lia|].
  destruct (decide (y = x)); [lia|].
  destruct (Z.eqb_spec (Js.arr_indexOf x r) (-1)); lia.
Qed.

Lemma arr_indexOf_absent (x : A) (l : list A) :
  x ∉ l → Js.arr_indexOf x l = -1.
Proof.
  induction l as [|y r IH]; simpl; [done|].
  intros Hx. apply not_elem_of_cons in Hx as [Hne Hr].
  destruct (decide (y = x)); [congruence|].
  by rewrite (IH Hr).
Qed.

Lemma arr_indexOf_first (x : A) (pre post : list A) :
  x ∉ pre → Js.arr_indexOf x (pre ++ x :: post) = Z.of_nat (length pre).
Proof.
  induction pre as [|y r IH]; simpl; intros Hx.
  - by rewrite decide_True.
  - apply not_elem_of_cons in Hx as [Hne Hr].
    rewrite decide_False by congruence. rewrite (IH Hr).
    destruct (Z.eqb_spec (Z.of_nat (length r)) (-1)); lia.
Qed.

Lemma arr_get_nat (l : list A) (n : nat) : Js.arr_get l (Z.of_nat n) = l !! n.
Proof.
  unfold Js.arr_get. destruct (Z.ltb_spec (Z.of_nat n) 0); [lia|].
  by rewrite Nat2Z.id.
Qed.

End ArrayFacts.

(* ------------------------------------------------------------------------- *)
(** ** Selection *)

Section SelectorFacts.

Import Selector.

#[local] Instance spec_keeps_dec only exclude s : Decision (spec_keeps only exclude s).
Proof.
  unfold spec_keeps.
  destruct only as [o|], exclude as [x|].
  - destruct (decide (srv_name s ∈ o)); [destruct (decide (srv_name s ∉ x))|].
    + left. split; intros ? [= <-]; done.
    + right. intros [_ H]. by specialize (H x eq_refl).
    + right. intros [H _]. by specialize (H o eq_refl).
  - destruct (decide (srv_name s ∈ o)).
    + left. split; [by intros ? [= <-] | done].
    + right. intros [H _]. by specialize (H o eq_refl).
  - destruct (decide (srv_name s ∉ x)).
    + left. split; [done | by intros ? [= <-]].
    + right. intros [_ H]. by specialize (H x eq_refl).
  - left. split; done.
Defined.

Lemma applyFilters_elem_of only exclude registry s :
  s ∈ applyFilters only exclude registry ↔ s ∈ registry ∧ spec_keeps only exclude s.
Proof.
  unfold applyFilters, spec_keeps.
  destruct only as [o|], exclude as [x|]; rewrite ?list_elem_of_filter.
  - split.
    + intros (Hx & Ho & Hr). repeat split; [done| |]; by intros ? [= <-].
    + intros (Hr & Ho & Hx). eauto.
  - split.
    + intros (Ho & Hr). repeat split; [done| |done]; by intros ? [= <-].
    + intros (Hr & Ho & _). eauto.
  - split.
    + intros (Hx & Hr). repeat split; [done|done|]; by intros ? [= <-].
    + intros (Hr & _ & Hx). eauto.
  - split; [intros Hr; repeat split; done | by intros (Hr & _)].
Qed.

Lemma filter_idem_all {B} (P : B → Prop) `{∀ b, Decision (P b)} (l : list B) :
  (∀ b, b ∈ l → P b) → filter P l = l.
Proof.
  induction l as [|b r IH]; [done|]. intros Hall.
  rewrite filter_cons_True by (apply Hall; left).
  f_equal. apply IH. intros c Hc. apply Hall. by right.
Qed.

Lemma filter_filter_and {B} (P Q R : B → Prop)
    `{∀ b, Decision (P b)} `{∀ b, Decision (Q b)} `{∀ b, Decision (R b)}
    (l : list B) :
  (∀ b, R b ↔ P b ∧ Q b) → filter Q (filter P l) = filter R l.
Proof.
  intros HR. induction l as [|b r IH]; [done|].
  destruct (decide (P b)) as [HP|HP].
  - rewrite (filter_cons_True P) by done.
    destruct (decide (Q b)) as [HQ|HQ].
    + rewrite !filter_cons_True by (done || by apply HR). by rewrite IH.
    + rewrite !filter_cons_False by (done || rewrite HR; tauto). done.
  - rewrite (filter_cons_False P) by done.
    rewrite (filter_cons_False R) by (rewrite HR; tauto). done.
Qed.

Lemma applyFilters_as_spec only exclude registry :
  applyFilters only exclude registry = filter (spec_keeps only exclude) registry.
Proof.
  unfold applyFilters.
  destruct only as [o|], exclude as [x|].
  - apply filter_filter_and. intros s. unfold spec_keeps. split.
    + intros [Ho Hx]. eauto.
    + intros [Ho Hx]. split; by intros ? [= <-].
  - apply list_filter_iff. intros s. unfold spec_keeps. split.
    + intros Ho. split; [by intros ? [= <-] | done].
    + intros [Ho _]. eauto.
  - apply list_filter_iff. intros s. unfold spec_keeps. split.
    + intros Hx. split; [done | by intros ? [= <-]].
    + intros [_ Hx]. eauto.
  - symmetry. apply filter_idem_all. intros s _. split; done.
Qed.

Lemma flagSet_absent argv flag : flag ∉ argv → flagSet argv flag = None.
Proof.
  intros H. unfold flagSet, flagIdx. by rewrite arr_indexOf_absent.
Qed.

Lemma flagSet_trailing pre flag : flag ∉ pre → flagSet (pre ++ [flag]) flag = None.
Proof.
  intros H. unfold flagSet, flagIdx. rewrite arr_indexOf_first by done.
  replace (Z.of_nat (length pre) + 1) with (Z.of_nat (S (length pre))) by lia.
  rewrite arr_get_nat.
  rewrite lookup_ge_None_2; [by rewrite andb_false_r|].
  rewrite length_app. simpl. lia.
Qed.

Lemma flagSet_value pre flag v post :
  flag ∉ pre → v ≠ EmptyString →
  flagSet (pre ++ flag :: v :: post) flag = Some (list_to_set (Js.split "," v)).
Proof.
  intros H Hv. unfold flagSet, flagIdx. rewrite arr_indexOf_first by done.
  replace (Z.of_nat (length pre) + 1) with (Z.of_nat (S (length pre))) by lia.
  rewrite arr_get_nat.
  assert ((pre ++ flag :: v :: post) !! S (length pre) = Some v) as ->.
  { change (flag :: v :: post) with ([flag] ++ v :: post).
    rewrite (assoc_L (++)). apply list_lookup_middle.
    rewrite length_app. simpl. lia. }
  simpl. rewrite bool_decide_eq_false_2 by done. simpl.
  destruct (Z.eqb_spec (Z.of_nat (length pre)) (-1)); [lia|done].
Qed.

Lemma arr_indexOf_lookup (x : string) (l : list string) :
  x ∈ l → l !! Z.to_nat (Js.arr_indexOf x l) = Some x ∧ 0 ≤ Js.arr_indexOf x l.
Proof.
  induction l as [|y r IH]; [by intros ?%elem_of_nil|].
  intros Hx. simpl. destruct (decide (y = x)) as [->|Hne]; [done|].
  apply elem_of_cons in Hx as [?|Hr]; [congruence|].
  destruct (IH Hr) as [Hl H0].
  destruct (Z.eqb_spec (Js.arr_indexOf x r) (-1)); [lia|].
  split; [|lia].
  replace (Z.to_nat (Js.arr_indexOf x r + 1)) with (S (Z.to_nat (Js.arr_indexOf x r))) by lia.
  done.
Qed.

Lemma arr_indexOf_app_l (x : string) (l m : list string) :
  x ∈ l → Js.arr_indexOf x (l ++ m) = Js.arr_indexOf x l.
Proof.
  induction l as [|y r IH]; [by intros ?%elem_of_nil|].
  intros Hx. simpl. destruct (decide (y = x)); [done|].
  apply elem_of_cons in Hx as [?|Hr]; [congruence|]. by rewrite IH.
Qed.

(** Appending one token leaves the name set of another flag alone, unless
    that flag was itself the last token and so gains a value. *)
Lemma flagSet_snoc_other pre tok flag :
  tok ≠ flag → last pre ≠ Some flag →
  flagSet (pre ++ [tok]) flag = flagSet pre flag.
Proof.
  intros Hne Hlast. destruct (decide (flag ∈ pre)) as [Hin|Hout].
  - unfold flagSet, flagIdx. rewrite arr_indexOf_app_l by done.
    destruct (arr_indexOf_lookup flag pre Hin) as [Hl H0].
    pose proof (arr_indexOf_range flag pre) as Hr.
    set (i := Js.arr_indexOf flag pre) in *.
    assert (Z.to_nat i + 1 < length pre)%nat as Hlt.
    { destruct (decide (Z.to_nat i + 1 = length pre)%nat) as [He|]; [|lia].
      exfalso. apply Hlast. rewrite last_lookup.
      replace (Init.Nat.pred (length pre)) with (Z.to_nat i) by lia. done. }
    replace (i + 1) with (Z.of_nat (Z.to_nat i + 1)) by lia.
    rewrite !arr_get_nat, lookup_app_l by lia. done.
  - rewrite (flagSet_absent pre) by done. apply flagSet_absent.
    rewrite elem_of_app, list_elem_of_singleton. intros [?|?]; congruence.
Qed.

(** C5. For every registry and every pair of optional name sets, the
    selection is the registry filtered by "in [only], when [only] is given,
    and not in [exclude], when [exclude] is given": a subsequence of the
    registry in registry order; a name that is in both sets is dropped; a
    name that matches nothing changes nothing and the function is total.
    The command line reaches the same function with the sets of the two
    flags: a flag followed by a non-empty value gives the set of the
    comma-separated names of that value. *)
Theorem selection_is_only_then_exclude
    (only exclude : option (gset string)) (registry : list server) :
  applyFilters only exclude registry = filter (spec_keeps only exclude) registry
  ∧ applyFilters only exclude registry `sublist_of` registry
  ∧ (∀ s, s ∈ applyFilters only exclude registry ↔
          s ∈ registry
          ∧ (∀ o, only = Some o → srv_name s ∈ o)
          ∧ (∀ x, exclude = Some x → srv_name s ∉ x))
  ∧ (∀ o x s, only = Some o → exclude = Some x →
              srv_name s ∈ o → srv_name s ∈ x →
              s ∉ applyFilters only exclude registry)
  ∧ (∀ argv, selectServers argv registry
             = applyFilters (flagSet argv "--only") (flagSet argv "--exclude")
                 registry)
  ∧ (∀ o x : string,
       o ≠ EmptyString → x ≠ EmptyString → o ≠ "--exclude"%string →
       selectServers ["--only"%string; o; "--exclude"%string; x] registry
       = applyFilters (Some (list_to_set (Js.split "," o)))
           (Some (list_to_set (Js.split "," x))) registry).
Proof.
  split; [apply applyFilters_as_spec|].
  split; [rewrite applyFilters_as_spec; apply sublist_filter|].
  split; [intros s; apply applyFilters_elem_of|].
  split.
  { intros o x s -> -> _ Hx [_ [_ Hkeep]]%applyFilters_elem_of.
    by apply (Hkeep x). }
  split; [done|].
  intros o x Ho Hx Hox. unfold selectServers.
  pose proof (flagSet_value [] "--only" o ["--exclude"%string; x]
                (not_elem_of_nil _) Ho) as H1.
  assert ("--exclude"%string ∉ ["--only"%string; o]) as Hnot.
  { intros Hin. apply elem_of_cons in Hin as [?|Hin]; [done|].
    apply list_elem_of_singleton in Hin. congruence. }
  pose proof (flagSet_value ["--only"%string; o] "--exclude" x [] Hnot Hx) as H2.
  simpl in H1, H2. by rewrite H1, H2.
Qed.

(** C10. When a filter flag is the last token of the command line (and not
    also an earlier one), its filter is not applied: the flag has no name
    set, the selection is what the other flag alone gives, the selection is
    the one of the command line without that token unless the token became
    the value of the other flag, and with no other flag the whole registry
    is selected. *)
Theorem trailing_flag_is_ignored
    (flag : string) (pre : list string) (registry : list server) :
  flag ∉ pre →
  flagSet (pre ++ [flag]) flag = None
  ∧ (flag = "--only"%string →
     selectServers (pre ++ [flag]) registry
     = applyFilters None (flagSet (pre ++ [flag]) "--exclude") registry)
  ∧ (flag = "--exclude"%string →
     selectServers (pre ++ [flag]) registry
     = applyFilters (flagSet (pre ++ [flag]) "--only") None registry)
  ∧ (flag = "--only"%string ∨ flag = "--exclude"%string →
     last pre ≠ Some "--only"%string → last pre ≠ Some "--exclude"%string →
     selectServers (pre ++ [flag]) registry = selectServers pre registry)
  ∧ (flag = "--only"%string ∨ flag = "--exclude"%string →
     "--only"%string ∉ pre → "--exclude"%string ∉ pre →
     selectServers (pre ++ [flag]) registry = registry)
  ∧ (flag = "--only"%string ∨ flag = "--exclude"%string →
     "--only"%string ∉ pre → "--exclude"%string ∉ pre →
     "--list"%string ∉ pre → "--generate"%string ∉ pre →
     invocation_of (pre ++ [flag]) registry = LaunchSelected registry).
Proof.
  intros Hflag. split; [by apply flagSet_trailing|].
  split; [intros ->; unfold selectServers; by rewrite flagSet_trailing|].
  split; [intros ->; unfold selectServers; by rewrite flagSet_trailing|].
  split.
  - intros Hf Hlo Hlx. unfold selectServers.
    destruct Hf as [-> | ->].
    + rewrite flagSet_trailing by done.
      rewrite flagSet_snoc_other by done.
      by rewrite (flagSet_absent pre "--only").
    + rewrite (flagSet_trailing pre "--exclude") by done.
      rewrite flagSet_snoc_other by done.
      by rewrite (flagSet_absent pre "--exclude").
  - assert (flag = "--only"%string ∨ flag = "--exclude"%string →
            "--only"%string ∉ pre → "--exclude"%string ∉ pre →
            selectServers (pre ++ [flag]) registry = registry) as Hall.
    { intros Hf Ho Hx. unfold selectServers.
      destruct Hf as [-> | ->].
      - rewrite flagSet_trailing by done.
        rewrite (flagSet_absent _ "--exclude"); [done|].
        rewrite elem_of_app, list_elem_of_singleton. intros [?|?]; done.
      - rewrite (flagSet_trailing _ "--exclude") by done.
        rewrite (flagSet_absent _ "--only"); [done|].
        rewrite elem_of_app, list_elem_of_singleton. intros [?|?]; done. }
    split; [done|].
    intros Hf Ho Hx Hl Hg. unfold invocation_of, Js.includes.
    rewrite !bool_decide_eq_false_2.
    + by rewrite Hall.
    + rewrite elem_of_app, list_elem_of_singleton.
      intros [?|?]; [done|]. destruct Hf; congruence.
    + rewrite elem_of_app, list_elem_of_singleton.
      intros [?|?]; [done|]. destruct Hf; congruence.
Qed.

(** Witness of C10: [--exclude git --only] selects everything but [git]. *)
Lemma trailing_flag_is_ignored_witness :
  ("--only"%string ∉ ["--exclude"; "git"]%string)
  ∧ selectServers ["--exclude"; "git"; "--only"]%string
      [Server "git" "npx" [] None; Server "time" "npx" [] None]
    = [Server "time" "npx" [] None].
Proof.
  split; [by apply (bool_decide_unpack _)|].
  pose proof (trailing_flag_is_ignored "--only" ["--exclude"; "git"]%string
                [Server "git" "npx" [] None; Server "time" "npx" [] None]
                ltac:(by apply (bool_decide_unpack _))) as (_ & H & _).
  simpl app in H. rewrite (H eq_refl). vm_compute. reflexivity.
Defined.

End SelectorFacts.

(* ------------------------------------------------------------------------- *)
(** ** Strings *)

Section StringFacts.

Import Js.









Lemma indexOf_range c s : -1 ≤ indexOf c s < Z.of_nat (String.length s).
Proof.
  induction s as [|d s IH]; simpl; [lia|].
  destruct (Ascii.eqb d c); [lia|].
  destruct (Z.eqb_spec (indexOf c s) (-1)); lia.
Qed.



Lemma str_take_app a b : str_take (String.length a) (a +:+ b) = a.
Proof.
  induction a as [|d a IH]; simpl; [by destruct b|]. by rewrite IH.
Qed.

Lemma str_drop_app a b : str_drop (String.length a) (a +:+ b) = b.
Proof. induction a as [|d a IH]; simpl; done. Qed.


Lemma length_append a b :
  String.length (a +:+ b) = (String.length a + String.length b)%nat.
Proof. induction a as [|d a IH]; simpl; [done|]. by rewrite IH. Qed.





End StringFacts.

(* ------------------------------------------------------------------------- *)
(** ** The [.env] loader *)

Section EnvLoaderFacts.

Import EnvLoader.










End EnvLoaderFacts.

(* ------------------------------------------------------------------------- *)
(** ** The environment of a child *)

Section ChildEnvFacts.

Import ChildEnv.

Lemma overlay_fold_other (l : list (string * env_val)) acc k :
  (∀ v, (k, VStr v) ∉ l) → foldl overlay_entry acc l !! k = acc !! k.
Proof.
  revert acc. induction l as [|[k' v'] l IH]; intros acc Hk; [done|].
  simpl. rewrite IH by (intros v Hv; apply (Hk v); by right).
  unfold overlay_entry. simpl. destruct v' as [| |v']; [done|done|].
  apply lookup_insert_ne. intros ->. apply (Hk v'). by left.
Qed.

Lemma overlay_fold_string (l : list (string * env_val)) acc k v :
  NoDup l.*1 → (k, VStr v) ∈ l → foldl overlay_entry acc l !! k = Some v.
Proof.
  revert acc. induction l as [|[k' v'] l IH]; intros acc Hnd Hin.
  - by apply elem_of_nil in Hin.
  - simpl in Hnd. apply NoDup_cons in Hnd as [Hfresh Hnd].
    apply elem_of_cons in Hin as [[= <- <-]|Hin].
    + simpl. rewrite overlay_fold_other.
      * unfold overlay_entry. simpl. apply lookup_insert_eq.
      * intros w Hw. apply Hfresh. apply list_elem_of_fmap.
        by exists (k, VStr w).
    + simpl. by apply IH.
Qed.

(** C6 (the claim as stated fails). An overlay value that is the empty
    string is not skipped: the child gets the key set to the empty string
    and the value of the base environment is lost. *)
Lemma empty_overlay_value_is_applied :
  ({["GITHUB_PERSONAL_ACCESS_TOKEN" := "base"]} : gmap string string)
    !! "GITHUB_PERSONAL_ACCESS_TOKEN"%string = Some "base"%string
  ∧ childEnv {["GITHUB_PERSONAL_ACCESS_TOKEN" := "base"]}
      (Server "github" "npx" ["-y"; "@modelcontextprotocol/server-github"]%string
         (Some {["GITHUB_PERSONAL_ACCESS_TOKEN" := VStr ""]}))
      !! "GITHUB_PERSONAL_ACCESS_TOKEN"%string
    = Some ""%string.
Proof. split; vm_compute; reflexivity. Qed.

(** C6 (amended). The environment of a child is the process environment
    overlaid with the descriptor's [env]: a key whose overlay value is a
    string, the empty string included, has that value; a key whose overlay
    value is [undefined] or [null], or that the overlay does not have, keeps
    what the process environment has for it, if anything. *)
Theorem child_env_is_overlay (penv : gmap string string) (s : server) (k : string) :
  childEnv penv s !! k
  = match srv_env s ≫= (λ e, e !! k) with
    | Some (VStr v) => Some v
    | Some VUndefined | Some VNull | None => penv !! k
    end.
Proof.
  unfold childEnv. destruct (srv_env s) as [e|]; simpl; [|done].
  destruct (e !! k) as [[| |v]|] eqn:E.
  - apply overlay_fold_other. intros v Hv%elem_of_map_to_list. congruence.
  - apply overlay_fold_other. intros v Hv%elem_of_map_to_list. congruence.
  - apply overlay_fold_string; [apply NoDup_fst_map_to_list|].
    by apply elem_of_map_to_list.
  - apply overlay_fold_other. intros v Hv%elem_of_map_to_list. congruence.
Qed.

End ChildEnvFacts.

(* ------------------------------------------------------------------------- *)
(** ** The launcher *)

Section LauncherFacts.

Import Launcher.

Variable cfg : config.

(** *** Slices of the selected list *)

Lemma arr_slice_batch {A} (l : list A) (i : Z) :
  0 ≤ i →
  Js.arr_slice l i (i + BATCH_SIZE) = take 10 (drop (Z.to_nat i) l).
Proof.
  intros Hi. unfold Js.arr_slice, Js.rel_index, BATCH_SIZE.
  destruct (Z.ltb_spec i 0); [lia|].
  destruct (Z.ltb_spec (i + 10) 0); [lia|].
  destruct (Z_le_gt_dec (Z.of_nat (length l)) i) as [Hge|Hlt].
  - rewrite !Z.min_r by lia. rewrite !drop_ge by lia. by rewrite !take_nil.
  - rewrite (Z.min_l i) by lia.
    destruct (Z_le_gt_dec (i + 10) (Z.of_nat (length l))).
    + rewrite Z.min_l by lia. f_equal. lia.
    + rewrite Z.min_r by lia.
      rewrite !take_ge; [done| |]; rewrite length_drop; lia.
Qed.

Lemma arr_slice_batch_length {A} (l : list A) (i : Z) :
  0 ≤ i →
  length (Js.arr_slice l i (i + BATCH_SIZE))
  = (10 `min` (length l - Z.to_nat i))%nat.
Proof.
  intros Hi. rewrite arr_slice_batch by done.
  by rewrite length_take, length_drop.
Qed.

(** *** [launchServer] and [launch_all] *)

Lemma launch_all_spec plan h :
  launches (launch_all cfg plan h).1
  = launches h ++ imap (λ j, new_launch cfg (length (launches h) + j)%nat) plan
  ∧ effects (launch_all cfg plan h).1
    = effects h ++ imap (λ j, spawn_of cfg (length (launches h) + j)%nat) plan
  ∧ running (launch_all cfg plan h).1 = running h
  ∧ failed (launch_all cfg plan h).1 = failed h
  ∧ pc (launch_all cfg plan h).1 = pc h
  ∧ (launch_all cfg plan h).2 = seq (length (launches h)) (length plan).
Proof.
  revert h. induction plan as [|[s port] plan IH]; intros h.
  - simpl. by rewrite !app_nil_r.
  - simpl. unfold launchServer.
    set (h1 := emit _ _).
    assert (length (launches h1) = S (length (launches h))) as Hlen.
    { subst h1. simpl. rewrite length_app. simpl. lia. }
    assert (launches h1 = launches h ++ [new_launch cfg (length (launches h)) (s, port)])
      as Hl1 by done.
    assert (effects h1 = effects h ++ [spawn_of cfg (length (launches h)) (s, port)])
      as He1 by done.
    assert (running h1 = running h ∧ failed h1 = failed h ∧ pc h1 = pc h)
      as (Hr1 & Hf1 & Hp1) by done.
    clearbody h1.
    specialize (IH h1). destruct (launch_all cfg plan h1) as [h2 ids].
    simpl in *. destruct IH as (Hl & He & Hr & Hf & Hp & Hi).
    rewrite Hlen in *. rewrite Nat.add_0_r.
    repeat split; try congruence.
    + rewrite Hl, Hl1, <- (assoc_L (++)). simpl.
      do 2 f_equal. apply imap_ext. intros j x _. simpl. f_equal. lia.
    + rewrite He, He1, <- (assoc_L (++)). simpl.
      do 2 f_equal. apply imap_ext. intros j x _. simpl. f_equal. lia.
Qed.

(** *** One callback *)

Lemma handle_cases ev id l h :
  launches h !! id = Some l →
  pc (handle ev id l h) = pc h
  ∧ ((∃ l' evs,
        launches (handle ev id l h) = <[id := l']> (launches h)
        ∧ plan_of l' = plan_of l ∧ l_pid l' = l_pid l
        ∧ settled l' = settled l
        ∧ (started l = true → started l' = true)
        ∧ effects (handle ev id l h) = effects h ++ evs
        ∧ Forall is_console_error evs
        ∧ (started l = false → evs = [])
        ∧ running (handle ev id l h) = running h
        ∧ failed (handle ev id l h) = failed h)
     ∨ (started l = false
        ∧ ∃ ok err,
            launches (handle ev id l h)
            = <[id := settle ok (disarm (mark_started l))]> (launches h)
            ∧ effects (handle ev id l h) = effects h ++ [Settle id ok]
            ∧ running (handle ev id l h)
              = running h
                ++ (if ok
                    then [Running (srv_name (l_server l)) (l_port l) (l_pid l)]
                    else [])
            ∧ failed (handle ev id l h)
              = failed h
                ++ (if ok then [] else [Failed (srv_name (l_server l)) err]))).
Proof.
  intros Hl.
  assert (launches h = <[id := l]> (launches h)) as Hid
    by (symmetry; by apply list_insert_id).
  destruct l as [s port pid st tm buf stl].
  destruct ev as [|msg|code|data]; simpl;
    unfold on_timeout, on_error, on_exit, on_stderr; simpl.
  - destruct tm; [destruct st|]; simpl; (split; [done|]).
    + left. eexists _, []. rewrite app_nil_r. by repeat split.
    + right. split; [done|]. exists true, EmptyString.
      rewrite app_nil_r. by repeat split.
    + left. eexists _, []. rewrite app_nil_r. by repeat split.
  - destruct st; simpl; (split; [done|]).
    + left. eexists _, []. rewrite app_nil_r. by repeat split.
    + right. split; [done|]. exists false, msg.
      rewrite app_nil_r. by repeat split.
  - destruct st; simpl.
    + case_match; (split; [done|]); left.
      * eexists _, [_; _]. repeat split; try done.
        -- unfold emit. simpl. by rewrite <- (assoc_L (++)).
        -- by repeat constructor.
      * eexists _, [_]. repeat split; try done. by repeat constructor.
    + destruct (bool_decide (code = Some 0)); simpl; (split; [done|]).
      * left. eexists _, []. rewrite app_nil_r. by repeat split.
      * right. split; [done|]. exists false, (exit_message code buf).
        rewrite app_nil_r. by repeat split.
  - split; [done|]. left. eexists _, []. rewrite app_nil_r. by repeat split.
Qed.

(** *** Effects in order *)

Lemma ordered_nil : ordered [].
Proof. intros [|] ? ? [=]. Qed.

Lemma ordered_app tr new :
  ordered tr →
  (∀ b e a, new = b ++ e :: a → justified (tr ++ b) e) →
  ordered (tr ++ new).
Proof.
  intros Htr Hnew before e after Heq.
  apply app_eq_app in Heq as [mid [[Hb Ha]|[Hb Ha]]].
  - destruct mid as [|x mid]; simpl in Ha.
    + rewrite app_nil_r in Hb. subst before.
      rewrite <- (app_nil_r tr). by apply (Hnew [] e after).
    + injection Ha as He Ha. subst. by eapply Htr.
  - subst before. by apply (Hnew mid e after).
Qed.

Lemma ordered_app_free tr new :
  ordered tr →
  Forall (λ e, ∀ before, justified before e) new →
  ordered (tr ++ new).
Proof.
  intros Htr Hnew. apply ordered_app; [done|].
  intros b e a ->. rewrite Forall_app, Forall_cons in Hnew.
  apply Hnew.
Qed.

Lemma group_offset (q j : Z) : 0 ≤ j < 10 → (q * 10 + j) / BATCH_SIZE = q.
Proof.
  intros Hj. unfold BATCH_SIZE.
  rewrite Z.div_add_l by lia. rewrite Z.div_small by lia. lia.
Qed.

Lemma group_below (id : nat) (q : Z) :
  group id < q → Z.of_nat id < q * 10.
Proof.
  unfold group, BATCH_SIZE. intros Hlt.
  destruct (Z_lt_ge_dec (Z.of_nat id) (q * 10)) as [|Hge]; [done|].
  assert (q ≤ Z.of_nat id / 10) by (apply Z.div_le_lower_bound; lia). lia.
Qed.

Lemma is_settled_lookup h id :
  is_settled h id = true ↔
  ∃ l, launches h !! id = Some l ∧ is_Some (settled l).
Proof.
  unfold is_settled. destruct (launches h !! id) as [l|].
  - rewrite bool_decide_eq_true.
    split; [intros H; by exists l | by intros (l' & [= <-] & H)].
  - split; [done | by intros (l' & [=] & _)].
Qed.

(** *** Counting the settled launches *)

Lemma settled_count_app ls ls' :
  settled_count (ls ++ ls') = (settled_count ls + settled_count ls')%nat.
Proof. unfold settled_count. by rewrite filter_app, length_app. Qed.

Lemma settled_count_none ls :
  Forall (λ l, settled l = None) ls → settled_count ls = 0%nat.
Proof.
  unfold settled_count. induction 1 as [|l ls Hl _ IH]; [done|].
  rewrite filter_cons_False; [done|]. rewrite Hl. by intros [? [=]].
Qed.

Lemma settled_count_insert_same ls id l l' :
  ls !! id = Some l → settled l' = settled l →
  settled_count (<[id := l']> ls) = settled_count ls.
Proof.
  unfold settled_count. revert id.
  induction ls as [|x ls IH]; intros id Hl Hs; [done|].
  destruct id as [|id]; simpl in *.
  - injection Hl as ->.
    destruct (decide (is_Some (settled l))) as [H|H].
    + rewrite !filter_cons_True by (by rewrite ?Hs). done.
    + rewrite !filter_cons_False by (by rewrite ?Hs). done.
  - destruct (decide (is_Some (settled x))) as [H|H].
    + rewrite !filter_cons_True by done. simpl. by rewrite (IH id).
    + rewrite !filter_cons_False by done. by apply IH.
Qed.

Lemma settled_count_insert_new ls id l l' :
  ls !! id = Some l → settled l = None → is_Some (settled l') →
  settled_count (<[id := l']> ls) = S (settled_count ls).
Proof.
  unfold settled_count. revert id.
  induction ls as [|x ls IH]; intros id Hl Hn Hs; [done|].
  destruct id as [|id]; simpl in *.
  - injection Hl as ->.
    rewrite filter_cons_True by done.
    rewrite filter_cons_False by (rewrite Hn; by intros [? [=]]). done.
  - destruct (decide (is_Some (settled x))) as [H|H].
    + rewrite !filter_cons_True by done. simpl. by rewrite (IH id).
    + rewrite !filter_cons_False by done. by apply IH.
Qed.

(** *** Steps that leave launches and outcomes alone *)

Lemma base_inv_extend h h' evs :
  base_inv cfg h →
  launches h' = launches h → running h' = running h → failed h' = failed h →
  effects h' = effects h ++ evs →
  (∀ b e a, evs = b ++ e :: a → justified (effects h ++ b) e) →
  Forall no_spawn evs →
  base_inv cfg h'.
Proof.
  intros [Hplan Hord Hsp Hst Hstd Hout Htot] Hl Hr Hf He Hj Hns.
  constructor.
  - by rewrite Hl.
  - rewrite He. by apply ordered_app.
  - intros id a env Hin. rewrite He in Hin. rewrite Hl.
    apply elem_of_app in Hin as [Hin|Hin]; [by apply Hsp|].
    rewrite Forall_forall in Hns. by apply Hns in Hin.
  - intros id Hs. destruct (Hst id) as [ok Hok].
    { unfold is_settled in *. by rewrite Hl in Hs. }
    exists ok. rewrite He. apply elem_of_app. by left.
  - by rewrite Hl.
  - intros id l Hid. rewrite Hl in Hid. specialize (Hout id l Hid).
    unfold outcome_recorded in *. by rewrite Hr, Hf.
  - by rewrite Hl, Hr, Hf.
Qed.

(** *** The progress lines *)

Lemma print_progress_spec batch h :
  ∃ lines,
    Forall is_progress lines
    ∧ effects (print_progress batch h) = effects h ++ lines
    ∧ launches (print_progress batch h) = launches h
    ∧ running (print_progress batch h) = running h
    ∧ failed (print_progress batch h) = failed h
    ∧ pc (print_progress batch h) = pc h.
Proof.
  revert h. induction batch as [|s batch IH]; intros h.
  - exists []. by rewrite app_nil_r.
  - simpl. unfold print_progress in IH.
    set (h1 := match progress_line h s with Some m => _ | None => h end).
    assert (∃ l1, Forall is_progress l1 ∧ effects h1 = effects h ++ l1
                  ∧ launches h1 = launches h ∧ running h1 = running h
                  ∧ failed h1 = failed h ∧ pc h1 = pc h)
      as (l1 & Hp1 & He1 & Hl1 & Hr1 & Hf1 & Hc1).
    { subst h1. unfold progress_line.
      destruct (list_find _ (running h)) as [[? r]|].
      - eexists [_]. repeat split; try done. by repeat constructor.
      - destruct (list_find _ (failed h)) as [[? f]|].
        + eexists [_]. repeat split; try done. by repeat constructor.
        + exists []. by rewrite app_nil_r. }
    destruct (IH h1) as (l2 & Hp2 & He2 & Hl2 & Hr2 & Hf2 & Hc2).
    exists (l1 ++ l2). unfold print_progress.
    rewrite He2, He1, Hl2, Hr2, Hf2, Hc2, (assoc_L (++)).
    repeat split; try done. by apply Forall_app.
Qed.

(** *** The loop of [main] *)

Lemma extends_quietly_refl h : extends_quietly h h.
Proof. exists []. by rewrite app_nil_r. Qed.

Lemma extends_quietly_emit e h h1 :
  quiet e → extends_quietly h h1 → extends_quietly h (emit e h1).
Proof.
  intros Hq (evs & He & Hevs & Hl & Hr & Hf). exists (evs ++ [e]).
  unfold emit. simpl. rewrite He, (assoc_L (++)).
  repeat split; try done. apply Forall_app. split; [done|]. by constructor.
Qed.

Lemma extends_quietly_set_pc p h h1 :
  extends_quietly h h1 → extends_quietly h (set_pc p h1).
Proof. intros (evs & He & Hevs & Hl & Hr & Hf). by exists evs. Qed.

Lemma main_finish_spec h :
  ∃ evs,
    effects (main_finish cfg h) = effects h ++ evs
    ∧ Forall quiet evs
    ∧ launches (main_finish cfg h) = launches h
    ∧ running (main_finish cfg h) = running h
    ∧ failed (main_finish cfg h) = failed h
    ∧ pc (main_finish cfg h) = Done.
Proof.
  assert (extends_quietly h (main_finish cfg h)) as (evs & He & Hevs & Hl & Hr & Hf).
  { unfold main_finish. cbv zeta.
    apply extends_quietly_set_pc.
    unfold generateSettings.
    repeat (apply extends_quietly_emit; [done|]).
    match goal with
    | |- context [bool_decide ?P] => destruct (bool_decide P)
    end;
      repeat (apply extends_quietly_emit; [done|]);
      apply extends_quietly_refl. }
  exists evs. repeat split; done.
Qed.

Lemma quiet_free evs :
  Forall quiet evs →
  (∀ b e a, ∀ tr, evs = b ++ e :: a → justified (tr ++ b) e)
  ∧ Forall no_spawn evs.
Proof.
  intros Hq. split.
  - intros b e a tr ->. rewrite Forall_app, Forall_cons in Hq.
    destruct Hq as (_ & He & _). by destruct e as [| |[]| |].
  - eapply Forall_impl; [exact Hq|]. by intros [| |[]| |].
Qed.

Lemma main_loop_inv i h :
  0 ≤ i → (BATCH_SIZE | i) →
  length (launches h) = (Z.to_nat i `min` length (servers cfg))%nat →
  (∀ id, (id < length (launches h))%nat → is_settled h id = true) →
  base_inv cfg h →
  inv cfg (main_loop cfg i h).
Proof.
  intros Hi [q Hq] Hlen Hall Hbase.
  unfold main_loop.
  destruct (Z.ltb_spec i (Z.of_nat (length (servers cfg)))) as [Hlt|Hge].
  - destruct Hbase as [Hplan Hord Hsp Hst Hstd Hout Htot].
    set (batch := Js.arr_slice (servers cfg) i (i + BATCH_SIZE)).
    pose proof (launch_all_spec (plan_batch cfg i batch) h)
      as (Hl & He & Hr & Hf & Hp & Hids).
    destruct (launch_all cfg (plan_batch cfg i batch) h) as [h2 ids].
    simpl in Hl, He, Hr, Hf, Hp, Hids.
    assert (length (launches h) = Z.to_nat i) as Hn by lia.
    assert (length batch = (10 `min` (length (servers cfg) - Z.to_nat i))%nat) as Hb
      by (by apply arr_slice_batch_length).
    assert (length (plan_batch cfg i batch) = length batch) as Hpl
      by apply length_imap.
    assert (∀ j p, plan_batch cfg i batch !! j = Some p →
                   (j < 10)%nat
                   ∧ p.2 = BASE_PORT cfg + Z.of_nat (Z.to_nat i + j)
                   ∧ servers cfg !! (Z.to_nat i + j)%nat = Some p.1) as Hbatch.
    { intros j p Hj. unfold plan_batch in Hj. rewrite list_lookup_imap in Hj.
      destruct (batch !! j) as [s|] eqn:Eb; [|done]. injection Hj as <-.
      subst batch. rewrite arr_slice_batch in Eb by done.
      apply lookup_take_Some in Eb as [Eb ?]. rewrite lookup_drop in Eb.
      simpl. repeat split; [done|lia|done]. }
    assert (∀ id l, launches h2 !! id = Some l →
                    launches h !! id = Some l
                    ∨ ((Z.to_nat i ≤ id)%nat ∧ settled l = None)) as Hnew.
    { intros id l Hid. rewrite Hl in Hid.
      apply lookup_app_Some in Hid as [?|[Hge Hid]]; [by left|right].
      split; [lia|]. rewrite list_lookup_imap in Hid.
      destruct (_ !! _); [|done]. by injection Hid as <-. }
    split; [constructor|]; simpl.
    + intros k l Hk. rewrite Hl in Hk.
      apply lookup_app_Some in Hk as [Hk|[Hge Hk]]; [by apply Hplan|].
      rewrite list_lookup_imap in Hk.
      destruct (plan_batch cfg i batch !! _) as [p|] eqn:E; [|done].
      injection Hk as <-. apply Hbatch in E as (_ & Hport & Hsrv).
      rewrite Hn in Hport, Hsrv. simpl.
      replace (Z.to_nat i + (k - Z.to_nat i))%nat with k in Hport, Hsrv by lia.
      done.
    + rewrite He. apply ordered_app; [done|].
      intros b e a Heq.
      assert (imap (λ j, spawn_of cfg (length (launches h) + j)%nat)
                (plan_batch cfg i batch) !! length b = Some e) as Hlk
        by (rewrite Heq; by apply list_lookup_middle).
      rewrite list_lookup_imap in Hlk.
      destruct (plan_batch cfg i batch !! length b) as [p|] eqn:E; [|done].
      injection Hlk as <-. apply Hbatch in E as (Hj & _ & _).
      unfold spawn_of, justified. rewrite Hn. split.
      * intros id' Hg. unfold group at 2 in Hg.
        replace (Z.of_nat (Z.to_nat i + length b)) with (q * 10 + Z.of_nat (length b))
          in Hg by (unfold BATCH_SIZE in Hq; lia).
        rewrite group_offset in Hg by lia. apply group_below in Hg.
        destruct (Hst id') as [ok Hok].
        { apply Hall. unfold BATCH_SIZE in Hq. lia. }
        exists ok. apply elem_of_app. by left.
      * intros Hne Hg. destruct b as [|x b _] using rev_ind.
        { exfalso. simpl in Hne, Hg. rewrite Nat.add_0_r in Hne, Hg.
          unfold group in Hg. unfold BATCH_SIZE in Hq.
          replace (Z.of_nat (Z.to_nat i)) with (q * 10 + 0) in Hg by lia.
          replace (Z.of_nat (Z.to_nat i - 1)) with ((q - 1) * 10 + 9) in Hg by lia.
          rewrite !group_offset in Hg by lia. lia. }
        rewrite (assoc_L (++)), last_snoc.
        assert (imap (λ j, spawn_of cfg (length (launches h) + j)%nat)
                  (plan_batch cfg i batch) !! length b = Some x) as Hlx
          by (rewrite Heq, <- (assoc_L (++)); by apply list_lookup_middle).
        rewrite list_lookup_imap in Hlx.
        destruct (plan_batch cfg i batch !! length b) as [p'|]; [|done].
        injection Hlx as <-. unfold spawn_of. rewrite Hn.
        rewrite length_app. simpl.
        replace (Z.to_nat i + (length b + 1) - 1)%nat
          with (Z.to_nat i + length b)%nat by lia.
        eauto.
    + intros id a env Hin. rewrite He in Hin. rewrite Hl.
      apply elem_of_app in Hin as [Hin|Hin].
      * destruct (Hsp id a env Hin) as (l & Hlk & Heq).
        exists l. split; [|done]. by apply lookup_app_l_Some.
      * apply list_elem_of_lookup in Hin as [j Hj].
        rewrite list_lookup_imap in Hj.
        destruct (plan_batch cfg i batch !! j) as [p|] eqn:E; [|done].
        simpl in Hj. unfold spawn_of in Hj. injection Hj as <- <- <-.
        exists (new_launch cfg (length (launches h) + j) p). split.
        -- rewrite lookup_app_r by lia.
           replace (length (launches h) + j - length (launches h))%nat with j by lia.
           by rewrite list_lookup_imap, E.
        -- by destruct p.
    + intros id [l [Hid Hs]]%is_settled_lookup.
      destruct (Hnew id l Hid) as [Hold|[_ Hnone]].
      * destruct (Hst id) as [ok Hok].
        { apply is_settled_lookup. eauto. }
        exists ok. rewrite He. apply elem_of_app. by left.
      * rewrite Hnone in Hs. by destruct Hs.
    + intros id l Hid Hs.
      destruct (Hnew id l Hid) as [Hold|[_ Hnone]]; [by eapply Hstd|].
      rewrite Hnone in Hs. by destruct Hs.
    + intros id l Hid. unfold outcome_recorded. simpl. rewrite Hr, Hf.
      destruct (Hnew id l Hid) as [Hold|[_ Hnone]]; [by eapply Hout|].
      by rewrite Hnone.
    + rewrite Hr, Hf, Hl, settled_count_app, Htot.
      rewrite (settled_count_none (imap _ _)); [lia|].
      apply Forall_forall. intros l [j Hj]%list_elem_of_lookup.
      rewrite list_lookup_imap in Hj.
      destruct (_ !! _); [|done]. by injection Hj as <-.
    + unfold pc_inv. simpl. repeat split; try done.
      * by exists q.
      * rewrite Hids. by rewrite Hn, Hpl.
      * rewrite Hl, length_app, length_imap. lia.
      * intros id Hid. assert (is_settled h id = true) as Hs
          by (apply Hall; lia).
        apply is_settled_lookup in Hs as (l & Hlk & Hs).
        apply is_settled_lookup. exists l. split; [|done].
        simpl. rewrite Hl. by apply lookup_app_l_Some.
  - destruct (main_finish_spec h) as (evs & He & Hq' & Hl & Hr & Hf & Hp).
    destruct (quiet_free evs Hq') as [Hj Hns].
    split.
    + apply (base_inv_extend h _ evs); try done.
      intros b e a. apply Hj.
    + unfold pc_inv. rewrite Hp, Hl. split; [lia|].
      intros id Hid. specialize (Hall id Hid).
      unfold is_settled in *. by rewrite Hl.
Qed.

(** *** One turn of the event loop *)

Lemma handle_base_inv ev id l h :
  launches h !! id = Some l →
  base_inv cfg h →
  base_inv cfg (handle ev id l h)
  ∧ length (launches (handle ev id l h)) = length (launches h)
  ∧ (∀ id', is_settled h id' = true → is_settled (handle ev id l h) id' = true)
  ∧ pc (handle ev id l h) = pc h.
Proof.
  intros E [Hplan Hord Hsp Hst Hstd Hout Htot].
  destruct (handle_cases ev id l h E) as [Hp Hcases].
  assert (∀ l', plan_of l' = plan_of l →
                ∀ k l0, <[id := l']> (launches h) !! k = Some l0 →
                        l_port l0 = BASE_PORT cfg + Z.of_nat k
                        ∧ servers cfg !! k = Some (l_server l0)) as Hplan'.
  { intros l' Hpl k l0 Hk.
    apply list_lookup_insert_Some in Hk as [(<- & <- & _)|(_ & Hk)];
      [|by apply Hplan].
    injection Hpl as -> ->. by apply Hplan. }
  assert (∀ l' evs, plan_of l' = plan_of l → Forall no_spawn evs →
                    ∀ id' a env, Spawn id' a env ∈ effects h ++ evs →
                                 ∃ l0, <[id := l']> (launches h) !! id' = Some l0
                                       ∧ Spawn id' a env = spawn_of cfg id' (plan_of l0))
    as Hsp'.
  { intros l' evs Hpl Hns id' a env Hin.
    apply elem_of_app in Hin as [Hin|Hin].
    - destruct (Hsp id' a env Hin) as (l0 & Hlk & Heq).
      destruct (decide (id = id')) as [<-|Hne].
      + exists l'. split.
        * apply list_lookup_insert_Some. left. repeat split.
          by eapply lookup_lt_Some.
        * rewrite Hpl. congruence.
      + exists l0. split; [|done]. apply list_lookup_insert_Some. by right.
    - rewrite Forall_forall in Hns. by apply Hns in Hin. }
  assert (∀ l', (is_Some (settled l) → is_Some (settled l')) →
                ∀ id', is_settled h id' = true →
                       ∃ l0, <[id := l']> (launches h) !! id' = Some l0
                             ∧ is_Some (settled l0)) as Hmono.
  { intros l' Hk id' (l0 & Hlk & Hs)%is_settled_lookup.
    destruct (decide (id = id')) as [<-|Hne].
    - exists l'. split.
      + apply list_lookup_insert_Some. left. repeat split.
        by eapply lookup_lt_Some.
      + apply Hk. congruence.
    - exists l0. split; [|done]. apply list_lookup_insert_Some. by right. }
  destruct Hcases
    as [(l' & evs & Hl & Hpl & Hpid & Hs & Hstd' & He & Hevs & _ & Hr & Hf)
       |(Hst0 & ok & err & Hl & He & Hr & Hf)].
  - (* nothing settles *)
    assert (Forall no_spawn evs) as Hns
      by (eapply Forall_impl; [exact Hevs|]; by intros []).
    split; [constructor|split; [by rewrite Hl, length_insert|split; [|done]]].
    + rewrite Hl. by apply Hplan'.
    + rewrite He. apply ordered_app_free; [done|].
      eapply Forall_impl; [exact Hevs|]. by intros [].
    + rewrite He, Hl. by apply Hsp'.
    + intros id' (l0 & Hk & Hs0)%is_settled_lookup. rewrite Hl in Hk.
      destruct (Hst id') as [ok Hok].
      { apply is_settled_lookup.
        apply list_lookup_insert_Some in Hk as [(<- & <- & _)|(_ & Hk)].
        - exists l. by rewrite <- Hs.
        - eauto. }
      exists ok. rewrite He. apply elem_of_app. by left.
    + intros id' l0 Hk Hs0. rewrite Hl in Hk.
      apply list_lookup_insert_Some in Hk as [(<- & <- & _)|(_ & Hk)];
        [|by eapply Hstd].
      apply Hstd'. apply (Hstd id l E). by rewrite <- Hs.
    + intros id' l0 Hk. rewrite Hl in Hk.
      unfold outcome_recorded. rewrite Hr, Hf.
      apply list_lookup_insert_Some in Hk as [(<- & <- & _)|(_ & Hk)];
        [|by eapply Hout].
      injection Hpl as -> ->. rewrite Hs, Hpid. by apply (Hout id l E).
    + rewrite Hr, Hf, Hl, Htot. symmetry.
      by apply (settled_count_insert_same _ id l).
    + intros id' Hs0. apply is_settled_lookup. rewrite Hl.
      apply Hmono; [|done]. by rewrite Hs.
  - (* the race resolves *)
    assert (settled l = None) as Hnone.
    { destruct (settled l) as [b|] eqn:Es; [|done].
      assert (started l = true) as Ht by (apply (Hstd id l E); by rewrite Es).
      congruence. }
    set (l' := settle ok (disarm (mark_started l))) in *.
    assert (settled l' = Some ok) as Hs' by (subst l'; simpl; by rewrite Hnone).
    assert (plan_of l' = plan_of l) as Hpl by done.
    split; [constructor|split; [by rewrite Hl, length_insert|split; [|done]]].
    + rewrite Hl. by apply Hplan'.
    + rewrite He. apply ordered_app_free; [done|]. by repeat constructor.
    + rewrite He, Hl. apply Hsp'; [done|]. by repeat constructor.
    + intros id' (l0 & Hk & Hs0)%is_settled_lookup. rewrite Hl in Hk. rewrite He.
      apply list_lookup_insert_Some in Hk as [(<- & <- & _)|(_ & Hk)].
      * exists ok. apply elem_of_app. right. by left.
      * destruct (Hst id') as [ok' Hok].
        { apply is_settled_lookup. eauto. }
        exists ok'. apply elem_of_app. by left.
    + intros id' l0 Hk Hs0. rewrite Hl in Hk.
      apply list_lookup_insert_Some in Hk as [(<- & <- & _)|(_ & Hk)];
        [done|by eapply Hstd].
    + intros id' l0 Hk. rewrite Hl in Hk.
      unfold outcome_recorded. rewrite Hr, Hf.
      apply list_lookup_insert_Some in Hk as [(<- & <- & _)|(_ & Hk)].
      * rewrite Hs'. destruct ok.
        -- apply elem_of_app. right. by left.
        -- exists err. apply elem_of_app. right. by left.
      * specialize (Hout id' l0 Hk). unfold outcome_recorded in Hout.
        destruct (settled l0) as [[]|]; [| |done].
        -- apply elem_of_app. by left.
        -- destruct Hout as [err' Herr]. exists err'. apply elem_of_app. by left.
    + rewrite Hr, Hf, Hl, !length_app.
      rewrite (settled_count_insert_new _ id l) by (done || by rewrite Hs').
      rewrite <- Htot. destruct ok; simpl; lia.
    + intros id' Hs0. apply is_settled_lookup. rewrite Hl.
      apply Hmono; [|done]. rewrite Hnone. by intros [? [=]].
Qed.

Lemma resume_main_inv h : inv cfg h → inv cfg (resume_main cfg h).
Proof.
  intros [Hb Hpc]. unfold resume_main. unfold pc_inv in Hpc.
  destruct (pc h) as [i batch promises|] eqn:Epc;
    [|split; [done|by unfold pc_inv; rewrite Epc]].
  destruct (forallb (is_settled h) promises) eqn:Fall;
    [|split; [done|by unfold pc_inv; rewrite Epc]].
  destruct Hpc as (Hi & Hdiv & Hlt & Hbatch & Hprom & Hlen & Hearlier).
  destruct (print_progress_spec batch h)
    as (lines & Hlines & He & Hl & Hr & Hf & Hp).
  assert (length batch = (10 `min` (length (servers cfg) - Z.to_nat i))%nat) as Hbl
    by (subst batch; by apply arr_slice_batch_length).
  assert (∀ id, (id < length (launches h))%nat → is_settled h id = true) as Hall.
  { intros id Hid. destruct (decide (id < Z.to_nat i)%nat); [by apply Hearlier|].
    rewrite forallb_forall in Fall. apply Fall.
    apply list_elem_of_In. subst promises. apply elem_of_seq. lia. }
  apply main_loop_inv.
  - unfold BATCH_SIZE. lia.
  - apply Z.divide_add_r; [done|]. by exists 1.
  - rewrite Hl, Hlen. unfold BATCH_SIZE. lia.
  - intros id Hid. rewrite Hl in Hid. specialize (Hall id Hid).
    unfold is_settled in *. by rewrite Hl.
  - apply (base_inv_extend h _ lines); try done.
    + intros b e a ->. rewrite Forall_app, Forall_cons in Hlines.
      destruct Hlines as (Hb' & Hpe & _).
      destruct Hb as [_ _ Hsp Hst _ _ _].
      assert (∀ id x env, Spawn id x env ∈ effects h ++ b →
                          ∃ ok, Settle id ok ∈ effects h ++ b) as Hj.
      { intros id x env Hin. apply elem_of_app in Hin as [Hin|Hin].
        - destruct (Hsp id x env Hin) as (l & Hlk & _).
          destruct (Hst id) as [ok Hok].
          { apply Hall. by eapply lookup_lt_Some. }
          exists ok. apply elem_of_app. by left.
        - rewrite Forall_forall in Hb'. by apply Hb' in Hin. }
      destruct e as [| |[]| |]; done.
    + eapply Forall_impl; [exact Hlines|]. by intros [| |[]| |].
Qed.

Lemma deliver_inv h de : inv cfg h → inv cfg (deliver cfg h de).
Proof.
  intros [Hb Hpc]. unfold deliver.
  destruct (launches h !! de.1) as [l|] eqn:E; [|done].
  destruct (handle_base_inv de.2 de.1 l h E Hb) as (Hb' & Hlen & Hmono & Hp).
  assert (inv cfg (handle de.2 de.1 l h)) as Hinv.
  { split; [done|]. unfold pc_inv in *. rewrite Hp.
    destruct (pc h) as [i batch promises|];
      [|destruct Hpc as [Hn Hall]; rewrite Hlen; split; [done|];
        intros id Hid; by apply Hmono, Hall].
    destruct Hpc as (? & ? & ? & ? & ? & ? & Hearlier).
    repeat split; try done; [congruence|].
    intros id Hid. by apply Hmono, Hearlier. }
  destruct (_ && _); [by apply resume_main_inv|done].
Qed.

Lemma main_start_inv : inv cfg (main_start cfg).
Proof.
  unfold main_start. apply main_loop_inv; simpl; try done.
  - by exists 0.
  - intros id Hid. lia.
  - constructor; simpl.
    + intros k l Hk. by rewrite lookup_nil in Hk.
    + apply (ordered_app_free []); [apply ordered_nil|]. by repeat constructor.
    + intros id a env Hin. exfalso.
      repeat (apply elem_of_cons in Hin as [?|Hin]; [done|]).
      by apply elem_of_nil in Hin.
    + intros id Hs. by unfold is_settled in Hs.
    + intros id l Hk. by rewrite lookup_nil in Hk.
    + intros id l Hk. by rewrite lookup_nil in Hk.
    + done.
Qed.

Lemma run_from_inv sched h : inv cfg h → inv cfg (foldl (deliver cfg) h sched).
Proof.
  revert h. induction sched as [|de sched IH]; intros h Hinv; [done|].
  simpl. by apply IH, deliver_inv.
Qed.

Lemma run_inv sched : inv cfg (run cfg sched).
Proof. apply run_from_inv, main_start_inv. Qed.

(** *** The plan of the batch loop *)

Lemma full_plan_lookup k :
  full_plan cfg !! k
  = (λ s, (s, BASE_PORT cfg + Z.of_nat k)) <$> servers cfg !! k.
Proof. unfold full_plan. apply list_lookup_imap. Qed.

Lemma full_plan_length : length (full_plan cfg) = length (servers cfg).
Proof. apply length_imap. Qed.

Lemma plan_batch_take i :
  0 ≤ i →
  plan_batch cfg i (Js.arr_slice (servers cfg) i (i + BATCH_SIZE))
  = take 10 (drop (Z.to_nat i) (full_plan cfg)).
Proof.
  intros Hi. rewrite arr_slice_batch by done. apply list_eq. intros j.
  unfold plan_batch. rewrite list_lookup_imap, !lookup_take.
  destruct (decide (j < 10)%nat); [|done].
  rewrite !lookup_drop, full_plan_lookup.
  destruct (servers cfg !! (Z.to_nat i + j)%nat); [|done].
  simpl. do 2 f_equal. lia.
Qed.

Lemma batches_from_lookup fuel i b :
  0 ≤ i →
  batches_from cfg fuel i !! b
  = if decide (b < fuel ∧ Z.to_nat i + b * 10 < length (servers cfg))%nat
    then Some (take 10 (drop (Z.to_nat i + b * 10) (full_plan cfg)))
    else None.
Proof.
  revert i b. induction fuel as [|fuel IH]; intros i b Hi.
  - cbn [batches_from]. rewrite lookup_nil. case_decide; [lia|done].
  - cbn [batches_from].
    destruct (Z.ltb_spec i (Z.of_nat (length (servers cfg)))) as [Hlt|Hge].
    + destruct b as [|b].
      * rewrite decide_True by lia. rewrite Nat.add_0_r.
        rewrite <- plan_batch_take by done. done.
      * etrans; [apply (IH (i + BATCH_SIZE) b); unfold BATCH_SIZE; lia|].
        unfold BATCH_SIZE. repeat case_decide; try done; try lia.
        do 3 f_equal. lia.
    + rewrite lookup_nil. case_decide; [lia|done].
Qed.

Lemma launch_plan_lookup b :
  launch_plan cfg !! b
  = if decide (b * 10 < length (servers cfg))%nat
    then Some (take 10 (drop (b * 10) (full_plan cfg)))
    else None.
Proof.
  unfold launch_plan. rewrite batches_from_lookup by done.
  change (Z.to_nat 0) with 0%nat. rewrite Nat.add_0_l.
  repeat case_decide; try done; lia.
Qed.

Lemma batches_from_concat fuel i :
  0 ≤ i → (length (servers cfg) - Z.to_nat i ≤ fuel)%nat →
  concat (batches_from cfg fuel i) = drop (Z.to_nat i) (full_plan cfg).
Proof.
  revert i. induction fuel as [|fuel IH]; intros i Hi Hfuel.
  - simpl. rewrite drop_ge; [done|]. rewrite full_plan_length. lia.
  - simpl. destruct (Z.ltb_spec i (Z.of_nat (length (servers cfg)))) as [Hlt|Hge].
    + simpl. rewrite plan_batch_take by done.
      rewrite IH by (unfold BATCH_SIZE; lia).
      replace (Z.to_nat (i + BATCH_SIZE)) with (Z.to_nat i + 10)%nat
        by (unfold BATCH_SIZE; lia).
      rewrite <- drop_drop. apply take_drop.
    + simpl. rewrite drop_ge; [done|]. rewrite full_plan_length. lia.
Qed.

Lemma launch_plan_concat : concat (launch_plan cfg) = full_plan cfg.
Proof.
  unfold launch_plan. rewrite batches_from_concat by (done || simpl; lia).
  done.
Qed.

(** More fuel than the number of descriptors changes nothing: the loop has
    ended by then. *)
Lemma batches_from_enough_fuel fuel :
  (length (servers cfg) ≤ fuel)%nat →
  batches_from cfg fuel 0 = launch_plan cfg.
Proof.
  intros Hfuel. apply list_eq. intros b.
  rewrite launch_plan_lookup, batches_from_lookup by done.
  change (Z.to_nat 0) with 0%nat. rewrite Nat.add_0_l.
  repeat case_decide; try done; lia.
Qed.


(** *** Ports *)




(** *** Batches *)

Lemma list_of_three {A} (l : list A) a b c :
  l !! 0%nat = Some a → l !! 1%nat = Some b → l !! 2%nat = Some c →
  l !! 3%nat = None → l = [a; b; c].
Proof.
  destruct l as [|? [|? [|? [|? ?]]]]; simpl; intros; simplify_eq; done.
Qed.

(** C4. The loop cuts the selected list into consecutive groups: group [b]
    is the ten plan entries from index [10 * b] on (fewer at the end of the
    list), and the groups laid end to end are the whole plan; 25
    descriptors give groups of 10, 10 and 5. For every schedule of child
    events and every [spawn] in the run: every launch of an earlier group
    has settled before it, and unless it is the first of its group it
    directly follows the [spawn] of its predecessor, so the launches of a
    group are all started before anything is awaited. Every progress line
    comes after the settlement of every launch spawned before it. *)
Theorem batches_run_one_after_another :
  (∀ b, launch_plan cfg !! b
        = if decide (b * 10 < length (servers cfg))%nat
          then Some (take 10 (drop (b * 10) (full_plan cfg)))
          else None)
  ∧ concat (launch_plan cfg) = full_plan cfg
  ∧ (length (servers cfg) = 25%nat →
     length <$> launch_plan cfg = [10; 10; 5]%nat)
  ∧ (∀ sched before id a env after,
       effects (run cfg sched) = before ++ Spawn id a env :: after →
       (∀ id', group id' < group id → ∃ ok, Settle id' ok ∈ before)
       ∧ (id ≠ 0%nat → group (id - 1) = group id →
          ∃ a' env', last before = Some (Spawn (id - 1) a' env')))
  ∧ (∀ sched before m after,
       effects (run cfg sched) = before ++ ConsoleLog m :: after →
       is_progress (ConsoleLog m) →
       ∀ id a env, Spawn id a env ∈ before → ∃ ok, Settle id ok ∈ before).
Proof.
  split; [apply launch_plan_lookup|].
  split; [apply launch_plan_concat|].
  split.
  { intros H25.
    rewrite (list_of_three (launch_plan cfg)
               (take 10 (drop 0 (full_plan cfg)))
               (take 10 (drop 10 (full_plan cfg)))
               (take 10 (drop 20 (full_plan cfg)))).
    - simpl. rewrite !length_take, !length_drop, full_plan_length, H25. done.
    - rewrite launch_plan_lookup, decide_True by lia. done.
    - rewrite launch_plan_lookup, decide_True by lia. done.
    - rewrite launch_plan_lookup, decide_True by lia. done.
    - rewrite launch_plan_lookup, decide_False by lia. done. }
  split.
  - intros sched before id a env after Heq.
    destruct (run_inv sched) as [[_ Hord _ _ _ _ _] _].
    apply (Hord before (Spawn id a env) after Heq).
  - intros sched before m after Heq Hm.
    destruct (run_inv sched) as [[_ Hord _ _ _ _ _] _].
    specialize (Hord before (ConsoleLog m) after Heq).
    by destruct m.
Qed.

(** *** The startup race *)

(** Once a launch is marked as started without being settled, no event of
    that child settles it or records an outcome. *)
Lemma unsettled_launch_stays h id l (evs : list child_event) :
  launches h !! id = Some l → started l = true → settled l = None →
  running (foldl (deliver cfg) h ((λ ev, (id, ev)) <$> evs)) = running h
  ∧ failed (foldl (deliver cfg) h ((λ ev, (id, ev)) <$> evs)) = failed h
  ∧ pc (foldl (deliver cfg) h ((λ ev, (id, ev)) <$> evs)) = pc h
  ∧ is_settled (foldl (deliver cfg) h ((λ ev, (id, ev)) <$> evs)) id = false.
Proof.
  revert h l. induction evs as [|ev evs IH]; intros h l Hl Hst Hs.
  - simpl. repeat split; try done. unfold is_settled. by rewrite Hl, Hs.
  - destruct (handle_cases ev id l h Hl) as [Hp Hcases].
    destruct Hcases
      as [(l' & evs' & Hl' & _ & _ & Hs' & Hstd' & _ & _ & _ & Hr & Hf)
         |(Hst0 & _)]; [|congruence].
    assert (launches (handle ev id l h) !! id = Some l') as Hlk.
    { rewrite Hl'. apply list_lookup_insert_Some. left. repeat split.
      by eapply lookup_lt_Some. }
    assert (is_settled (handle ev id l h) id = false) as Hns
      by (unfold is_settled; by rewrite Hlk, Hs', Hs).
    assert (deliver cfg h (id, ev) = handle ev id l h) as Hd.
    { unfold deliver. simpl. by rewrite Hl, Hns, andb_false_r. }
    rewrite fmap_cons. cbn [foldl]. rewrite Hd.
    destruct (IH (handle ev id l h) l' Hlk (Hstd' Hst) (eq_trans Hs' Hs))
      as (Hr2 & Hf2 & Hp2 & Hs2).
    rewrite Hr2, Hf2, Hp2, Hs2. repeat split; congruence.
Qed.

(** A launch of the awaited batch that is marked as started without being
    settled keeps [main] suspended, whatever the children do afterwards. *)
Lemma unsettled_launch_blocks_main h id i batch promises
    (sched : list (nat * child_event)) :
  pc h = Awaiting i batch promises → id ∈ promises →
  (∃ l, launches h !! id = Some l ∧ started l = true ∧ settled l = None) →
  pc (foldl (deliver cfg) h sched) = Awaiting i batch promises
  ∧ ∃ l, launches (foldl (deliver cfg) h sched) !! id = Some l
         ∧ started l = true ∧ settled l = None.
Proof.
  revert h. induction sched as [|[id' ev] sched IH]; intros h Hpc Hin Hstuck.
  - simpl. eauto.
  - destruct Hstuck as (l & Hl & Hst & Hs).
    assert (pc (deliver cfg h (id', ev)) = Awaiting i batch promises
            ∧ ∃ l', launches (deliver cfg h (id', ev)) !! id = Some l'
                    ∧ started l' = true ∧ settled l' = None) as [Hpc' Hstuck'].
    { unfold deliver. simpl.
      destruct (launches h !! id') as [l0|] eqn:E; [|by eauto].
      destruct (handle_cases ev id' l0 h E) as [Hp Hcases].
      assert (∃ l', launches (handle ev id' l0 h) !! id = Some l'
                    ∧ started l' = true ∧ settled l' = None) as Hkeep.
      { destruct (decide (id' = id)) as [->|Hne].
        - rewrite Hl in E. injection E as <-.
          destruct Hcases
            as [(l' & evs & Hl' & _ & _ & Hs' & Hstd' & _)|(Hst0 & _)];
            [|congruence].
          exists l'. rewrite Hl'. split.
          + apply list_lookup_insert_Some. left. repeat split.
            by eapply lookup_lt_Some.
          + split; [by apply Hstd'|congruence].
        - exists l.
          destruct Hcases as [(l' & evs & Hl' & _)|(_ & ok & err & Hl' & _)];
            rewrite Hl'; (split; [|done]);
            apply list_lookup_insert_Some; by right. }
      destruct (_ && _); [|split; [congruence|done]].
      unfold resume_main. rewrite Hp, Hpc.
      assert (forallb (is_settled (handle ev id' l0 h)) promises = false) as ->.
      { apply not_true_iff_false. rewrite forallb_forall. intros Hall.
        specialize (Hall id (proj1 (list_elem_of_In _ _) Hin)).
        destruct Hkeep as (l' & Hl' & _ & Hs').
        unfold is_settled in Hall. rewrite Hl', Hs' in Hall.
        by apply bool_decide_eq_true in Hall as [? [=]]. }
      split; [congruence|done]. }
    simpl. by apply IH.
Qed.

(** C1 (the code at the failing input). When a child whose race is still
    open exits with code 0, the callback records nothing: [running],
    [failed] and the effects are as before and the promise of the launch is
    not settled; no later event of that child settles it or records an
    outcome; and whatever any child does afterwards, [main] stays suspended
    where it was and the launch stays unsettled. *)
Theorem clean_early_exit_records_nothing
    (sched : list (nat * child_event)) (id : nat) (l : launch)
    (later : list child_event) :
  launches (run cfg sched) !! id = Some l → started l = false →
  running (deliver cfg (run cfg sched) (id, Exit (Some 0)))
  = running (run cfg sched)
  ∧ failed (deliver cfg (run cfg sched) (id, Exit (Some 0)))
    = failed (run cfg sched)
  ∧ effects (deliver cfg (run cfg sched) (id, Exit (Some 0)))
    = effects (run cfg sched)
  ∧ is_settled (deliver cfg (run cfg sched) (id, Exit (Some 0))) id = false
  ∧ running (run cfg (sched ++ (id, Exit (Some 0)) :: ((λ ev, (id, ev)) <$> later)))
    = running (run cfg sched)
  ∧ failed (run cfg (sched ++ (id, Exit (Some 0)) :: ((λ ev, (id, ev)) <$> later)))
    = failed (run cfg sched)
  ∧ pc (run cfg (sched ++ (id, Exit (Some 0)) :: ((λ ev, (id, ev)) <$> later)))
    = pc (run cfg sched)
  ∧ is_settled
      (run cfg (sched ++ (id, Exit (Some 0)) :: ((λ ev, (id, ev)) <$> later))) id
    = false
  ∧ (∀ rest : list (nat * child_event),
       pc (run cfg (sched ++ (id, Exit (Some 0)) :: rest)) = pc (run cfg sched)
       ∧ is_settled (run cfg (sched ++ (id, Exit (Some 0)) :: rest)) id = false).
Proof.
  intros Hl Hst.
  destruct (run_inv sched) as [[_ _ _ _ Hstd _ _] Hpc].
  assert (settled l = None) as Hs.
  { destruct (settled l) as [b|] eqn:Es; [|done].
    assert (started l = true) by (apply (Hstd id l Hl); by rewrite Es).
    congruence. }
  set (h := run cfg sched) in *.
  set (l1 := disarm (mark_started l)).
  assert (deliver cfg h (id, Exit (Some 0)) = set_launch id l1 h) as Hd.
  { unfold deliver. simpl. rewrite Hl. unfold on_exit. rewrite Hst. simpl.
    fold l1.
    assert (is_settled (set_launch id l1 h) id = false) as ->; [|by rewrite andb_false_r].
    unfold is_settled. simpl.
    rewrite (proj2 (list_lookup_insert_Some (launches h) id l1 id l1)).
    - subst l1. simpl. by rewrite Hs.
    - left. repeat split. by eapply lookup_lt_Some. }
  assert (launches (set_launch id l1 h) !! id = Some l1) as Hl1.
  { simpl. apply list_lookup_insert_Some. left. repeat split.
    by eapply lookup_lt_Some. }
  destruct (unsettled_launch_stays (set_launch id l1 h) id l1 later Hl1 eq_refl Hs)
    as (Hr & Hf & Hp & Hns).
  assert (run cfg (sched ++ (id, Exit (Some 0)) :: ((λ ev, (id, ev)) <$> later))
          = foldl (deliver cfg) (set_launch id l1 h) ((λ ev, (id, ev)) <$> later))
    as Hrun.
  { unfold run. rewrite foldl_app. cbn [foldl]. fold (run cfg sched). fold h.
    by rewrite Hd. }
  assert (is_settled (set_launch id l1 h) id = false) as Hns1
    by (unfold is_settled; rewrite Hl1; subst l1; simpl; by rewrite Hs).
  rewrite Hd, Hrun, Hr, Hf, Hp, Hns.
  do 8 (split; [done|]).
  intros rest. unfold run. rewrite foldl_app. cbn [foldl].
  fold (run cfg sched). fold h. rewrite Hd.
  assert (is_settled h id = false) as Hunset
    by (unfold is_settled; by rewrite Hl, Hs).
  unfold pc_inv in Hpc. fold h in Hpc.
  destruct (pc h) as [i batch promises|] eqn:Epc.
  - destruct Hpc as (_ & _ & _ & _ & Hprom & Hlen & Hearlier).
    assert (id ∈ promises) as Hin.
    { subst promises. apply elem_of_seq.
      assert (id < length (launches h))%nat by (by eapply lookup_lt_Some).
      destruct (decide (id < Z.to_nat i)%nat) as [Hlt|]; [|lia].
      rewrite (Hearlier id Hlt) in Hunset. done. }
    destruct (unsettled_launch_blocks_main (set_launch id l1 h) id i batch
                promises rest Epc Hin) as [Hpc' (l' & Hl' & _ & Hs')];
      [by exists l1|].
    split; [done|]. unfold is_settled. by rewrite Hl', Hs'.
  - exfalso. destruct Hpc as [_ Hall].
    rewrite (Hall id) in Hunset; [done|]. by eapply lookup_lt_Some.
Qed.

(** No launch has two outcomes: in every run the number of recorded outcomes
    is the number of launches whose race has resolved, and each of those has
    its entry. *)
Lemma outcomes_match_settled_launches (sched : list (nat * child_event)) :
  (length (running (run cfg sched)) + length (failed (run cfg sched)))%nat
  = settled_count (launches (run cfg sched))
  ∧ (∀ id l, launches (run cfg sched) !! id = Some l →
             outcome_recorded (run cfg sched) l).
Proof.
  destruct (run_inv sched) as [[_ _ _ _ _ Hout Htot] _]. done.
Qed.

(** C8. After a launch has been recorded as [Running] (its promise was
    resolved with [true]), an exit of that child leaves [running], [failed],
    the launches and the position of [main] as they are, and the entry of
    the launch is still in [running]; the exit only adds lines on
    [console.error], the first of which is the [DIED] line. The summary and
    the settings computed from [running] are therefore the same. *)
Theorem late_exit_keeps_outcome
    (sched : list (nat * child_event)) (id : nat) (l : launch)
    (code : option Z) :
  launches (run cfg sched) !! id = Some l → settled l = Some true →
  Running (srv_name (l_server l)) (l_port l) (l_pid l) ∈ running (run cfg sched)
  ∧ running (deliver cfg (run cfg sched) (id, Exit code)) = running (run cfg sched)
  ∧ failed (deliver cfg (run cfg sched) (id, Exit code)) = failed (run cfg sched)
  ∧ launches (deliver cfg (run cfg sched) (id, Exit code))
    = launches (run cfg sched)
  ∧ pc (deliver cfg (run cfg sched) (id, Exit code)) = pc (run cfg sched)
  ∧ (∃ lines,
       effects (deliver cfg (run cfg sched) (id, Exit code))
       = effects (run cfg sched)
         ++ ConsoleError (MDied (srv_name (l_server l)) (l_port l) code) :: lines
       ∧ Forall is_console_error lines)
  ∧ MStarted (length (running (deliver cfg (run cfg sched) (id, Exit code))))
      (length (servers cfg))
    = MStarted (length (running (run cfg sched))) (length (servers cfg))
  ∧ build_mcpServers (PUBLIC_HOST cfg)
      (settings_entries cfg
         (Some (running (deliver cfg (run cfg sched) (id, Exit code)))))
    = build_mcpServers (PUBLIC_HOST cfg)
        (settings_entries cfg (Some (running (run cfg sched)))).
Proof.
  intros Hl Hs.
  destruct (run_inv sched) as [[_ _ _ _ Hstd Hout _] _].
  assert (started l = true) as Hst by (apply (Hstd id l Hl); by rewrite Hs).
  split.
  { specialize (Hout id l Hl). unfold outcome_recorded in Hout.
    by rewrite Hs in Hout. }
  set (h := run cfg sched) in *.
  assert (is_settled h id = true) as Hset
    by (apply is_settled_lookup; exists l; by rewrite Hs).
  unfold deliver. simpl. rewrite Hl, Hset. simpl.
  unfold on_exit. rewrite Hst. simpl.
  case_match; simpl; repeat split; try done.
  - eexists [_]. split; [by rewrite <- (assoc_L (++))|]. by repeat constructor.
  - by exists [].
Qed.

(** *** Duplicate names *)


End LauncherFacts.

Section SettingsFacts.

Import Launcher.

(** In [mcpServers] the last entry of a name wins. *)
Lemma build_mcpServers_lookup host (entries : list (string * Z)) name :
  build_mcpServers host entries !! name
  = (λ e, endpoint_url host e.2) <$> last (filter (λ e, e.1 = name) entries).
Proof.
  unfold build_mcpServers.
  induction entries as [|e entries IH] using rev_ind; [done|].
  rewrite foldl_snoc, filter_app.
  destruct (decide (e.1 = name)) as [He|He].
  - rewrite filter_cons_True by done. rewrite filter_nil, last_snoc.
    rewrite He. by rewrite lookup_insert_eq.
  - rewrite filter_cons_False by done. rewrite filter_nil, app_nil_r.
    by rewrite lookup_insert_ne.
Qed.



End SettingsFacts.

(* ------------------------------------------------------------------------- *)
(** ** The scenarios *)

Section ScenarioFacts.

Import Launcher Scenarios.

(** C2 (the code at the failing input). In the scenario of §8, [a] exits
    with code 0 before its timer: three descriptors are launched and two
    outcomes are recorded; the launch of [a] is marked as started, its
    timer is cleared and its promise is never settled, so [main] is still
    waiting for the first batch and has printed no progress line. *)
Theorem clean_exit_leaves_launch_without_outcome :
  length (launches (run abc_cfg abc_sched)) = 3%nat
  ∧ running (run abc_cfg abc_sched) = [Running "b" 4001 (Some 1001)]
  ∧ failed (run abc_cfg abc_sched) = [Failed "c" "exit code 1"]
  ∧ ((λ l, (started l, timer_armed l, settled l))
       <$> launches (run abc_cfg abc_sched) !! 0%nat)
    = Some (true, false, None)
  ∧ pc (run abc_cfg abc_sched) = Awaiting 0 abc [0; 1; 2]%nat
  ∧ drop 9 (effects (run abc_cfg abc_sched)) = [Settle 2 false; Settle 1 true].
Proof. repeat split; vm_compute; reflexivity. Qed.

(** Witness of C1: [a] of the scenario exits with code 0 at once. *)
Lemma clean_early_exit_records_nothing_witness :
  started (new_launch abc_cfg 0 (Server "a" "true" [] None, 4000)) = false
  ∧ failed (run abc_cfg ([] ++ (0%nat, Exit (Some 0))
                            :: ((λ ev, (0%nat, ev)) <$> [Timeout; Exit (Some 0)])))
    = failed (run abc_cfg [])
  ∧ is_settled
      (run abc_cfg ([] ++ (0%nat, Exit (Some 0))
                       :: ((λ ev, (0%nat, ev)) <$> [Timeout; Exit (Some 0)])))
      0
    = false.
Proof.
  split; [reflexivity|].
  pose proof (clean_early_exit_records_nothing abc_cfg [] 0
                (new_launch abc_cfg 0 (Server "a" "true" [] None, 4000))
                [Timeout; Exit (Some 0)] eq_refl eq_refl)
    as (_ & _ & _ & _ & _ & Hf & _ & Hs & _).
  split; [exact Hf|exact Hs].
Defined.

(** Witness of C8: [b] of the scenario is killed after its timer fired. *)
Lemma late_exit_keeps_outcome_witness :
  (settled <$> launches (run abc_cfg [(1%nat, Timeout)]) !! 1%nat) = Some (Some true)
  ∧ running (deliver abc_cfg (run abc_cfg [(1%nat, Timeout)]) (1%nat, Exit (Some 137)))
    = running (run abc_cfg [(1%nat, Timeout)]).
Proof.
  split; [vm_compute; reflexivity|].
  pose proof (late_exit_keeps_outcome abc_cfg [(1%nat, Timeout)] 1
                (settle true
                   (mark_started
                      (disarm (new_launch abc_cfg 1
                                 (Server "b" "sleep" ["999"%string] None, 4001)))))
                (Some 137) eq_refl eq_refl)
    as (_ & Hr & _).
  exact Hr.
Defined.

(** The scenario of twenty-five descriptors, run to its end: ten launches
    are spawned and settle, then ten more, then five, and [main] returns with
    twenty-five entries in [running]. *)
Example twenty_five_in_three_batches :
  omap spawn_or_settle (effects (run twenty_five_cfg twenty_five_sched))
  = (inl <$> seq 0 10) ++ (inr <$> seq 0 10)
    ++ (inl <$> seq 10 10) ++ (inr <$> seq 10 10)
    ++ (inl <$> seq 20 5) ++ (inr <$> seq 20 5)
  ∧ pc (run twenty_five_cfg twenty_five_sched) = Done
  ∧ length (running (run twenty_five_cfg twenty_five_sched)) = 25%nat.
Proof. repeat split; vm_compute; reflexivity. Qed.

(** Witness of C4: twenty-five descriptors give groups of 10, 10 and 5, and
    the first launch of the third group is spawned after the twenty launches
    of the first two groups have settled. *)
Lemma batches_run_one_after_another_witness :
  length (servers twenty_five_cfg) = 25%nat
  ∧ length <$> launch_plan twenty_five_cfg = [10; 10; 5]%nat
  ∧ effects (run twenty_five_cfg twenty_five_sched)
    = take 66 (effects (run twenty_five_cfg twenty_five_sched))
      ++ spawn_of twenty_five_cfg 20 (Server "s20" "npx" [] None, 3190)
      :: drop 67 (effects (run twenty_five_cfg twenty_five_sched))
  ∧ (∀ id', group id' < group 20 →
            ∃ ok, Settle id' ok
                    ∈ take 66 (effects (run twenty_five_cfg twenty_five_sched))).
Proof.
  assert (effects (run twenty_five_cfg twenty_five_sched)
          = take 66 (effects (run twenty_five_cfg twenty_five_sched))
            ++ spawn_of twenty_five_cfg 20 (Server "s20" "npx" [] None, 3190)
            :: drop 67 (effects (run twenty_five_cfg twenty_five_sched))) as Heq
    by (vm_compute; reflexivity).
  pose proof (batches_run_one_after_another twenty_five_cfg)
    as (_ & _ & Hsizes & Hspawn & _).
  split; [reflexivity|].
  split; [exact (Hsizes eq_refl)|].
  split; [exact Heq|].
  exact (proj1 (Hspawn twenty_five_sched _ 20%nat _ _ _ Heq)).
Defined.

End ScenarioFacts.

(* ------------------------------------------------------------------------- *)
(** ** The shape of the steps of a run *)

Section StepFacts.

Import Launcher Report.

Variable cfg : config.

Lemma main_loop_cases i h :
  (i < Z.of_nat (length (servers cfg))
   ∧ main_loop cfg i h
     = set_pc
         (Awaiting i (Js.arr_slice (servers cfg) i (i + BATCH_SIZE))
            (launch_all cfg
               (plan_batch cfg i (Js.arr_slice (servers cfg) i (i + BATCH_SIZE)))
               h).2)
         (launch_all cfg
            (plan_batch cfg i (Js.arr_slice (servers cfg) i (i + BATCH_SIZE)))
            h).1)
  ∨ (Z.of_nat (length (servers cfg)) ≤ i
     ∧ main_loop cfg i h = main_finish cfg h).
Proof.
  unfold main_loop.
  destruct (Z.ltb_spec i (Z.of_nat (length (servers cfg)))); [left|right];
    (split; [done|]); [|done].
  by destruct (launch_all cfg _ h).
Qed.

(** [main] only adds fresh launches and effects; it never touches [running]
    or [failed]. *)
Lemma main_loop_grows i h :
  ∃ plan evs,
    launches (main_loop cfg i h)
    = launches h ++ imap (λ j, new_launch cfg (length (launches h) + j)%nat) plan
    ∧ running (main_loop cfg i h) = running h
    ∧ failed (main_loop cfg i h) = failed h
    ∧ effects (main_loop cfg i h) = effects h ++ evs.
Proof.
  destruct (main_loop_cases i h) as [[_ ->]|[_ ->]].
  - match goal with
    | |- context [launch_all cfg ?plan h] =>
        pose proof (launch_all_spec cfg plan h) as (Hl & He & Hr & Hf & _);
        exists plan
    end.
    eexists. cbn [launches running failed effects set_pc]. by rewrite Hl, He, Hr, Hf.
  - destruct (main_finish_spec cfg h) as (evs & He & _ & Hl & Hr & Hf & _).
    exists [], evs. rewrite Hl, He, Hr, Hf. simpl. by rewrite app_nil_r.
Qed.

Lemma resume_main_grows h :
  ∃ plan evs,
    launches (resume_main cfg h)
    = launches h ++ imap (λ j, new_launch cfg (length (launches h) + j)%nat) plan
    ∧ running (resume_main cfg h) = running h
    ∧ failed (resume_main cfg h) = failed h
    ∧ effects (resume_main cfg h) = effects h ++ evs.
Proof.
  assert (∃ plan evs,
            launches h
            = launches h ++ imap (λ j, new_launch cfg (length (launches h) + j)%nat) plan
            ∧ running h = running h ∧ failed h = failed h
            ∧ effects h = effects h ++ evs) as Hrefl
    by (exists [], []; simpl; by rewrite !app_nil_r).
  unfold resume_main. destruct (pc h) as [i batch promises|]; [|done].
  destruct (forallb _ _); [|done].
  destruct (print_progress_spec batch h) as (lines & _ & He & Hl & Hr & Hf & _).
  destruct (main_loop_grows (i + BATCH_SIZE) (print_progress batch h))
    as (plan & evs & Hl' & Hr' & Hf' & He').
  exists plan, (lines ++ evs).
  rewrite Hl', Hr', Hf', He', Hl, Hr, Hf, He. by rewrite (assoc_L (++)).
Qed.

(** One turn of the event loop is one callback, then what [main] adds. *)
Lemma deliver_grows h de :
  deliver cfg h de = h
  ∨ ∃ l plan evs,
      launches h !! de.1 = Some l
      ∧ launches (deliver cfg h de)
        = launches (handle de.2 de.1 l h)
          ++ imap (λ j, new_launch cfg
                          (length (launches (handle de.2 de.1 l h)) + j)%nat) plan
      ∧ running (deliver cfg h de) = running (handle de.2 de.1 l h)
      ∧ failed (deliver cfg h de) = failed (handle de.2 de.1 l h)
      ∧ effects (deliver cfg h de) = effects (handle de.2 de.1 l h) ++ evs.
Proof.
  unfold deliver. destruct (launches h !! de.1) as [l|] eqn:E; [right|by left].
  exists l. destruct (_ && _).
  - destruct (resume_main_grows (handle de.2 de.1 l h))
      as (plan & evs & H1 & H2 & H3 & H4).
    by exists plan, evs.
  - exists [], []. simpl. by rewrite !app_nil_r.
Qed.

(** *** Launches and the two arrays *)

Lemma handle_timer ev id l h l' :
  launches h !! id = Some l →
  timer_armed l = negb (started l) →
  launches (handle ev id l h) !! id = Some l' →
  timer_armed l' = negb (started l').
Proof.
  intros Hl Hinv.
  assert (∀ x, <[id := x]> (launches h) !! id = Some l' → x = l') as Hins.
  { intros x Hx. apply list_lookup_insert_Some in Hx as [(_ & ? & _)|(? & _)]; done. }
  destruct l as [s port pid st tm buf stl]. simpl in Hinv. subst tm.
  destruct ev as [|msg|code|data]; simpl;
    unfold on_timeout, on_error, on_exit, on_stderr; simpl.
  - destruct st; simpl; intros Hl'.
    + rewrite Hl in Hl'. injection Hl' as <-. done.
    + apply Hins in Hl'. by subst l'.
  - destruct st; simpl; intros Hl'.
    + rewrite Hl in Hl'. injection Hl' as <-. done.
    + apply Hins in Hl'. by subst l'.
  - destruct st; simpl.
    + case_match; simpl; intros Hl'; rewrite Hl in Hl'; injection Hl' as <-; done.
    + destruct (bool_decide (code = Some 0)); simpl; intros Hl';
        apply Hins in Hl'; by subst l'.
  - intros Hl'. apply Hins in Hl'. by subst l'.
Qed.

Lemma outcome_inv_grows h h' plan :
  outcome_inv cfg h →
  launches h'
  = launches h ++ imap (λ j, new_launch cfg (length (launches h) + j)%nat) plan →
  running h' = running h → failed h' = failed h →
  outcome_inv cfg h'.
Proof.
  intros [Hpid Htm Hrun Hfail] Hl Hr Hf.
  assert (∀ id l, launches h' !! id = Some l →
                  launches h !! id = Some l
                  ∨ (∃ p, l = new_launch cfg id p)) as Hnew.
  { intros id l Hid. rewrite Hl in Hid.
    apply lookup_app_Some in Hid as [?|[Hge Hid]]; [by left|right].
    rewrite list_lookup_imap in Hid.
    destruct (plan !! _) as [p|]; [|done]. injection Hid as <-.
    exists p. f_equal. lia. }
  constructor.
  - intros id l Hid. destruct (Hnew id l Hid) as [?|[p ->]]; [by apply Hpid|done].
  - intros id l Hid. destruct (Hnew id l Hid) as [?|[p ->]]; [by eapply Htm|done].
  - intros r Hin. rewrite Hr in Hin.
    destruct (Hrun r Hin) as (id & l & Hid & Hs & ->).
    exists id, l. rewrite Hl. split; [by apply lookup_app_l_Some|done].
  - intros f Hin. rewrite Hf in Hin.
    destruct (Hfail f Hin) as (id & l & Hid & Hs & Hn).
    exists id, l. rewrite Hl. split; [by apply lookup_app_l_Some|done].
Qed.

Lemma outcome_inv_handle ev id l h :
  launches h !! id = Some l →
  base_inv cfg h → outcome_inv cfg h →
  outcome_inv cfg (handle ev id l h).
Proof.
  intros E Hb [Hpid Htm Hrun Hfail].
  destruct Hb as [_ _ _ _ Hstd _ _].
  destruct (handle_cases ev id l h E) as [_ Hcases].
  assert (id < length (launches h))%nat as Hlt by (by eapply lookup_lt_Some).
  assert (∀ id0 l0, launches (handle ev id l h) !! id0 = Some l0 →
                    timer_armed l0 = negb (started l0)) as Htm'.
  { intros id0 l0 Hid0. destruct (decide (id0 = id)) as [->|Hne].
    - eapply handle_timer; [exact E| |exact Hid0]. by apply (Htm id l).
    - assert (launches h !! id0 = Some l0) as Hold; [|by apply (Htm id0 l0)].
      destruct Hcases as [(l' & evs & Hl & _)|(_ & ok & err & Hl & _)];
        rewrite Hl in Hid0;
        apply list_lookup_insert_Some in Hid0 as [(? & _)|(_ & ?)]; done. }
  destruct Hcases
    as [(l' & evs & Hl & Hpl & Hpid' & Hs & _ & _ & _ & _ & Hr & Hf)
       |(Hst0 & ok & err & Hl & _ & Hr & Hf)].
  - injection Hpl as Hsrv Hport.
    assert (∀ id0 l0, launches h !! id0 = Some l0 →
                      ∃ l1, launches (handle ev id l h) !! id0 = Some l1
                            ∧ l_server l1 = l_server l0 ∧ l_port l1 = l_port l0
                            ∧ l_pid l1 = l_pid l0 ∧ settled l1 = settled l0) as Hfwd.
    { intros id0 l0 Hid0. rewrite Hl. destruct (decide (id = id0)) as [<-|Hne].
      - exists l'. rewrite E in Hid0. injection Hid0 as <-.
        split; [|done]. apply list_lookup_insert_Some. by left.
      - exists l0. split; [|done]. apply list_lookup_insert_Some. by right. }
    constructor; [|exact Htm'| |].
    + intros id0 l0 Hid0. rewrite Hl in Hid0.
      apply list_lookup_insert_Some in Hid0 as [(<- & <- & _)|(_ & Hid0)].
      * rewrite Hpid'. by apply Hpid.
      * by apply Hpid.
    + intros r Hin. rewrite Hr in Hin.
      destruct (Hrun r Hin) as (id0 & l0 & Hid0 & Hs0 & ->).
      destruct (Hfwd id0 l0 Hid0) as (l1 & Hl1 & e1 & e2 & e3 & e4).
      exists id0, l1. rewrite e1, e2, e3, e4. done.
    + intros f Hin. rewrite Hf in Hin.
      destruct (Hfail f Hin) as (id0 & l0 & Hid0 & Hs0 & Hn).
      destruct (Hfwd id0 l0 Hid0) as (l1 & Hl1 & e1 & e2 & e3 & e4).
      exists id0, l1. rewrite e1, e4. done.
  - assert (settled l = None) as Hnone.
    { destruct (settled l) as [b|] eqn:Es; [|done].
      assert (started l = true) by (apply (Hstd id l E); by rewrite Es).
      congruence. }
    set (l' := settle ok (disarm (mark_started l))) in *.
    assert (settled l' = Some ok) as Hs' by (subst l'; simpl; by rewrite Hnone).
    assert (launches (handle ev id l h) !! id = Some l') as Hl'
      by (rewrite Hl; apply list_lookup_insert_Some; by left).
    assert (∀ id0 l0, launches h !! id0 = Some l0 → is_Some (settled l0) →
                      launches (handle ev id l h) !! id0 = Some l0) as Hfwd.
    { intros id0 l0 Hid0 Hs0. rewrite Hl. apply list_lookup_insert_Some. right.
      split; [|done]. intros <-. rewrite E in Hid0. injection Hid0 as <-.
      rewrite Hnone in Hs0. by destruct Hs0. }
    constructor; [|exact Htm'| |].
    + intros id0 l0 Hid0. rewrite Hl in Hid0.
      apply list_lookup_insert_Some in Hid0 as [(<- & <- & _)|(_ & Hid0)].
      * by apply (Hpid id l).
      * by apply Hpid.
    + intros r Hin. rewrite Hr in Hin. apply elem_of_app in Hin as [Hin|Hin].
      * destruct (Hrun r Hin) as (id0 & l0 & Hid0 & Hs0 & ->).
        exists id0, l0. split; [|done]. apply Hfwd; [done|]. by rewrite Hs0.
      * destruct ok; [|by apply elem_of_nil in Hin].
        apply list_elem_of_singleton in Hin as ->. by exists id, l'.
    + intros f Hin. rewrite Hf in Hin. apply elem_of_app in Hin as [Hin|Hin].
      * destruct (Hfail f Hin) as (id0 & l0 & Hid0 & Hs0 & Hn).
        exists id0, l0. split; [|done]. apply Hfwd; [done|]. by rewrite Hs0.
      * destruct ok; [by apply elem_of_nil in Hin|].
        apply list_elem_of_singleton in Hin as ->. by exists id, l'.
Qed.

Lemma outcome_inv_deliver h de :
  inv cfg h → outcome_inv cfg h → outcome_inv cfg (deliver cfg h de).
Proof.
  intros [Hb _] Ho.
  destruct (deliver_grows h de) as [->|(l & plan & evs & E & Hl & Hr & Hf & _)];
    [done|].
  eapply outcome_inv_grows; [|exact Hl|exact Hr|exact Hf].
  by apply outcome_inv_handle.
Qed.

Lemma main_start_outcome_inv : outcome_inv cfg (main_start cfg).
Proof.
  unfold main_start.
  match goal with
  | |- outcome_inv cfg (main_loop cfg 0 ?h0) =>
      destruct (main_loop_grows 0 h0) as (plan & evs & Hl & Hr & Hf & _);
      apply (outcome_inv_grows h0 _ plan); try done
  end.
  constructor; simpl.
  - intros id l Hid. by rewrite lookup_nil in Hid.
  - intros id l Hid. by rewrite lookup_nil in Hid.
  - intros r Hin. by apply elem_of_nil in Hin.
  - intros f Hin. by apply elem_of_nil in Hin.
Qed.

Lemma run_outcome_inv sched : outcome_inv cfg (run cfg sched).
Proof.
  unfold run.
  assert (∀ h, inv cfg h → outcome_inv cfg h →
               outcome_inv cfg (foldl (deliver cfg) h sched)) as Hgen.
  { induction sched as [|de sched IH]; intros h Hinv Ho; [done|].
    simpl. apply IH; [by apply deliver_inv|by apply outcome_inv_deliver]. }
  apply Hgen; [apply main_start_inv|apply main_start_outcome_inv].
Qed.

(** *** Waking [main] *)

Lemma handle_launches ev id l h :
  launches h !! id = Some l →
  ∃ l', launches (handle ev id l h) = <[id := l']> (launches h)
        ∧ (is_Some (settled l) → settled l' = settled l)
        ∧ (started l = true → started l' = true).
Proof.
  intros E. destruct (handle_cases ev id l h E) as [_ Hcases].
  destruct Hcases as [(l' & evs & Hl & _ & _ & Hs & Hst & _)
                     |(Hst0 & ok & err & Hl & _)].
  - by exists l'.
  - eexists. split; [exact Hl|]. split; [|done].
    simpl. by intros [b ->].
Qed.

Lemma handle_lookup_other ev id l h id' :
  launches h !! id = Some l → id' ≠ id →
  launches (handle ev id l h) !! id' = launches h !! id'.
Proof.
  intros E Hne. destruct (handle_launches ev id l h E) as (l' & -> & _).
  by apply list_lookup_insert_ne.
Qed.

Lemma is_settled_app h h' ls id :
  launches h' = launches h ++ ls →
  is_settled h id = true → is_settled h' id = true.
Proof.
  intros Hl (l & Hid & Hs)%is_settled_lookup.
  apply is_settled_lookup. exists l. split; [|done].
  rewrite Hl. by apply lookup_app_l_Some.
Qed.

Lemma is_settled_deliver h de id :
  base_inv cfg h →
  is_settled h id = true → is_settled (deliver cfg h de) id = true.
Proof.
  intros Hb Hs.
  destruct (deliver_grows h de) as [->|(l & plan & evs & E & Hl & _)]; [done|].
  eapply is_settled_app; [exact Hl|].
  by apply (handle_base_inv cfg de.2 de.1 l h E Hb).
Qed.

Lemma waiting_inv_main_loop j h :
  0 ≤ j → waiting_inv (main_loop cfg j h).
Proof.
  intros Hj. unfold waiting_inv.
  destruct (main_loop_cases j h) as [[Hlt ->]|[_ ->]].
  - match goal with
    | |- context [launch_all cfg ?plan h] =>
        pose proof (launch_all_spec cfg plan h) as (Hl & _ & _ & _ & _ & Hids);
        assert (0 < length plan)%nat as Hlen
    end.
    { unfold plan_batch. rewrite length_imap, arr_slice_batch_length by done. lia. }
    cbn [pc set_pc]. rewrite Hids.
    destruct (length (plan_batch cfg j _)) as [|m] eqn:Em; [lia|].
    cbn [seq forallb]. apply andb_false_intro1.
    unfold is_settled. cbn [launches set_pc]. rewrite Hl.
    rewrite lookup_app_r by lia. rewrite Nat.sub_diag, list_lookup_imap.
    destruct (plan_batch cfg j _) as [|p plan]; [done|]. done.
  - by destruct (main_finish_spec cfg h) as (_ & _ & _ & _ & _ & _ & ->).
Qed.

Lemma waiting_inv_resume h :
  pc_inv cfg h → waiting_inv (resume_main cfg h).
Proof.
  intros Hpc. unfold resume_main, pc_inv in *.
  destruct (pc h) as [i batch promises|] eqn:Epc.
  - destruct (forallb (is_settled h) promises) eqn:Fall.
    + apply waiting_inv_main_loop. unfold BATCH_SIZE. lia.
    + unfold waiting_inv. by rewrite Epc.
  - unfold waiting_inv. by rewrite Epc.
Qed.

Lemma waiting_inv_deliver h de :
  inv cfg h → waiting_inv h → waiting_inv (deliver cfg h de).
Proof.
  intros [Hb Hpc] Hw. unfold deliver.
  destruct (launches h !! de.1) as [l|] eqn:E; [|done].
  destruct (handle_base_inv cfg de.2 de.1 l h E Hb) as (Hb' & Hlen & Hmono & Hp).
  destruct (negb (is_settled h de.1) && is_settled (handle de.2 de.1 l h) de.1)
    eqn:Hcond.
  - apply waiting_inv_resume. unfold pc_inv in *. rewrite Hp.
    destruct (pc h) as [i batch promises|].
    + destruct Hpc as (H1 & H2 & H3 & H4 & H5 & H6 & H7).
      rewrite Hlen. repeat split; try done. intros id Hid. by apply Hmono, H7.
    + destruct Hpc as [Hn Hall]. rewrite Hlen. split; [done|].
      intros id Hid. by apply Hmono, Hall.
  - unfold waiting_inv in *. rewrite Hp.
    destruct (pc h) as [i batch promises|]; [|done].
    destruct (forallb (is_settled (handle de.2 de.1 l h)) promises) eqn:Fall;
      [|done].
    rewrite <- Hw. symmetry. apply forallb_forall. intros id Hin.
    rewrite forallb_forall in Fall. specialize (Fall id Hin).
    destruct (decide (id = de.1)) as [->|Hne].
    + rewrite Fall, andb_true_r in Hcond. by apply negb_false_iff in Hcond.
    + unfold is_settled in *.
      by rewrite handle_lookup_other in Fall.
Qed.

Lemma run_waiting_inv sched : waiting_inv (run cfg sched).
Proof.
  unfold run.
  assert (∀ h, inv cfg h → waiting_inv h →
               waiting_inv (foldl (deliver cfg) h sched)) as Hgen.
  { induction sched as [|de sched IH]; intros h Hinv Hw; [done|].
    simpl. apply IH; [by apply deliver_inv|by apply waiting_inv_deliver]. }
  apply Hgen; [apply main_start_inv|].
  unfold main_start. by apply waiting_inv_main_loop.
Qed.

Lemma all_settled_done h :
  inv cfg h → waiting_inv h →
  (∀ id, (id < length (launches h))%nat → is_settled h id = true) →
  pc h = Done.
Proof.
  intros [_ Hpc] Hw Hall. unfold pc_inv, waiting_inv in *.
  destruct (pc h) as [i batch promises|]; [|done].
  destruct Hpc as (_ & _ & _ & _ & -> & Hlen & _).
  assert (forallb (is_settled h) (seq (Z.to_nat i) (length batch)) = true)
    as Htrue; [|congruence].
  apply forallb_forall. intros id Hin%list_elem_of_In%elem_of_seq.
  apply Hall. lia.
Qed.

(** *** Decided launches *)

Lemma handle_decided ev id l h l' :
  ev ≠ Exit (Some 0) →
  launches h !! id = Some l →
  (started l = true → is_Some (settled l)) →
  launches (handle ev id l h) !! id = Some l' →
  started l' = true → is_Some (settled l').
Proof.
  intros Hev Hl Hinv.
  assert (∀ x, <[id := x]> (launches h) !! id = Some l' → x = l') as Hins.
  { intros x Hx. apply list_lookup_insert_Some in Hx as [(_ & ? & _)|(? & _)]; done. }
  destruct l as [s port pid st tm buf stl]. simpl in Hinv.
  destruct ev as [|msg|code|data]; simpl;
    unfold on_timeout, on_error, on_exit, on_stderr; simpl.
  - destruct tm; [destruct st|]; simpl; intros Hl'.
    + apply Hins in Hl'. subst l'. simpl. by intros _; apply Hinv.
    + apply Hins in Hl'. subst l'. simpl. intros _. by destruct stl.
    + rewrite Hl in Hl'. injection Hl' as <-. done.
  - destruct st; simpl; intros Hl'.
    + rewrite Hl in Hl'. injection Hl' as <-. done.
    + apply Hins in Hl'. subst l'. simpl. intros _. by destruct stl.
  - destruct st; simpl.
    + case_match; simpl; intros Hl'; rewrite Hl in Hl'; injection Hl' as <-; done.
    + rewrite bool_decide_eq_false_2 by congruence. simpl. intros Hl'.
      apply Hins in Hl'. subst l'. simpl. intros _. by destruct stl.
  - intros Hl'. apply Hins in Hl'. by subst l'.
Qed.

Lemma handle_decisive ev id l h :
  decisive ev →
  launches h !! id = Some l →
  started l = false → timer_armed l = true →
  is_settled (handle ev id l h) id = true.
Proof.
  intros Hev Hl Hst Htm.
  assert (∀ e x ok h', launches h' = launches h →
            is_settled (emit e (set_launch id (settle ok x) h')) id = true)
    as Hemit.
  { intros e x ok h' Hh'. apply is_settled_lookup. exists (settle ok x).
    split; [|simpl; by destruct (settled x)].
    simpl. rewrite Hh'. apply list_lookup_insert_Some. left.
    split; [done|]. split; [done|]. by eapply lookup_lt_Some. }
  destruct l as [s port pid st tm buf stl]. simpl in Hst, Htm. subst st tm.
  destruct ev as [|msg|code|data]; simpl in *;
    unfold on_timeout, on_error, on_exit; simpl.
  - by apply Hemit.
  - by apply Hemit.
  - rewrite bool_decide_eq_false_2 by done. simpl. by apply Hemit.
  - done.
Qed.

Lemma decided_is_settled_grows h h' plan :
  decided_is_settled h →
  launches h'
  = launches h ++ imap (λ j, new_launch cfg (length (launches h) + j)%nat) plan →
  decided_is_settled h'.
Proof.
  intros Hd Hl id l Hid. rewrite Hl in Hid.
  apply lookup_app_Some in Hid as [?|[_ Hid]]; [by eapply Hd|].
  rewrite list_lookup_imap in Hid.
  destruct (plan !! _) as [p|]; [|done]. by injection Hid as <-.
Qed.

Lemma decided_is_settled_deliver h de :
  de.2 ≠ Exit (Some 0) →
  decided_is_settled h → decided_is_settled (deliver cfg h de).
Proof.
  intros Hev Hd.
  destruct (deliver_grows h de) as [->|(l & plan & evs & E & Hl & _)]; [done|].
  eapply decided_is_settled_grows; [|exact Hl].
  intros id0 l0 Hid0. destruct (decide (id0 = de.1)) as [->|Hne].
  - eapply handle_decided; [exact Hev|exact E| |exact Hid0]. by apply (Hd de.1).
  - rewrite handle_lookup_other in Hid0 by done. by apply (Hd id0).
Qed.

Lemma main_start_decided : decided_is_settled (main_start cfg).
Proof.
  unfold main_start.
  match goal with
  | |- decided_is_settled (main_loop cfg 0 ?h0) =>
      destruct (main_loop_grows 0 h0) as (plan & evs & Hl & _);
      apply (decided_is_settled_grows h0 _ plan); [|done]
  end.
  intros id l Hid. simpl in Hid. by rewrite lookup_nil in Hid.
Qed.

Lemma foldl_decided h sched :
  no_clean_exit sched →
  decided_is_settled h → decided_is_settled (foldl (deliver cfg) h sched).
Proof.
  intros Hs. revert h. induction Hs as [|de sched Hde _ IH]; intros h Hd; [done|].
  simpl. apply IH. by apply decided_is_settled_deliver.
Qed.

(** *** The report *)

Lemma effects_emit e h : effects (emit e h) = effects h ++ [e].
Proof. done. Qed.

Lemma running_emit e h : running (emit e h) = running h.
Proof. done. Qed.

Lemma failed_emit e h : failed (emit e h) = failed h.
Proof. done. Qed.

Lemma effects_set_pc p h : effects (set_pc p h) = effects h.
Proof. done. Qed.

Lemma main_finish_effects h :
  effects (main_finish cfg h)
  = effects h ++ finish_effects cfg (running h) (failed h).
Proof.
  unfold main_finish, finish_effects, generateSettings. cbv zeta.
  rewrite effects_set_pc, !effects_emit, !running_emit, !failed_emit.
  destruct (bool_decide (0 < length (failed h))%nat);
    rewrite ?effects_emit, ?running_emit;
    rewrite <- !(assoc_L (++)); reflexivity.
Qed.

Lemma progress_not_report e : is_progress e → ¬ is_report e.
Proof. destruct e as [| |[]| |]; simpl; tauto. Qed.

Lemma console_error_not_report e : is_console_error e → ¬ is_report e.
Proof. destruct e as [| |[]| |]; simpl; tauto. Qed.

Lemma report_inv_main_loop j h :
  Forall (λ e, ¬ is_report e) (effects h) → report_inv cfg (main_loop cfg j h).
Proof.
  intros Hno. unfold report_inv.
  destruct (main_loop_cases j h) as [[_ ->]|[_ ->]].
  - match goal with
    | |- context [launch_all cfg ?plan h] =>
        pose proof (launch_all_spec cfg plan h) as (_ & He & _)
    end.
    cbn [pc set_pc effects]. rewrite He. apply Forall_app. split; [done|].
    apply Forall_forall. intros e (k & p & -> & _)%elem_of_lookup_imap. by intros [].
  - destruct (main_finish_spec cfg h) as (_ & _ & _ & _ & Hr & Hf & ->).
    exists (effects h), []. rewrite Hr, Hf, app_nil_r.
    split; [apply main_finish_effects|]. by split.
Qed.

Lemma report_inv_resume h :
  report_inv cfg h → report_inv cfg (resume_main cfg h).
Proof.
  intros Hrep. unfold resume_main.
  destruct (pc h) as [i batch promises|] eqn:Epc; [|done].
  destruct (forallb _ _); [|done].
  apply report_inv_main_loop.
  destruct (print_progress_spec batch h) as (lines & Hlines & -> & _).
  unfold report_inv in Hrep. rewrite Epc in Hrep.
  apply Forall_app. split; [done|].
  eapply Forall_impl; [exact Hlines|]. apply progress_not_report.
Qed.

Lemma report_inv_handle ev id l h :
  launches h !! id = Some l →
  inv cfg h → report_inv cfg h → report_inv cfg (handle ev id l h).
Proof.
  intros E [Hb Hpc] Hrep.
  destruct (handle_cases ev id l h E) as [Hp Hcases].
  unfold report_inv in *. rewrite Hp.
  destruct Hcases
    as [(l' & evs & _ & _ & _ & _ & _ & He & Hevs & _ & Hr & Hf)
       |(Hst0 & ok & err & _ & He & _)].
  - rewrite He, Hr, Hf.
    assert (Forall (λ e, ¬ is_report e) evs) as Hno
      by (eapply Forall_impl; [exact Hevs|]; apply console_error_not_report).
    destruct (pc h) as [i batch promises|].
    + apply Forall_app. by split.
    + destruct Hrep as (pre & late & -> & Hpre & Hlate).
      exists pre, (late ++ evs). rewrite <- !(assoc_L (++)).
      split; [done|]. split; [done|]. apply Forall_app. by split.
  - destruct (pc h) as [i batch promises|] eqn:Epc.
    + rewrite He. apply Forall_app. split; [done|]. repeat constructor. by intros [].
    + exfalso. unfold pc_inv in Hpc. rewrite Epc in Hpc. destruct Hpc as [_ Hall].
      assert (is_settled h id = true) as (l0 & Hl0 & Hs)%is_settled_lookup
        by (apply Hall; by eapply lookup_lt_Some).
      rewrite E in Hl0. injection Hl0 as <-.
      destruct Hb as [_ _ _ _ Hstd _ _].
      rewrite (Hstd id l E Hs) in Hst0. done.
Qed.

Lemma report_inv_deliver h de :
  inv cfg h → report_inv cfg h → report_inv cfg (deliver cfg h de).
Proof.
  intros Hinv Hrep. unfold deliver.
  destruct (launches h !! de.1) as [l|] eqn:E; [|done].
  destruct (_ && _).
  - by apply report_inv_resume, report_inv_handle.
  - by apply report_inv_handle.
Qed.

Lemma header_has_no_report :
  Forall (λ e, ¬ is_report e) (header_effects cfg).
Proof. repeat constructor; by intros []. Qed.

Lemma main_start_effects :
  ∃ rest, effects (main_start cfg) = header_effects cfg ++ rest.
Proof.
  unfold main_start. cbv zeta.
  match goal with
  | |- context [main_loop cfg 0 ?h0] =>
      destruct (main_loop_grows 0 h0) as (plan & evs & _ & _ & _ & He)
  end.
  exists evs. rewrite He. done.
Qed.

Lemma run_report_inv sched : report_inv cfg (run cfg sched).
Proof.
  unfold run.
  assert (∀ h, inv cfg h → report_inv cfg h →
               report_inv cfg (foldl (deliver cfg) h sched)) as Hgen.
  { induction sched as [|de sched IH]; intros h Hinv Hw; [done|].
    simpl. apply IH; [by apply deliver_inv|by apply report_inv_deliver]. }
  apply Hgen; [apply main_start_inv|].
  unfold main_start. apply report_inv_main_loop. apply header_has_no_report.
Qed.

(** *** Only growth *)

Lemma deliver_extends h de :
  ∃ rs fs evs,
    running (deliver cfg h de) = running h ++ rs
    ∧ failed (deliver cfg h de) = failed h ++ fs
    ∧ effects (deliver cfg h de) = effects h ++ evs
    ∧ (length (launches h) ≤ length (launches (deliver cfg h de)))%nat.
Proof.
  destruct (deliver_grows h de)
    as [->|(l & plan & evs & E & Hl & Hr & Hf & He)].
  - exists [], [], []. by rewrite !app_nil_r.
  - rewrite Hl, Hr, Hf, He, length_app.
    destruct (handle_launches de.2 de.1 l h E) as (l' & -> & _).
    rewrite length_insert.
    assert (launches h !! de.1 = Some l) as E' by done.
    destruct (handle_cases de.2 de.1 l h E') as [_ Hcases].
    destruct Hcases
      as [(l1 & evs1 & _ & _ & _ & _ & _ & He1 & _ & _ & Hr1 & Hf1)
         |(_ & ok & err & _ & He1 & Hr1 & Hf1)].
    + exists [], [], (evs1 ++ evs). rewrite Hr1, Hf1, He1, !app_nil_r.
      rewrite <- (assoc_L (++)). repeat split; try done. lia.
    + eexists _, _, ([Settle de.1 ok] ++ evs). rewrite Hr1, Hf1, He1.
      rewrite <- (assoc_L (++)). repeat split; try done. lia.
Qed.

Lemma foldl_deliver_extends h sched :
  ∃ rs fs evs,
    running (foldl (deliver cfg) h sched) = running h ++ rs
    ∧ failed (foldl (deliver cfg) h sched) = failed h ++ fs
    ∧ effects (foldl (deliver cfg) h sched) = effects h ++ evs
    ∧ (length (launches h) ≤ length (launches (foldl (deliver cfg) h sched)))%nat.
Proof.
  revert h. induction sched as [|de sched IH]; intros h.
  - exists [], [], []. by rewrite !app_nil_r.
  - simpl. destruct (IH (deliver cfg h de)) as (rs & fs & evs & -> & -> & -> & Hlen).
    destruct (deliver_extends h de) as (rs0 & fs0 & evs0 & -> & -> & -> & Hlen0).
    exists (rs0 ++ rs), (fs0 ++ fs), (evs0 ++ evs).
    rewrite !(assoc_L (++)). repeat split; try done. lia.
Qed.

Lemma all_settled_count (ls : list launch) :
  Forall (λ l, is_Some (settled l)) ls → settled_count ls = length ls.
Proof.
  unfold settled_count. induction 1 as [|l ls Hl _ IH]; [done|].
  rewrite filter_cons_True by done. simpl. by rewrite IH.
Qed.

End StepFacts.

(* ------------------------------------------------------------------------- *)
(** ** Runs of the hub *)

Section RunFacts.

Import Launcher Report.

Variable cfg : config.

(** X1. In every run the 5 s timer of a launch is pending exactly as long
    as its [started] flag is false: each of the three callbacks that decide
    the race also disposes of the timer. Hence a timeout that is delivered
    to a decided launch changes nothing at all. *)
Theorem timer_is_pending_while_undecided
    (sched : list (nat * child_event)) (id : nat) (l : launch) :
  launches (run cfg sched) !! id = Some l →
  timer_armed l = negb (started l)
  ∧ (started l = true →
     deliver cfg (run cfg sched) (id, Timeout) = run cfg sched).
Proof.
  intros Hl. destruct (run_outcome_inv cfg sched) as [_ Htm _ _].
  pose proof (Htm id l Hl) as Harm. split; [done|].
  intros Hst. unfold deliver. simpl. rewrite Hl.
  rewrite Hst in Harm. simpl in Harm. simpl. rewrite Harm.
  by rewrite andb_negb_l.
Qed.

(** X2. Every entry of [running] and of [failed] stems from a launch: an
    entry of [running] carries the name of a selected descriptor, the port
    [BASE_PORT + k] of its index [k] and the pid of the [k]-th spawn, and
    the promise of that launch is settled; an entry of [failed] carries the
    name of a selected descriptor whose launch is settled. *)
Theorem recorded_entries_come_from_launches
    (sched : list (nat * child_event)) :
  Forall (λ r, ∃ k s, servers cfg !! k = Some s ∧ r = running_of cfg k s
                      ∧ is_settled (run cfg sched) k = true)
    (running (run cfg sched))
  ∧ Forall (λ f, ∃ k s, servers cfg !! k = Some s ∧ f_name f = srv_name s
                        ∧ is_settled (run cfg sched) k = true)
      (failed (run cfg sched)).
Proof.
  destruct (run_outcome_inv cfg sched) as [Hpid _ Hrun Hfail].
  destruct (run_inv cfg sched) as [[Hplan _ _ _ _ _ _] _].
  split; apply Forall_forall.
  - intros r (k & l & Hl & Hs & ->)%Hrun.
    destruct (Hplan k l Hl) as [Hport Hsrv].
    exists k, (l_server l). split; [done|]. split.
    + unfold running_of. by rewrite Hport, (Hpid k l Hl).
    + apply is_settled_lookup. exists l. by rewrite Hs.
  - intros f (k & l & Hl & Hs & Hn)%Hfail.
    destruct (Hplan k l Hl) as [_ Hsrv].
    exists k, (l_server l). split; [done|]. split; [done|].
    apply is_settled_lookup. exists l. by rewrite Hs.
Qed.


(** X4. Once [main] has returned, every selected descriptor is counted in
    exactly one of the two arrays: the lengths of [running] and [failed]
    add up to the number of selected descriptors. *)
Theorem every_server_is_counted_at_the_end
    (sched : list (nat * child_event)) :
  pc (run cfg sched) = Done →
  (length (running (run cfg sched)) + length (failed (run cfg sched)))%nat
  = length (servers cfg).
Proof.
  intros Hdone.
  destruct (run_inv cfg sched) as [[_ _ _ _ _ _ Htot] Hpc].
  unfold pc_inv in Hpc. rewrite Hdone in Hpc. destruct Hpc as [Hlen Hall].
  rewrite Htot, <- Hlen. apply all_settled_count.
  apply Forall_forall. intros l (id & Hid)%list_elem_of_lookup.
  assert (is_settled (run cfg sched) id = true) as (l' & Hl' & Hs)%is_settled_lookup
    by (apply Hall; by eapply lookup_lt_Some).
  congruence.
Qed.

(** X5. The trace of every run starts with the banner of [main]. The
    summary ([Started], [Failed]), the settings file and the closing lines
    are not written while [main] is in its loop; once [main] has returned
    they have been written exactly once, computed from [running] and
    [failed] as they are then and stay, and all that follows them are lines
    on [console.error]. *)
Theorem report_is_written_once_after_the_loop
    (sched : list (nat * child_event)) :
  (∃ rest, effects (run cfg sched) = header_effects cfg ++ rest)
  ∧ report_inv cfg (run cfg sched).
Proof.
  split; [|apply run_report_inv].
  destruct (main_start_effects cfg) as (rest & Hrest).
  destruct (foldl_deliver_extends cfg (main_start cfg) sched)
    as (_ & _ & evs & _ & _ & He & _).
  exists (rest ++ evs). unfold run. rewrite He, Hrest.
  by rewrite (assoc_L (++)).
Qed.

(** X6. Nothing is ever taken back: whatever is delivered after a run, the
    arrays [running] and [failed] and the trace keep what they hold and only
    grow at the end, and no launch disappears. In particular a child that
    dies after its launch was recorded stays in [running]. *)
Theorem outcomes_are_never_taken_back
    (s1 s2 : list (nat * child_event)) :
  ∃ rs fs evs,
    running (run cfg (s1 ++ s2)) = running (run cfg s1) ++ rs
    ∧ failed (run cfg (s1 ++ s2)) = failed (run cfg s1) ++ fs
    ∧ effects (run cfg (s1 ++ s2)) = effects (run cfg s1) ++ evs
    ∧ (length (launches (run cfg s1))
       ≤ length (launches (run cfg (s1 ++ s2))))%nat.
Proof.
  unfold run. rewrite foldl_app. apply foldl_deliver_extends.
Qed.

(** X7. [main] has returned exactly when the promise of every launch made
    so far is settled: it is never left waiting for a batch that is
    complete, and it never returns while a launch is undecided. *)
Theorem main_is_done_iff_all_launches_settled
    (sched : list (nat * child_event)) :
  pc (run cfg sched) = Done
  ↔ Forall (λ l, is_Some (settled l)) (launches (run cfg sched)).
Proof.
  pose proof (run_inv cfg sched) as Hinv. split.
  - intros Hdone. destruct Hinv as [_ Hpc].
    unfold pc_inv in Hpc. rewrite Hdone in Hpc. destruct Hpc as [_ Hall].
    apply Forall_forall. intros l (id & Hid)%list_elem_of_lookup.
    assert (is_settled (run cfg sched) id = true)
      as (l' & Hl' & Hs)%is_settled_lookup
      by (apply Hall; by eapply lookup_lt_Some).
    congruence.
  - intros Hall. apply (all_settled_done cfg); [done|apply run_waiting_inv|].
    intros id (l & Hl)%lookup_lt_is_Some. apply is_settled_lookup.
    exists l. split; [done|].
    rewrite Forall_forall in Hall. apply Hall. by eapply list_elem_of_lookup_2.
Qed.

(** X8. The clean early exit is the only way to block [main]: after any
    schedule in which no child exits with code 0, [main] returns as soon as
    every launch has received, in the order of the launches, one event that
    decides an open race (its timeout, a spawn error or an exit with another
    code). *)
Theorem main_returns_unless_a_child_exits_cleanly
    (sched : list (nat * child_event)) (ev : nat → child_event) :
  no_clean_exit sched →
  (∀ k, decisive (ev k)) →
  pc (run cfg (sched ++ one_event_each cfg ev)) = Done.
Proof.
  intros Hclean Hev.
  set (sk := λ k : nat, sched ++ ((λ k, (k, ev k)) <$> seq 0 k)).
  assert (∀ k, (k ≤ length (servers cfg))%nat →
               decided_is_settled (run cfg (sk k))
               ∧ ∀ id, (id < k)%nat → is_settled (run cfg (sk k)) id = true)
    as Hstep.
  { induction k as [|k IH]; intros Hk.
    - split; [|intros id Hid; lia].
      unfold sk. simpl. rewrite app_nil_r. unfold run.
      apply foldl_decided; [done|apply main_start_decided].
    - destruct IH as [Hd Hall]; [lia|].
      assert (sk (S k) = sk k ++ [(k, ev k)]) as ->.
      { unfold sk. rewrite seq_S, fmap_app. simpl. by rewrite (assoc_L (++)). }
      assert (run cfg (sk k ++ [(k, ev k)])
              = deliver cfg (run cfg (sk k)) (k, ev k)) as ->
        by (unfold run; by rewrite foldl_snoc).
      pose proof (run_inv cfg (sk k)) as Hinv.
      pose proof (run_waiting_inv cfg (sk k)) as Hw.
      destruct (run_outcome_inv cfg (sk k)) as [_ Htm _ _].
      set (h := run cfg (sk k)) in *.
      assert (ev k ≠ Exit (Some 0)) as Hne.
      { specialize (Hev k). intros Heq. rewrite Heq in Hev. by apply Hev. }
      split; [by apply decided_is_settled_deliver|].
      assert (k < length (launches h))%nat as Hlt.
      { destruct (decide (k < length (launches h))%nat) as [|Hge]; [done|].
        assert (pc h = Done) as Hdone.
        { apply (all_settled_done cfg); [done|done|]. intros id Hid. apply Hall. lia. }
        destruct Hinv as [_ Hpc]. unfold pc_inv in Hpc. rewrite Hdone in Hpc.
        lia. }
      apply lookup_lt_is_Some in Hlt as [l Hl].
      intros id Hid. destruct (decide (id = k)) as [->|Hneq].
      + assert (is_settled (handle (ev k) k l h) k = true) as Hs.
        { destruct (started l) eqn:Est.
          - apply (handle_base_inv cfg (ev k) k l h Hl); [apply Hinv|].
            apply is_settled_lookup. exists l. split; [done|]. by apply (Hd k).
          - apply handle_decisive; try done. rewrite (Htm k l Hl), Est. done. }
        unfold deliver. simpl. rewrite Hl, Hs, andb_true_r.
        destruct (negb (is_settled h k)); [|done].
        destruct (resume_main_grows cfg (handle (ev k) k l h))
          as (plan & evs & Hgrow & _).
        by eapply is_settled_app.
      + apply is_settled_deliver; [apply Hinv|]. apply Hall. lia. }
  destruct (Hstep (length (servers cfg))) as [_ Hall]; [done|].
  change (sk (length (servers cfg))) with (sched ++ one_event_each cfg ev) in Hall.
  pose proof (run_inv cfg (sched ++ one_event_each cfg ev)) as Hinv.
  apply (all_settled_done cfg); [done|apply run_waiting_inv|].
  intros id (l & Hl)%lookup_lt_is_Some. apply Hall.
  destruct Hinv as [[Hplan _ _ _ _ _ _] _].
  destruct (Hplan id l Hl) as [_ Hsrv]. by apply lookup_lt_Some in Hsrv.
Qed.

(** X9. When the filters leave no descriptor, nothing is spawned and no
    event can reach the hub: [main] prints its banner, the summary and an
    empty settings file and returns at once, whatever is scheduled. *)
Theorem empty_selection_only_reports
    (sched : list (nat * child_event)) :
  servers cfg = [] →
  run cfg sched = main_start cfg
  ∧ pc (main_start cfg) = Done
  ∧ effects (main_start cfg) = header_effects cfg ++ finish_effects cfg [] []
  ∧ WriteSettings ∅ ∈ effects (main_start cfg).
Proof.
  intros Hnone.
  assert (main_start cfg
          = main_finish cfg (Hub [] [] [] (header_effects cfg) Done)) as Hstart.
  { unfold main_start, main_loop, header_effects. cbv zeta. rewrite Hnone.
    reflexivity. }
  assert (launches (main_start cfg) = []) as Hl.
  { rewrite Hstart.
    by destruct (main_finish_spec cfg (Hub [] [] [] (header_effects cfg) Done))
      as (_ & _ & _ & -> & _). }
  assert (effects (main_start cfg)
          = header_effects cfg ++ finish_effects cfg [] []) as He
    by (rewrite Hstart; apply main_finish_effects).
  split; [|split; [|split; [done|]]].
  - unfold run. induction sched as [|de sched IH]; [done|].
    simpl. unfold deliver at 2. rewrite Hl, lookup_nil. exact IH.
  - rewrite Hstart.
    by destruct (main_finish_spec cfg (Hub [] [] [] (header_effects cfg) Done))
      as (_ & _ & _ & _ & _ & _ & ->).
  - rewrite He. unfold finish_effects. do 3 (apply elem_of_app; right).
    do 2 apply list_elem_of_further. apply list_elem_of_here.
Qed.

(** X10. When the selected descriptors have pairwise different names, the
    progress line of a descriptor tells the outcome of its own launch: after
    any run, [OK] with the port [BASE_PORT + k] if the launch was resolved
    with [true], [XX] with an error recorded in [failed] if it was resolved
    with [false], and no line while the launch is unsettled. *)
Theorem progress_line_tells_own_outcome
    (sched : list (nat * child_event)) (k : nat) (s : server) (l : launch) :
  NoDup (srv_name <$> servers cfg) →
  servers cfg !! k = Some s →
  launches (run cfg sched) !! k = Some l →
  match settled l with
  | Some true =>
      progress_line (run cfg sched) s
      = Some (MOk (srv_name s) (BASE_PORT cfg + Z.of_nat k))
  | Some false =>
      ∃ err, Failed (srv_name s) err ∈ failed (run cfg sched)
             ∧ progress_line (run cfg sched) s = Some (MFail (srv_name s) err)
  | None => progress_line (run cfg sched) s = None
  end.
Proof.
  intros Hnd Hk Hl.
  destruct (run_outcome_inv cfg sched) as [_ _ Hrun Hfail].
  destruct (run_inv cfg sched) as [[Hplan _ _ _ _ Hout _] _].
  set (h := run cfg sched) in *.
  destruct (Hplan k l Hl) as [Hport Hsrv].
  assert (s = l_server l) as -> by congruence.
  assert (∀ k' l', launches h !! k' = Some l' →
                   srv_name (l_server l') = srv_name (l_server l) → k' = k ∧ l' = l)
    as Huniq.
  { intros k' l' Hl' Hn. destruct (Hplan k' l' Hl') as [_ Hsrv'].
    assert (k' = k) as ->; [|split; [done|congruence]].
    eapply NoDup_lookup; [exact Hnd| |].
    - rewrite list_lookup_fmap, Hsrv'. simpl. by rewrite Hn.
    - by rewrite list_lookup_fmap, Hsrv. }
  assert (∀ i r, list_find (λ x, r_name x = srv_name (l_server l)) (running h)
                 = Some (i, r) →
                 settled l = Some true ∧ r_port r = l_port l) as Hr.
  { intros i r (Hi & Hn & _)%list_find_Some.
    destruct (Hrun r) as (k' & l' & Hl' & Hs' & ->);
      [by eapply list_elem_of_lookup_2|].
    simpl in Hn. by destruct (Huniq k' l' Hl' Hn) as [-> ->]. }
  assert (∀ i f, list_find (λ x, f_name x = srv_name (l_server l)) (failed h)
                 = Some (i, f) →
                 settled l = Some false ∧ f ∈ failed h
                 ∧ f_name f = srv_name (l_server l)) as Hf.
  { intros i f (Hi & Hn & _)%list_find_Some.
    assert (f ∈ failed h) as Hin by (by eapply list_elem_of_lookup_2).
    destruct (Hfail f Hin) as (k' & l' & Hl' & Hs' & Hn').
    rewrite Hn' in Hn. by destruct (Huniq k' l' Hl' Hn) as [-> ->]. }
  pose proof (Hout k l Hl) as Ho. unfold outcome_recorded in Ho.
  unfold progress_line. cbv zeta.
  destruct (list_find (λ x, r_name x = srv_name (l_server l)) (running h))
    as [[i r]|] eqn:Er.
  - destruct (Hr i r eq_refl) as [Hs Hp]. rewrite Hs. by rewrite Hp, Hport.
  - destruct (list_find (λ x, f_name x = srv_name (l_server l)) (failed h))
      as [[i f]|] eqn:Ef.
    + destruct (Hf i f eq_refl) as (Hs & Hin & Hn). rewrite Hs.
      exists (f_error f). split; [|done].
      destruct f as [n e]. simpl in *. by subst n.
    + destruct (settled l) as [[]|]; [| |done].
      * exfalso. apply list_find_None in Er. rewrite Forall_forall in Er.
        by apply (Er _ Ho).
      * exfalso. destruct Ho as [err Hin].
        apply list_find_None in Ef. rewrite Forall_forall in Ef.
        by apply (Ef _ Hin).
Qed.

End RunFacts.

Section RunWitnesses.

Import Launcher Report Scenarios MoreScenarios.

Lemma timer_is_pending_while_undecided_witness :
  ∃ l, launches (run abc_cfg abc_sched) !! 0%nat = Some l
       ∧ timer_armed l = negb (started l)
       ∧ (started l = true →
          deliver abc_cfg (run abc_cfg abc_sched) (0%nat, Timeout)
          = run abc_cfg abc_sched).
Proof.
  eexists. split; [vm_compute; reflexivity|].
  apply (timer_is_pending_while_undecided abc_cfg abc_sched 0).
  vm_compute. reflexivity.
Defined.

Lemma abc_names_differ : NoDup (srv_name <$> abc).
Proof. apply (bool_decide_unpack _). vm_compute. exact I. Qed.


Lemma every_server_is_counted_at_the_end_witness :
  pc (run abc_cfg all_decided_sched) = Done
  ∧ (length (running (run abc_cfg all_decided_sched))
     + length (failed (run abc_cfg all_decided_sched)))%nat
    = length (servers abc_cfg).
Proof.
  split; [vm_compute; reflexivity|].
  apply (every_server_is_counted_at_the_end abc_cfg all_decided_sched).
  vm_compute. reflexivity.
Defined.

Lemma main_returns_unless_a_child_exits_cleanly_witness :
  no_clean_exit [(1%nat, StderrData "warming up"); (1%nat, Exit (Some 2))]
  ∧ (∀ k, decisive ((λ _ : nat, Timeout) k))
  ∧ pc (run abc_cfg
          ([(1%nat, StderrData "warming up"); (1%nat, Exit (Some 2))]
           ++ one_event_each abc_cfg (λ _ : nat, Timeout))) = Done.
Proof.
  assert (no_clean_exit
            [(1%nat, StderrData "warming up"); (1%nat, Exit (Some 2))]) as Hs
    by (repeat constructor; simpl; congruence).
  split; [exact Hs|]. split; [intros k; exact I|].
  apply (main_returns_unless_a_child_exits_cleanly abc_cfg _ (λ _ : nat, Timeout)).
  - exact Hs.
  - intros k. exact I.
Defined.

Lemma empty_selection_only_reports_witness :
  servers nothing_cfg = []
  ∧ run nothing_cfg abc_sched = main_start nothing_cfg
  ∧ pc (main_start nothing_cfg) = Done
  ∧ effects (main_start nothing_cfg)
    = header_effects nothing_cfg ++ finish_effects nothing_cfg [] []
  ∧ WriteSettings ∅ ∈ effects (main_start nothing_cfg).
Proof.
  split; [vm_compute; reflexivity|].
  apply (empty_selection_only_reports nothing_cfg abc_sched).
  vm_compute. reflexivity.
Defined.

Lemma progress_line_tells_own_outcome_witness :
  ∃ l, NoDup (srv_name <$> servers abc_cfg)
       ∧ servers abc_cfg !! 2%nat = Some (Server "c" "false" [] None)
       ∧ launches (run abc_cfg abc_sched) !! 2%nat = Some l
       ∧ match settled l with
         | Some true =>
             progress_line (run abc_cfg abc_sched) (Server "c" "false" [] None)
             = Some (MOk "c" (BASE_PORT abc_cfg + Z.of_nat 2))
         | Some false =>
             ∃ err, Failed "c" err ∈ failed (run abc_cfg abc_sched)
                    ∧ progress_line (run abc_cfg abc_sched)
                        (Server "c" "false" [] None)
                      = Some (MFail "c" err)
         | None =>
             progress_line (run abc_cfg abc_sched) (Server "c" "false" [] None)
             = None
         end.
Proof.
  eexists. split; [exact abc_names_differ|].
  split; [reflexivity|]. split; [vm_compute; reflexivity|].
  apply (progress_line_tells_own_outcome abc_cfg abc_sched 2
           (Server "c" "false" [] None)).
  - exact abc_names_differ.
  - reflexivity.
  - vm_compute. reflexivity.
Defined.

End RunWitnesses.

(* ------------------------------------------------------------------------- *)
(** ** The registry and the start-up *)

Section RegistryFacts.

Import Launcher Registry Startup Listing.

Lemma filter_names_NoDup (P : server → Prop) `{∀ s, Decision (P s)}
    (l : list server) :
  NoDup (srv_name <$> l) → NoDup (srv_name <$> filter P l).
Proof.
  intros Hnd. eapply sublist_NoDup; [exact Hnd|].
  apply fmap_sublist, sublist_filter.
Qed.

Lemma applyFilters_names_NoDup only exclude (l : list server) :
  NoDup (srv_name <$> l) →
  NoDup (srv_name <$> Selector.applyFilters only exclude l).
Proof.
  intros Hnd. unfold Selector.applyFilters.
  destruct only as [o|], exclude as [x|]; try done;
    repeat apply filter_names_NoDup; done.
Qed.

Lemma childEnv_value (penv : gmap string string) (s : server) k v :
  ChildEnv.childEnv penv s !! k = Some v →
  penv !! k = Some v ∨ ∃ m, srv_env s = Some m ∧ m !! k = Some (VStr v).
Proof.
  unfold ChildEnv.childEnv. destruct (srv_env s) as [m|]; [|by left].
  destruct (m !! k) as [[| |w]|] eqn:E.
  - rewrite overlay_fold_other; [by left|].
    intros w Hw%elem_of_map_to_list. congruence.
  - rewrite overlay_fold_other; [by left|].
    intros w Hw%elem_of_map_to_list. congruence.
  - rewrite (overlay_fold_string _ _ k w);
      [|apply NoDup_fst_map_to_list|by apply elem_of_map_to_list].
    intros [= <-]. right. by exists m.
  - rewrite overlay_fold_other; [by left|].
    intros w Hw%elem_of_map_to_list. congruence.
Qed.

Lemma registry_env_refs (ollama_index : string) (e : gmap string string) :
  Forall (λ s, ∀ m k v, srv_env s = Some m → m !! k = Some v →
                        ∃ a, v = env_ref e a)
    (getServers ollama_index e).
Proof.
  unfold getServers.
  repeat (apply Forall_cons_2;
          [intros m k v Hm Hk;
           first [discriminate Hm
                 |injection Hm as <-;
                  repeat (apply lookup_insert_Some in Hk as [[<- <-]|[_ Hk]];
                          [eexists; reflexivity|]);
                  by rewrite lookup_empty in Hk]|]).
  apply Forall_nil_2.
Qed.

Lemma registry_names_NoDup
    (ollama_index : string) (e : gmap string string) :
  NoDup (srv_name <$> getServers ollama_index e).
Proof. apply (bool_decide_unpack _). vm_compute. exact I. Qed.

(** X11. Whatever the environment, [getServers] returns sixty-one
    descriptors whose names are pairwise different, and the names and
    commands do not depend on the environment. *)
Theorem registry_has_distinct_names
    (ollama_index : string) (e : gmap string string) :
  length (getServers ollama_index e) = 61%nat
  ∧ NoDup (srv_name <$> getServers ollama_index e)
  ∧ ∀ ollama_index' e',
      (λ s, (srv_name s, srv_command s)) <$> getServers ollama_index' e'
      = (λ s, (srv_name s, srv_command s)) <$> getServers ollama_index e.
Proof.
  split; [reflexivity|]. split; [|reflexivity].
  apply registry_names_NoDup.
Qed.

(** X12. The [env] object of every descriptor of [getServers] holds only
    references to [process.env]: each value is the value of some variable
    of the environment, or [undefined] when that variable is not set. So
    whatever the environment of a child of the registry holds for a key is a
    value that the environment of the hub holds for some key; in particular
    no child receives the text of [undefined] or [null]. *)
Theorem registry_children_get_process_values
    (ollama_index : string) (e : gmap string string) (s : server) :
  s ∈ getServers ollama_index e →
  (∀ m k val, srv_env s = Some m → m !! k = Some val → ∃ a, val = env_ref e a)
  ∧ (∀ k v, ChildEnv.childEnv e s !! k = Some v → ∃ k', e !! k' = Some v).
Proof.
  intros Hin.
  pose proof (registry_env_refs ollama_index e) as Hrefs.
  rewrite Forall_forall in Hrefs. specialize (Hrefs s Hin).
  split; [exact Hrefs|].
  intros k v [Hk|(m & Hm & Hk)]%childEnv_value; [by exists k|].
  destruct (Hrefs m k (VStr v) Hm Hk) as [a Ha].
  exists a. unfold env_ref in Ha. by destruct (e !! a) as [w|]; [injection Ha as ->|].
Qed.

Lemma shipped_selection_is_subsequence
    (ollama_index : string) (envFile : option string)
    (penv : gmap string string) (argv : list string) (base_port : Z)
    (pids : nat → option Z) :
  NoDup (srv_name <$>
           servers (hub_config ollama_index envFile penv argv base_port pids))
  ∧ servers (hub_config ollama_index envFile penv argv base_port pids)
    `sublist_of`
    registry (hub_config ollama_index envFile penv argv base_port pids)
  ∧ NoDup (srv_name <$>
             registry (hub_config ollama_index envFile penv argv base_port pids)).
Proof.
  set (cfg := hub_config ollama_index envFile penv argv base_port pids).
  assert (servers cfg
          = Selector.applyFilters (Selector.flagSet argv "--only")
              (Selector.flagSet argv "--exclude")
              (getServers ollama_index (process_env cfg))) as Hsel by done.
  split; [|split].
  - rewrite Hsel. apply applyFilters_names_NoDup. apply registry_names_NoDup.
  - rewrite Hsel. simpl. unfold Selector.applyFilters.
    destruct (Selector.flagSet argv "--only"),
             (Selector.flagSet argv "--exclude"); try done.
    + etrans; apply sublist_filter.
    + apply sublist_filter.
    + apply sublist_filter.
  - apply registry_names_NoDup.
Qed.

(** X13. In the configuration that the script builds at start-up, whatever
    the [.env] file, the environment and the command line are: the selected
    descriptors have pairwise different names and are descriptors of the
    registry, and in every run each [spawn] passes an environment whose
    values are all values of the environment of the hub. *)
Theorem shipped_hub_selection_is_sound
    (ollama_index : string) (envFile : option string)
    (penv : gmap string string) (argv : list string) (base_port : Z)
    (pids : nat → option Z) (sched : list (nat * child_event)) :
  NoDup (srv_name <$>
           servers (hub_config ollama_index envFile penv argv base_port pids))
  ∧ servers (hub_config ollama_index envFile penv argv base_port pids)
    `sublist_of`
    registry (hub_config ollama_index envFile penv argv base_port pids)
  ∧ Forall (λ ef, match ef with
                  | Spawn _ _ env =>
                      ∀ k v, env !! k = Some v →
                             ∃ k', process_env
                                     (hub_config ollama_index envFile penv argv
                                        base_port pids) !! k' = Some v
                  | _ => True
                  end)
      (effects
         (run (hub_config ollama_index envFile penv argv base_port pids) sched)).
Proof.
  set (cfg := hub_config ollama_index envFile penv argv base_port pids).
  assert (servers cfg
          = Selector.applyFilters (Selector.flagSet argv "--only")
              (Selector.flagSet argv "--exclude")
              (getServers ollama_index (process_env cfg))) as Hsel by done.
  destruct (shipped_selection_is_subsequence ollama_index envFile penv argv
              base_port pids) as (Hnd & Hsub & _).
  split; [exact Hnd|]. split; [exact Hsub|].
  { apply Forall_forall. intros ef Hin.
    destruct ef as [id a env| | | |]; try done.
    destruct (run_inv cfg sched) as [[Hplan _ Hsp _ _ _ _] _].
    destruct (Hsp id a env Hin) as (l & Hl & Heq).
    destruct (Hplan id l Hl) as [_ Hsrv].
    injection Heq as _ ->.
    assert (l_server l ∈ getServers ollama_index (process_env cfg)) as Hreg.
    { apply list_elem_of_lookup_2 in Hsrv. rewrite Hsel in Hsrv.
      by apply applyFilters_elem_of in Hsrv as [? _]. }
    pose proof (registry_env_refs ollama_index (process_env cfg)) as Hrefs.
    rewrite Forall_forall in Hrefs. specialize (Hrefs _ Hreg).
    intros k v [Hk|(m & Hm & Hk)]%childEnv_value; [by exists k|].
    destruct (Hrefs m k (VStr v) Hm Hk) as [a' Ha].
    exists a'. unfold env_ref in Ha.
    by destruct (process_env cfg !! a') as [w|]; [injection Ha as ->|]. }
Qed.

(** X14. [--list] over the registry: the heading counts sixty-one servers,
    and in each of the sixty-one lines the command starts at the same
    column, after the right-aligned index and the padded name; what follows
    is the command and its arguments, separated by single spaces. *)
Theorem list_lines_are_aligned
    (ollama_index : string) (e : gmap string string) :
  head (list_output (getServers ollama_index e))
  = Some (String "010" "Available MCP servers (61):" +:+ String "010" EmptyString)
  ∧ length (list_output (getServers ollama_index e)) = 62%nat
  ∧ imap (λ i s, Js.str_drop command_column (list_line i s))
      (getServers ollama_index e)
    = (λ s, srv_command s +:+ " " +:+ Js.join " " (srv_args s))
        <$> getServers ollama_index e.
Proof.
  split; [vm_compute; reflexivity|]. split; [reflexivity|].
  vm_compute. reflexivity.
Qed.

Lemma last_filter_unique {A} (P : A → Prop) `{∀ a, Decision (P a)}
    (l : list A) (x : A) :
  x ∈ l → P x → (∀ y, y ∈ l → P y → y = x) → last (filter P l) = Some x.
Proof.
  intros Hin Hx Huniq.
  destruct (last (filter P l)) as [y|] eqn:El.
  - apply last_Some_elem_of, list_elem_of_filter in El as [Hy Hyl].
    f_equal. by apply Huniq.
  - apply last_None in El.
    assert (x ∈ filter P l) as Hf by (by apply list_elem_of_filter).
    rewrite El in Hf. by apply elem_of_nil in Hf.
Qed.

Lemma last_filter_none {A} (P : A → Prop) `{∀ a, Decision (P a)} (l : list A) :
  (∀ y, y ∈ l → ¬ P y) → last (filter P l) = None.
Proof.
  intros Hno. destruct (last (filter P l)) as [y|] eqn:El; [|done].
  apply last_Some_elem_of, list_elem_of_filter in El as [Hy Hyl].
  by destruct (Hno y Hyl).
Qed.


(** X16. When nothing is filtered out, the names of the registry are
    pairwise different and every launch was resolved with [true], the
    settings that [main] writes at its end are the settings that
    [--generate] writes. *)
Theorem generated_settings_match_full_run
    (cfg : config) (sched : list (nat * child_event)) :
  servers cfg = registry cfg →
  NoDup (srv_name <$> servers cfg) →
  pc (run cfg sched) = Done →
  failed (run cfg sched) = [] →
  build_mcpServers (PUBLIC_HOST cfg)
    (settings_entries cfg (Some (running (run cfg sched))))
  = build_mcpServers (PUBLIC_HOST cfg) (settings_entries cfg None).
Proof.
  intros Hall Hnd Hdone Hnofail.
  destruct (run_outcome_inv cfg sched) as [_ _ Hrun _].
  destruct (run_inv cfg sched) as [[Hplan _ _ _ _ Hout _] Hpc].
  unfold pc_inv in Hpc. rewrite Hdone in Hpc. destruct Hpc as [Hlen Hsettled].
  set (h := run cfg sched) in *.
  assert (∀ k k' s s', servers cfg !! k = Some s → servers cfg !! k' = Some s' →
                       srv_name s = srv_name s' → k = k') as Hinj.
  { intros k k' s s' Hk Hk' Hn. eapply NoDup_lookup; [exact Hnd| |].
    - by rewrite list_lookup_fmap, Hk.
    - rewrite list_lookup_fmap, Hk'. simpl. by rewrite Hn. }
  apply map_eq. intros name. rewrite !build_mcpServers_lookup.
  unfold settings_entries. rewrite <- Hall.
  destruct (decide (name ∈ srv_name <$> servers cfg)) as [Hin|Hnot].
  - apply list_elem_of_fmap in Hin as (s & -> & Hs).
    apply list_elem_of_lookup in Hs as [k Hk].
    rewrite (last_filter_unique _ _ (srv_name s, BASE_PORT cfg + Z.of_nat k)).
    + rewrite (last_filter_unique _ _ (srv_name s, BASE_PORT cfg + Z.of_nat k));
        [done| |done|].
      * apply elem_of_lookup_imap. by exists k, s.
      * intros y (i & s' & -> & Hi)%elem_of_lookup_imap Hy. simpl in Hy.
        by rewrite (Hinj i k s' s Hi Hk Hy), Hy.
    + assert (k < length (launches h))%nat as Hlt
        by (rewrite Hlen; by eapply lookup_lt_Some).
      pose proof (Hsettled k Hlt) as (l & Hl & Hs)%is_settled_lookup.
      destruct (Hplan k l Hl) as [Hport Hsrv].
      assert (l_server l = s) as Hls by congruence.
      pose proof (Hout k l Hl) as Ho. unfold outcome_recorded in Ho.
      destruct Hs as [b Hb]. rewrite Hb in Ho. destruct b.
      * apply list_elem_of_fmap. eexists. split; [|exact Ho].
        simpl. by rewrite Hls, Hport.
      * destruct Ho as [err Herr]. fold h in Hnofail.
        rewrite Hnofail in Herr. by apply elem_of_nil in Herr.
    + done.
    + intros y (r & -> & Hr)%list_elem_of_fmap Hy. simpl in Hy.
      destruct (Hrun r Hr) as (k' & l' & Hl' & Hs' & ->). simpl in *.
      destruct (Hplan k' l' Hl') as [Hport' Hsrv'].
      by rewrite Hport', (Hinj k' k _ s Hsrv' Hk Hy), Hy.
  - rewrite !last_filter_none; [done| |].
    + intros y (i & s' & -> & Hi)%elem_of_lookup_imap Hy. simpl in Hy.
      apply Hnot. apply list_elem_of_fmap. exists s'.
      split; [done|]. by eapply list_elem_of_lookup_2.
    + intros y (r & -> & Hr)%list_elem_of_fmap Hy. simpl in Hy.
      destruct (Hrun r Hr) as (k' & l' & Hl' & Hs' & ->). simpl in *.
      destruct (Hplan k' l' Hl') as [_ Hsrv'].
      apply Hnot. apply list_elem_of_fmap. exists (l_server l').
      split; [done|]. by eapply list_elem_of_lookup_2.
Qed.

End RegistryFacts.

Section RegistryWitnesses.

Import Launcher Registry Startup Listing Scenarios MoreScenarios.

Lemma registry_children_get_process_values_witness :
  Server "github" "npx" ["-y"; "@modelcontextprotocol/server-github"]%string
    (Some (list_to_map
             [("GITHUB_PERSONAL_ACCESS_TOKEN"%string,
               env_ref {["GITHUB_TOKEN" := "t0k3n"]} "GITHUB_TOKEN")]))
  ∈ getServers "/opt/hub/servers/ollama-assistant/index.js"
      {["GITHUB_TOKEN" := "t0k3n"]}
  ∧ (∀ m k val,
       srv_env
         (Server "github" "npx"
            ["-y"; "@modelcontextprotocol/server-github"]%string
            (Some (list_to_map
                     [("GITHUB_PERSONAL_ACCESS_TOKEN"%string,
                       env_ref {["GITHUB_TOKEN" := "t0k3n"]} "GITHUB_TOKEN")])))
       = Some m →
       m !! k = Some val →
       ∃ a, val = env_ref {["GITHUB_TOKEN" := "t0k3n"]} a)
  ∧ (∀ k v,
       ChildEnv.childEnv {["GITHUB_TOKEN" := "t0k3n"]}
         (Server "github" "npx"
            ["-y"; "@modelcontextprotocol/server-github"]%string
            (Some (list_to_map
                     [("GITHUB_PERSONAL_ACCESS_TOKEN"%string,
                       env_ref {["GITHUB_TOKEN" := "t0k3n"]} "GITHUB_TOKEN")])))
         !! k = Some v →
       ∃ k', ({["GITHUB_TOKEN" := "t0k3n"]} : gmap string string) !! k' = Some v).
Proof.
  assert (Server "github" "npx"
            ["-y"; "@modelcontextprotocol/server-github"]%string
            (Some (list_to_map
                     [("GITHUB_PERSONAL_ACCESS_TOKEN"%string,
                       env_ref {["GITHUB_TOKEN" := "t0k3n"]} "GITHUB_TOKEN")]))
          ∈ getServers "/opt/hub/servers/ollama-assistant/index.js"
              {["GITHUB_TOKEN" := "t0k3n"]}) as Hin
    by (apply (list_elem_of_lookup_2 _ 2%nat); reflexivity).
  split; [exact Hin|].
  exact (registry_children_get_process_values _ _ _ Hin).
Defined.

Lemma generated_settings_match_full_run_witness :
  servers abc_cfg = registry abc_cfg
  ∧ NoDup (srv_name <$> servers abc_cfg)
  ∧ pc (run abc_cfg all_timeouts_sched) = Done
  ∧ failed (run abc_cfg all_timeouts_sched) = []
  ∧ build_mcpServers (PUBLIC_HOST abc_cfg)
      (settings_entries abc_cfg (Some (running (run abc_cfg all_timeouts_sched))))
    = build_mcpServers (PUBLIC_HOST abc_cfg) (settings_entries abc_cfg None).
Proof.
  split; [reflexivity|]. split; [exact abc_names_differ|].
  split; [vm_compute; reflexivity|]. split; [vm_compute; reflexivity|].
  apply (generated_settings_match_full_run abc_cfg all_timeouts_sched).
  - reflexivity.
  - exact abc_names_differ.
  - vm_compute. reflexivity.
  - vm_compute. reflexivity.
Defined.

End RegistryWitnesses.

(* ------------------------------------------------------------------------- *)
(** ** More on the command line, the [.env] file and the error texts *)

Section FlagFacts.

Import Selector.

(** X17. Only the first occurrence of a filter flag counts, and the token
    that follows it is its value whatever it is: a non-empty token gives the
    set of its comma-separated names, an empty token gives no filter, and
    nothing that comes later on the command line, another occurrence of the
    flag included, changes that. *)
Theorem first_occurrence_of_a_flag_decides
    (flag : string) (pre : list string) (v : string) (post : list string) :
  flag ∉ pre →
  flagSet (pre ++ flag :: v :: post) flag
  = (if bool_decide (v = EmptyString) then None
     else Some (list_to_set (Js.split "," v)))
  ∧ flagSet (pre ++ flag :: v :: post) flag = flagSet (pre ++ [flag; v]) flag.
Proof.
  intros Hpre.
  assert (∀ post', flagSet (pre ++ flag :: v :: post') flag
                   = if bool_decide (v = EmptyString) then None
                     else Some (list_to_set (Js.split "," v))) as Hgen.
  { intros post'. case_bool_decide as Hv.
    - subst v. unfold flagSet, flagIdx. rewrite arr_indexOf_first by done.
      replace (Z.of_nat (length pre) + 1) with (Z.of_nat (S (length pre))) by lia.
      rewrite arr_get_nat.
      assert ((pre ++ flag :: EmptyString :: post') !! S (length pre)
              = Some EmptyString) as ->.
      { change (flag :: EmptyString :: post')
          with ([flag] ++ EmptyString :: post').
        rewrite (assoc_L (++)). apply list_lookup_middle.
        rewrite length_app. simpl. lia. }
      simpl. by rewrite andb_false_r.
    - by apply flagSet_value. }
  split; [apply Hgen|]. by rewrite !Hgen.
Qed.

Lemma first_occurrence_of_a_flag_decides_witness :
  ("--only"%string ∉ ["--exclude"; "git"]%string)
  ∧ flagSet
      ["--exclude"; "git"; "--only"; "github,git"; "--only"; "memory"]%string
      "--only"
    = (if bool_decide ("github,git"%string = EmptyString) then None
       else Some (list_to_set (Js.split "," "github,git")))
  ∧ flagSet
      ["--exclude"; "git"; "--only"; "github,git"; "--only"; "memory"]%string
      "--only"
    = flagSet ["--exclude"; "git"; "--only"; "github,git"]%string "--only".
Proof.
  assert ("--only"%string ∉ ["--exclude"; "git"]%string) as Hpre
    by (apply (bool_decide_unpack _); vm_compute; exact I).
  split; [exact Hpre|].
  exact (first_occurrence_of_a_flag_decides "--only"
           ["--exclude"; "git"]%string "github,git"
           ["--only"; "memory"]%string Hpre).
Defined.

End FlagFacts.

Section EnvFileFacts.

Import EnvLoader EnvFile.

Lemma load_line_parse penv line :
  load_line penv line
  = match parse_line line with
    | Some (k, v) => if Js.truthy (penv !! k) then penv else <[k := v]> penv
    | None => penv
    end.
Proof.
  unfold load_line, parse_line. cbv zeta.
  destruct (_ || _); [done|]. destruct (_ =? _); [done|].
  by destruct (Js.truthy _).
Qed.

Lemma file_value_cons_other k k' v kvs :
  k' ≠ k → file_value k ((k', v) :: kvs) = file_value k kvs.
Proof. intros Hne. unfold file_value. by rewrite filter_cons_False. Qed.

Lemma file_value_cons_same k v kvs :
  file_value k ((k, v) :: kvs)
  = Some (if bool_decide (v = EmptyString)
          then default EmptyString (file_value k kvs) else v).
Proof.
  unfold file_value. rewrite filter_cons_True by done.
  rewrite fmap_cons. simpl fst. simpl snd. f_equal.
  case_bool_decide as Hv.
  - subst v. rewrite filter_cons_False by (by intros ?).
    by destruct (filter (λ kv, kv.1 = k) kvs).
  - by rewrite filter_cons_True.
Qed.

Lemma load_lines_value lines penv k :
  foldl load_line penv lines !! k
  = if Js.truthy (penv !! k) then penv !! k
    else match file_value k (omap parse_line lines) with
         | Some v => Some v
         | None => penv !! k
         end.
Proof.
  revert penv. induction lines as [|line lines IH]; intros penv.
  - simpl. by destruct (Js.truthy _).
  - cbn [foldl]. rewrite IH, load_line_parse.
    change (omap parse_line (line :: lines))
      with (match parse_line line with
            | Some kv => kv :: omap parse_line lines
            | None => omap parse_line lines
            end).
    destruct (parse_line line) as [[k' v]|]; [|done].
    destruct (decide (k' = k)) as [->|Hne].
    + rewrite file_value_cons_same.
      destruct (Js.truthy (penv !! k)) eqn:Et; [by rewrite Et|].
      rewrite lookup_insert_eq. unfold Js.truthy at 1.
      case_bool_decide as Hv; cbn [negb]; [|done].
      subst v. by destruct (file_value k (omap parse_line lines)).
    + rewrite file_value_cons_other by done.
      destruct (Js.truthy (penv !! k')); [done|].
      by rewrite lookup_insert_ne.
Qed.

Lemma env_loader_value envContent penv k :
  load_env envContent penv !! k
  = if Js.truthy (penv !! k) then penv !! k
    else match file_value k (assignments envContent) with
         | Some v => Some v
         | None => penv !! k
         end.
Proof. apply load_lines_value. Qed.



(** X19. Loading the same file twice is loading it once, and so is loading
    it again at any later time when nothing else has changed: the loader
    reaches a fixed point in one pass, even when the file assigns a key
    several times. *)
Theorem env_loader_is_idempotent
    (envContent : string) (penv : gmap string string) :
  load_env envContent (load_env envContent penv) = load_env envContent penv.
Proof.
  apply map_eq. intros k. unfold load_env.
  rewrite (load_lines_value _ (foldl load_line penv _)).
  destruct (Js.truthy (foldl load_line penv _ !! k)) eqn:Et; [done|].
  rewrite load_lines_value in Et |- *.
  destruct (Js.truthy (penv !! k)) eqn:Ep; [by rewrite Ep in Et|].
  by destruct (file_value k _).
Qed.

End EnvFileFacts.

Section TextFacts.

Import Js.

Lemma split_nonempty sep s : split sep s ≠ [].
Proof.
  destruct s as [|c r]; simpl; [done|].
  destruct (Ascii.eqb c sep); [done|]. by destruct (split sep r).
Qed.

Lemma split_pieces sep s : Forall (λ p, indexOf sep p = -1) (split sep s).
Proof.
  induction s as [|c r IH]; simpl; [by repeat constructor|].
  destruct (Ascii.eqb c sep) eqn:E; [by constructor|].
  destruct (split sep r) as [|w ws]; simpl.
  - repeat constructor. simpl. by rewrite E.
  - apply Forall_cons in IH as [Hw Hws]. constructor; [|done].
    simpl. by rewrite E, Hw.
Qed.

Lemma join_cons sep w w' ws :
  join sep (w :: w' :: ws) = w +:+ sep +:+ join sep (w' :: ws).
Proof. done. Qed.

Lemma join_split sep s : join (String sep EmptyString) (split sep s) = s.
Proof.
  induction s as [|c r IH]; [done|].
  cbn [split]. pose proof (split_nonempty sep r) as Hne.
  destruct (split sep r) as [|w ws] eqn:E; [done|].
  destruct (Ascii.eqb_spec c sep) as [->|Hc].
  - by rewrite join_cons, IH.
  - destruct ws as [|w' ws].
    + simpl in *. by rewrite IH.
    + rewrite join_cons in *. rewrite <- IH. reflexivity.
Qed.

Lemma arr_slice_from_last {A} (l : list A) (n : Z) :
  0 < n → arr_slice_from l (- n) = drop (length l - Z.to_nat n) l.
Proof.
  intros Hn. unfold arr_slice_from, arr_slice, rel_index.
  destruct (Z.ltb_spec (- n) 0); [|lia].
  destruct (Z.ltb_spec (Z.of_nat (length l)) 0); [lia|].
  rewrite Z.min_id.
  replace (Z.to_nat (Z.max (Z.of_nat (length l) + - n) 0))
    with (length l - Z.to_nat n)%nat by lia.
  apply take_ge. rewrite length_drop. lia.
Qed.

Lemma append_nil_r s : s +:+ EmptyString = s.
Proof.
  induction s as [|c s IH]; [done|].
  change (String c s +:+ EmptyString) with (String c (s +:+ EmptyString)).
  by rewrite IH.
Qed.

Lemma append_cons d a b : String d a +:+ b = String d (a +:+ b).
Proof. done. Qed.

Lemma append_assoc a b c : (a +:+ b) +:+ c = a +:+ (b +:+ c).
Proof.
  induction a as [|d a IH]; [done|]. by rewrite !append_cons, IH.
Qed.

Lemma length_str_drop n s :
  String.length (str_drop n s) = (String.length s - n)%nat.
Proof.
  revert s. induction n as [|n IH]; intros s; simpl; [lia|].
  destruct s as [|c s]; simpl; [done|]. apply IH.
Qed.

Lemma str_take_ge n s : (String.length s ≤ n)%nat → str_take n s = s.
Proof.
  revert s. induction n as [|n IH]; intros [|c s] Hn; simpl in *;
    [done|lia|done|]. rewrite IH; [done|lia].
Qed.

Lemma str_take_drop n s : str_take n s +:+ str_drop n s = s.
Proof.
  revert s. induction n as [|n IH]; intros s; [done|].
  destruct s as [|c s]; [done|].
  cbn [str_take str_drop]. by rewrite append_cons, IH.
Qed.

Lemma slice_from_neg s (n : nat) :
  (0 < n ≤ String.length s)%nat →
  slice_from s (- Z.of_nat n) = str_drop (String.length s - n) s.
Proof.
  intros Hn. unfold slice_from, slice, rel_index.
  destruct (Z.ltb_spec (- Z.of_nat n) 0); [|lia].
  destruct (Z.ltb_spec (Z.of_nat (String.length s)) 0); [lia|].
  rewrite Z.min_id.
  replace (Z.to_nat (Z.max (Z.of_nat (String.length s) + - Z.of_nat n) 0))
    with (String.length s - n)%nat by lia.
  apply str_take_ge. rewrite length_str_drop. lia.
Qed.

Lemma slice_from_neg_short s (n : nat) :
  (String.length s < n)%nat → slice_from s (- Z.of_nat n) = s.
Proof.
  intros Hn. unfold slice_from, slice, rel_index.
  destruct (Z.ltb_spec (- Z.of_nat n) 0); [|lia].
  destruct (Z.ltb_spec (Z.of_nat (String.length s)) 0); [lia|].
  rewrite Z.min_id, Z.max_r by lia. simpl.
  apply str_take_ge. lia.
Qed.

Lemma slice_to_neg s (n : nat) :
  (0 < n ≤ String.length s)%nat →
  slice s 0 (- Z.of_nat n) = str_take (String.length s - n) s.
Proof.
  intros Hn. unfold slice, rel_index.
  destruct (Z.ltb_spec (- Z.of_nat n) 0); [|lia].
  destruct (Z.ltb_spec 0 0); [lia|].
  rewrite Z.min_l by lia. simpl. f_equal. lia.
Qed.

End TextFacts.

Section StderrFacts.

Import Launcher Stderr.

(** X20. The error text of an early exit with a code other than 0: the
    code alone when the trimmed stderr buffer is empty; otherwise the code,
    a colon and the last three lines of the trimmed buffer (all of them when
    there are fewer), joined by [" | "]. None of the joined pieces holds a
    line feed, so the text of the stderr part stays on one line. *)
Theorem exit_message_shows_last_three_lines
    (code : option Z) (buf : string) :
  exit_message code buf
  = (if bool_decide (Js.trim buf = EmptyString)
     then "exit code " +:+ show_code code
     else "exit code " +:+ show_code code +:+ ": "
          +:+ Js.join " | " (drop (length (lines buf) - 3) (lines buf)))
  ∧ Forall (λ p, Js.indexOf "010" p = -1) (drop (length (lines buf) - 3) (lines buf))
  ∧ (length (drop (length (lines buf) - 3) (lines buf)) ≤ 3)%nat.
Proof.
  split; [|split].
  - unfold exit_message, stderr_tail, Js.truthy.
    rewrite (arr_slice_from_last _ 3) by lia.
    by case_bool_decide.
  - apply Forall_drop, split_pieces.
  - rewrite length_drop. lia.
Qed.

(** X21. When a child dies after its launch was decided and its trimmed
    stderr buffer is not empty and has at most ten lines, the hub writes two
    lines on [console.error], the second of which carries the whole trimmed
    buffer; nothing else changes and nothing is settled. *)
Theorem late_exit_prints_whole_short_stderr
    (code : option Z) (id : nat) (l : launch) (h : hub) :
  started l = true →
  Js.trim (stderrBuf l) ≠ EmptyString →
  (length (lines (stderrBuf l)) ≤ 10)%nat →
  on_exit code id l h
  = emit (ConsoleError
            (MDiedStderr (srv_name (l_server l)) (Js.trim (stderrBuf l))))
      (emit (ConsoleError (MDied (srv_name (l_server l)) (l_port l) code)) h).
Proof.
  intros Hst Hbuf Hlen. unfold on_exit. rewrite Hst. cbn [negb]. cbv zeta.
  unfold Js.truthy. rewrite bool_decide_eq_false_2 by done. cbn [negb].
  unfold stderr_tail. rewrite (arr_slice_from_last _ 10) by lia.
  fold (lines (stderrBuf l)).
  replace (length (lines (stderrBuf l)) - Z.to_nat 10)%nat with 0%nat by lia.
  rewrite drop_0. unfold lines. by rewrite join_split.
Qed.

Lemma handle_stderr ev id l h :
  launches h !! id = Some l →
  ∃ l', launches (handle ev id l h) !! id = Some l'
        ∧ stderrBuf l'
          = stderrBuf l +:+ match ev with
                            | StderrData data => data
                            | _ => EmptyString
                            end.
Proof.
  intros Hl.
  assert (∀ x, <[id := x]> (launches h) !! id = Some x) as Hins.
  { intros x. apply list_lookup_insert_Some. left.
    split; [done|]. split; [done|]. by eapply lookup_lt_Some. }
  destruct l as [s port pid st tm buf stl].
  destruct ev as [|msg|code|data]; simpl;
    unfold on_timeout, on_error, on_exit, on_stderr; simpl.
  - destruct tm; [destruct st|]; simpl.
    + eexists. split; [apply Hins|]. simpl. by rewrite append_nil_r.
    + eexists. split; [apply Hins|]. simpl. by rewrite append_nil_r.
    + eexists. split; [exact Hl|]. simpl. by rewrite append_nil_r.
  - destruct st; simpl.
    + eexists. split; [exact Hl|]. simpl. by rewrite append_nil_r.
    + eexists. split; [apply Hins|]. simpl. by rewrite append_nil_r.
  - destruct st; simpl.
    + case_match; simpl; (eexists; split; [exact Hl|]; simpl;
                          by rewrite append_nil_r).
    + destruct (bool_decide (code = Some 0)); simpl;
        (eexists; split; [apply Hins|]; simpl; by rewrite append_nil_r).
  - eexists. split; [apply Hins|]. done.
Qed.

Lemma chunks_single id id' ev :
  chunks id [(id', ev)]
  = match ev with
    | StderrData data => if bool_decide (id' = id) then data else EmptyString
    | _ => EmptyString
    end.
Proof.
  unfold chunks. simpl. destruct ev; try done. by case_bool_decide.
Qed.

Lemma chunks_cons id de sched :
  chunks id (de :: sched) = chunks id [de] +:+ chunks id sched.
Proof.
  destruct de as [id' ev]. rewrite chunks_single. unfold chunks.
  change (omap ?f ((id', ev) :: sched))
    with (match f (id', ev) with
          | Some y => y :: omap f sched
          | None => omap f sched
          end).
  cbn [fst snd]. destruct ev; try done.
  case_bool_decide; [|done].
  generalize (omap (λ de : nat * child_event,
                      match de.2 with
                      | StderrData data0 =>
                          if bool_decide (de.1 = id) then Some data0 else None
                      | _ => None
                      end) sched).
  intros [|y l]; [|done]. cbn [String.concat]. by rewrite append_nil_r.
Qed.

Lemma deliver_stderr (cfg : config) h de id l :
  launches h !! id = Some l →
  ∃ l', launches (deliver cfg h de) !! id = Some l'
        ∧ stderrBuf l' = stderrBuf l +:+ chunks id [de].
Proof.
  intros Hl. destruct de as [id' ev]. rewrite chunks_single.
  unfold deliver. cbn [fst snd].
  destruct (launches h !! id') as [l0|] eqn:E.
  - assert (∃ l', launches (handle ev id' l0 h) !! id = Some l'
                  ∧ stderrBuf l'
                    = stderrBuf l
                      +:+ match ev with
                          | StderrData data =>
                              if bool_decide (id' = id) then data else EmptyString
                          | _ => EmptyString
                          end)
      as (l' & Hl' & Hbuf).
    { destruct (decide (id' = id)) as [->|Hne].
      - rewrite Hl in E. injection E as <-.
        destruct (handle_stderr ev id l h Hl) as (l' & Hl' & Hb).
        exists l'. split; [done|]. rewrite Hb.
        destruct ev; try done. by rewrite bool_decide_eq_true_2.
      - exists l. split; [by rewrite handle_lookup_other|].
        destruct ev; try by rewrite append_nil_r.
        rewrite bool_decide_eq_false_2 by done. by rewrite append_nil_r. }
    exists l'. split; [|done].
    destruct (_ && _); [|done].
    destruct (resume_main_grows cfg (handle ev id' l0 h))
      as (plan & evs & -> & _).
    by apply lookup_app_l_Some.
  - exists l. split; [done|].
    assert (id' ≠ id) as Hne by (intros ->; congruence).
    destruct ev; try by rewrite append_nil_r.
    rewrite bool_decide_eq_false_2 by done. by rewrite append_nil_r.
Qed.

(** X22. Nothing of a child's stderr is lost or reordered: from the moment
    a launch exists, its buffer grows by exactly the chunks delivered to it,
    in the order of their delivery, and neither the timeout nor an error or
    exit event resets or changes it. *)
Theorem stderr_is_accumulated
    (cfg : config) (s1 s2 : list (nat * child_event)) (id : nat) (l1 : launch) :
  launches (run cfg s1) !! id = Some l1 →
  ∃ l2, launches (run cfg (s1 ++ s2)) !! id = Some l2
        ∧ stderrBuf l2 = stderrBuf l1 +:+ chunks id s2.
Proof.
  unfold run. rewrite foldl_app. generalize (foldl (deliver cfg) (main_start cfg) s1).
  intros h. revert h l1. induction s2 as [|de s2 IH]; intros h l1 Hl.
  - exists l1. split; [done|]. by rewrite append_nil_r.
  - simpl foldl.
    destruct (deliver_stderr cfg h de id l1 Hl) as (l' & Hl' & Hb').
    destruct (IH _ l' Hl') as (l2 & Hl2 & Hb2).
    exists l2. split; [done|].
    by rewrite Hb2, Hb', (chunks_cons id de s2), append_assoc.
Qed.

Lemma stderr_is_accumulated_witness :
  ∃ l1 l2,
    launches (run Scenarios.abc_cfg [(2%nat, StderrData "boom ")]) !! 2%nat
    = Some l1
    ∧ launches
        (run Scenarios.abc_cfg
           ([(2%nat, StderrData "boom ")]
            ++ [(2%nat, Exit (Some 1)); (2%nat, StderrData "late");
                (1%nat, StderrData "other")])) !! 2%nat = Some l2
    ∧ stderrBuf l2
      = stderrBuf l1
        +:+ chunks 2 [(2%nat, Exit (Some 1)); (2%nat, StderrData "late");
                      (1%nat, StderrData "other")].
Proof.
  eexists.
  assert (launches (run Scenarios.abc_cfg [(2%nat, StderrData "boom ")]) !! 2%nat
          = Some (Launch (Server "c" "false" [] None) 4002 (Some 1002) false true
                    "boom " None)) as Hl1 by (vm_compute; reflexivity).
  destruct (stderr_is_accumulated Scenarios.abc_cfg _
              [(2%nat, Exit (Some 1)); (2%nat, StderrData "late");
               (1%nat, StderrData "other")] 2 _ Hl1) as (l2 & Hl2 & Hb).
  exists l2. split; [exact Hl1|]. split; [exact Hl2|exact Hb].
Defined.

Lemma late_exit_prints_whole_short_stderr_witness :
  started (Launch (Server "b" "sleep" ["999"%string] None) 4001 (Some 1001)
             true false "line 1
line 2
" (Some true)) = true
  ∧ on_exit (Some 137) 1
      (Launch (Server "b" "sleep" ["999"%string] None) 4001 (Some 1001)
         true false "line 1
line 2
" (Some true))
      (Hub [] [] [] [] Done)
    = emit (ConsoleError (MDiedStderr "b" "line 1
line 2"))
        (emit (ConsoleError (MDied "b" 4001 (Some 137))) (Hub [] [] [] [] Done)).
Proof.
  split; [reflexivity|].
  apply (late_exit_prints_whole_short_stderr (Some 137) 1
           (Launch (Server "b" "sleep" ["999"%string] None) 4001 (Some 1001)
              true false "line 1
line 2
" (Some true)) (Hub [] [] [] [] Done)).
  - reflexivity.
  - vm_compute. discriminate.
  - vm_compute. lia.
Defined.

End StderrFacts.

(* ------------------------------------------------------------------------- *)
(** ** The fence stripper of the ollama assistant *)

Section AssistantFacts.

Import Js Assistant.

Lemma drop_word_app lang rest :
  all_word lang = true → drop_word (lang +:+ rest) = drop_word rest.
Proof.
  induction lang as [|c lang IH]; [done|].
  cbn [all_word]. intros [Hc Hl]%andb_true_iff.
  rewrite append_cons. cbn [drop_word]. rewrite Hc. by apply IH.
Qed.

Lemma drop_word_split s :
  ∃ lang, all_word lang = true ∧ s = lang +:+ drop_word s.
Proof.
  induction s as [|c s (lang & Hl & Hs)].
  - by exists EmptyString.
  - cbn [drop_word]. destruct (is_word c) eqn:Hc.
    + exists (String c lang). cbn [all_word]. rewrite Hc, Hl.
      split; [done|]. rewrite append_cons. by rewrite <- Hs.
    + by exists EmptyString.
Qed.

Lemma drop_word_stops lang rest :
  all_word lang = false → indexOf "010" lang = -1 →
  ∃ c r, drop_word (lang +:+ rest) = String c r ∧ c ≠ "010"%char.
Proof.
  induction lang as [|c lang IH]; [done|].
  cbn [all_word indexOf].
  destruct (Ascii.eqb_spec c "010") as [->|Hc]; [done|].
  destruct (Z.eqb_spec (indexOf "010" lang) (-1)) as [Hi|Hi];
    [|intros _ ?; pose proof (indexOf_range "010" lang); lia].
  intros Hw _. rewrite append_cons. cbn [drop_word].
  destruct (is_word c); [|by eauto].
  by apply IH.
Qed.

Lemma startsWith_split p s :
  startsWith p s = true → s = p +:+ str_drop (String.length p) s.
Proof.
  unfold startsWith. revert s. induction p as [|a p IH]; intros s; [done|].
  destruct s as [|b s]; [done|]. cbn [String.prefix].
  destruct (ascii_dec a b) as [->|]; [|done].
  intros Hp. rewrite append_cons. cbn [String.length str_drop].
  by rewrite <- IH.
Qed.

Lemma startsWith_app p s : startsWith p (p +:+ s) = true.
Proof.
  unfold startsWith. induction p as [|a p IH]; [by destruct s|].
  rewrite append_cons. cbn [String.prefix].
  by destruct (ascii_dec a a).
Qed.

Lemma startsWith_fence code :
  startsWith fence code = true → code = fence +:+ str_drop 3 code.
Proof. apply (startsWith_split fence). Qed.

Lemma ends_with_fence body :
  slice_from body (-3) = fence →
  body = slice body 0 (-3) +:+ fence.
Proof.
  intros Hend. change (-3) with (- Z.of_nat 3) in *.
  destruct (decide (String.length body < 3)%nat) as [Hshort|Hlong].
  - rewrite (slice_from_neg_short body 3) in Hend by done.
    subst body. simpl in Hshort. lia.
  - rewrite (slice_from_neg body 3) in Hend by lia.
    rewrite (slice_to_neg body 3) by lia.
    rewrite <- Hend. by rewrite str_take_drop.
Qed.

Lemma fence_at_end body :
  slice_from (body +:+ fence) (-3) = fence
  ∧ slice (body +:+ fence) 0 (-3) = body.
Proof.
  assert (String.length (body +:+ fence) = (String.length body + 3)%nat) as Hlen
    by (by rewrite length_append).
  change (-3) with (- Z.of_nat 3).
  split.
  - rewrite (slice_from_neg _ 3) by lia. rewrite Hlen.
    replace (String.length body + 3 - 3)%nat with (String.length body) by lia.
    apply str_drop_app.
  - rewrite (slice_to_neg _ 3) by lia. rewrite Hlen.
    replace (String.length body + 3 - 3)%nat with (String.length body) by lia.
    apply str_take_app.
Qed.

Lemma last_char_app a b : b ≠ EmptyString → last_char (a +:+ b) = last_char b.
Proof.
  intros Hb. induction a as [|c a IH]; [done|].
  rewrite append_cons. cbn [last_char]. rewrite IH.
  destruct (a +:+ b) eqn:E; [|done].
  destruct a; [by simpl in E|discriminate].
Qed.

(** X23. The fence pattern of [generate_code] matches exactly the texts
    that consist of an opening fence, a run of word characters, a line feed,
    any text at all and a closing fence at the very end; the captured group
    is that text. The decomposition is unique, so greedy and lazy matching
    have no choice to make, and stripping gives the inner text back whatever
    it holds, further fences included. *)
Theorem fence_match_is_the_pattern (code body : string) :
  (fence_match code = Some body
   ↔ ∃ lang, all_word lang = true
             ∧ code = fence +:+ lang +:+ String "010" (body +:+ fence))
  ∧ (∀ lang, all_word lang = true →
             strip_fence (fence +:+ lang +:+ String "010" (body +:+ fence)) = body).
Proof.
  assert (∀ lang, all_word lang = true →
                  fence_match (fence +:+ lang +:+ String "010" (body +:+ fence))
                  = Some body) as Hfwd.
  { intros lang Hlang. unfold fence_match.
    rewrite startsWith_app.
    rewrite (str_drop_app fence).
    rewrite drop_word_app by done. cbn [drop_word].
    change (is_word "010") with false. cbv iota.
    destruct (fence_at_end body) as [-> ->].
    by rewrite bool_decide_eq_true_2. }
  split; [split|].
  - unfold fence_match. destruct (startsWith fence code) eqn:Hstart; [|done].
    apply startsWith_fence in Hstart.
    destruct (drop_word_split (str_drop 3 code)) as (lang & Hlang & Hrest).
    destruct (drop_word (str_drop 3 code)) as [|c body'] eqn:Hdrop; [done|].
    destruct (Ascii.eqb_spec c "010") as [->|Hc].
    + case_bool_decide as Hend; [|done]. intros [= <-].
      exists lang. split; [done|].
      rewrite <- (ends_with_fence body' Hend). by rewrite <- Hrest.
    + destruct c as [[] [] [] [] [] [] [] []]; done.
  - intros (lang & Hlang & ->). by apply Hfwd.
  - intros lang Hlang. unfold strip_fence. by rewrite Hfwd.
Qed.

(** X24. What the stripper leaves alone: a text that ends with a line feed
    (as after a closing fence that is followed by a newline), a fenced text
    whose language tag holds a character that is not a word character (as in
    [c++] or [objective-c]), and a text that does not start with a fence (as
    after a preamble). *)
Theorem fences_that_are_not_stripped :
  (∀ s, strip_fence (s +:+ String "010" EmptyString)
        = s +:+ String "010" EmptyString)
  ∧ (∀ lang body,
       all_word lang = false → indexOf "010" lang = -1 →
       strip_fence (fence +:+ lang +:+ String "010" (body +:+ fence))
       = fence +:+ lang +:+ String "010" (body +:+ fence))
  ∧ (∀ code, startsWith fence code = false → strip_fence code = code).
Proof.
  split; [|split].
  - intros s. unfold strip_fence.
    remember (s +:+ String "010" EmptyString) as x eqn:Hx.
    destruct (fence_match x) as [body|] eqn:Hm; [|done].
    exfalso. unfold fence_match in Hm.
    destruct (startsWith fence x) eqn:Hstart; [|done].
    apply startsWith_fence in Hstart.
    destruct (drop_word_split (str_drop 3 x)) as (lang & Hlang & Hrest).
    destruct (drop_word (str_drop 3 x)) as [|c body'] eqn:Hdrop; [done|].
    destruct (Ascii.eqb_spec c "010") as [->|Hc];
      [|destruct c as [[] [] [] [] [] [] [] []]; done].
    case_bool_decide as Hend; [|done].
    apply ends_with_fence in Hend.
    assert (last_char x = Some "`"%char) as Hlast.
    { rewrite Hstart, Hrest, Hend.
      rewrite <- append_cons, <- !append_assoc.
      by rewrite last_char_app. }
    rewrite Hx in Hlast. by rewrite last_char_app in Hlast.
  - intros lang body Hlang Hnl. unfold strip_fence, fence_match.
    rewrite startsWith_app.
    rewrite (str_drop_app fence).
    destruct (drop_word_stops lang (String "010" (body +:+ fence)) Hlang Hnl)
      as (c & r & -> & Hc).
    destruct c as [[] [] [] [] [] [] [] []]; done.
  - intros code Hstart. unfold strip_fence, fence_match. by rewrite Hstart.
Qed.

End AssistantFacts.

(* ------------------------------------------------------------------------- *)
(** ** One outcome per launch, and the public host *)

Section OutcomeFacts.

Import Launcher Report.

Variable cfg : config.




End OutcomeFacts.

Section StartupFacts.

Import Launcher Registry Startup EnvLoader EnvFile.

(** X26. Where the public host of the settings comes from: a non-empty
    [MCP_PUBLIC_HOST] of the environment wins; otherwise the first non-empty
    value that the [.env] file gives to that key; otherwise the built-in
    address. Without a [.env] file only the environment and the built-in
    address remain. *)
Theorem public_host_precedence
    (ollama_index envContent : string) (penv : gmap string string)
    (argv : list string) (base_port : Z) (pids : nat → option Z) :
  PUBLIC_HOST
    (hub_config ollama_index (Some envContent) penv argv base_port pids)
  = (if Js.truthy (penv !! "MCP_PUBLIC_HOST")
     then default EmptyString (penv !! "MCP_PUBLIC_HOST")
     else match file_value "MCP_PUBLIC_HOST" (assignments envContent) with
          | Some v => if bool_decide (v = EmptyString) then "192.168.1.7" else v
          | None => "192.168.1.7"
          end)
  ∧ PUBLIC_HOST (hub_config ollama_index None penv argv base_port pids)
    = (if Js.truthy (penv !! "MCP_PUBLIC_HOST")
       then default EmptyString (penv !! "MCP_PUBLIC_HOST")
       else "192.168.1.7").
Proof.
  unfold hub_config. cbn [PUBLIC_HOST]. unfold env_or. split.
  - rewrite env_loader_value.
    destruct (penv !! "MCP_PUBLIC_HOST") as [v|] eqn:Ev.
    + destruct (Js.truthy (Some v)) eqn:Et; [by rewrite Et|].
      destruct (file_value _ _) as [w|]; [|by rewrite Et].
      unfold Js.truthy. by case_bool_decide.
    + cbn [Js.truthy]. destruct (file_value _ _) as [w|]; [|done].
      unfold Js.truthy. by case_bool_decide.
  - destruct (penv !! "MCP_PUBLIC_HOST") as [v|]; [|done].
    by destruct (Js.truthy (Some v)).
Qed.

End StartupFacts.

(* ------------------------------------------------------------------------- *)
(** ** Promises are settled once *)

Section PromiseFacts.

Import Launcher Promises.

Variable cfg : config.

Lemma omap_settle_none evs :
  Forall (λ e, settle_id e = None) evs → omap settle_id evs = [].
Proof.
  induction 1 as [|e evs He _ IH]; [done|].
  change (omap settle_id (e :: evs))
    with (match settle_id e with
          | Some y => y :: omap settle_id evs
          | None => omap settle_id evs
          end).
  by rewrite He.
Qed.

Lemma main_loop_settles_nothing i h :
  ∃ plan evs,
    launches (main_loop cfg i h)
    = launches h ++ imap (λ j, new_launch cfg (length (launches h) + j)%nat) plan
    ∧ effects (main_loop cfg i h) = effects h ++ evs
    ∧ Forall (λ e, settle_id e = None) evs.
Proof.
  destruct (main_loop_cases cfg i h) as [[_ ->]|[_ ->]].
  - match goal with
    | |- context [launch_all cfg ?plan h] =>
        pose proof (launch_all_spec cfg plan h) as (Hl & He & _);
        exists plan
    end.
    eexists. cbn [launches effects set_pc]. split; [exact Hl|].
    split; [exact He|].
    apply Forall_forall. by intros e (k & p & -> & _)%elem_of_lookup_imap.
  - destruct (main_finish_spec cfg h) as (evs & He & Hq & Hl & _).
    exists [], evs. rewrite Hl, He. simpl. rewrite app_nil_r.
    split; [done|]. split; [done|].
    eapply Forall_impl; [exact Hq|]. by intros [| |[]| |].
Qed.

Lemma resume_main_settles_nothing h :
  ∃ plan evs,
    launches (resume_main cfg h)
    = launches h ++ imap (λ j, new_launch cfg (length (launches h) + j)%nat) plan
    ∧ effects (resume_main cfg h) = effects h ++ evs
    ∧ Forall (λ e, settle_id e = None) evs.
Proof.
  assert (∃ plan evs,
            launches h
            = launches h
              ++ imap (λ j, new_launch cfg (length (launches h) + j)%nat) plan
            ∧ effects h = effects h ++ evs
            ∧ Forall (λ e, settle_id e = None) evs) as Hrefl
    by (exists [], []; simpl; by rewrite !app_nil_r).
  unfold resume_main. destruct (pc h) as [i batch promises|]; [|done].
  destruct (forallb _ _); [|done].
  destruct (print_progress_spec batch h) as (lines & Hlines & He & Hl & _).
  destruct (main_loop_settles_nothing (i + BATCH_SIZE) (print_progress batch h))
    as (plan & evs & Hl' & He' & Hns).
  exists plan, (lines ++ evs). rewrite Hl', He', Hl, He.
  split; [done|]. split; [by rewrite (assoc_L (++))|].
  apply Forall_app. split; [|done].
  eapply Forall_impl; [exact Hlines|]. by intros [| |[]| |].
Qed.

Lemma settle_inv_grows h h' plan evs :
  settle_inv h →
  launches h'
  = launches h ++ imap (λ j, new_launch cfg (length (launches h) + j)%nat) plan →
  effects h' = effects h ++ evs →
  Forall (λ e, settle_id e = None) evs →
  settle_inv h'.
Proof.
  intros [Hnd Hst] Hl He Hns. split.
  - rewrite He, omap_app, (omap_settle_none evs Hns). by rewrite app_nil_r.
  - intros id ok Hin. rewrite He in Hin. apply elem_of_app in Hin as [Hin|Hin].
    + destruct (Hst id ok Hin) as (l & Hid & Hs). exists l.
      split; [|done]. rewrite Hl. by apply lookup_app_l_Some.
    + rewrite Forall_forall in Hns. by specialize (Hns _ Hin).
Qed.

Lemma settle_inv_handle ev id l h :
  launches h !! id = Some l →
  base_inv cfg h → settle_inv h → settle_inv (handle ev id l h).
Proof.
  intros E [_ _ _ _ Hstd _ _] [Hnd Hst].
  destruct (handle_cases ev id l h E) as [_ Hcases].
  destruct Hcases
    as [(l' & evs & Hl & _ & _ & Hs & _ & He & Hevs & _)
       |(Hst0 & ok & err & Hl & He & _)].
  - assert (Forall (λ e, settle_id e = None) evs) as Hns
      by (eapply Forall_impl; [exact Hevs|]; by intros [| |[]| |]).
    split.
    + rewrite He, omap_app, (omap_settle_none evs Hns). by rewrite app_nil_r.
    + intros id0 ok0 Hin. rewrite He in Hin.
      apply elem_of_app in Hin as [Hin|Hin];
        [|rewrite Forall_forall in Hns; by specialize (Hns _ Hin)].
      destruct (Hst id0 ok0 Hin) as (l0 & Hid0 & Hs0). rewrite Hl.
      destruct (decide (id0 = id)) as [->|Hne].
      * exists l'. split.
        -- apply list_lookup_insert_Some. left.
           split; [done|]. split; [done|]. by eapply lookup_lt_Some.
        -- rewrite Hs. congruence.
      * exists l0. split; [|done]. apply list_lookup_insert_Some. by right.
  - assert (settled l = None) as Hnone.
    { destruct (settled l) as [b|] eqn:Es; [|done].
      assert (started l = true) by (apply (Hstd id l E); by rewrite Es).
      congruence. }
    split.
    + rewrite He, omap_app. simpl. apply NoDup_app. split; [done|].
      split; [|apply NoDup_singleton].
      intros id0 Hin0 Hin1. apply list_elem_of_singleton in Hin1 as ->.
      apply list_elem_of_omap in Hin0 as (e & Hin & He0).
      destruct e as [|id1 ok1| | |]; try done. injection He0 as ->.
      destruct (Hst id ok1 Hin) as (l0 & Hid0 & Hs0). congruence.
    + intros id0 ok0 Hin. rewrite He in Hin. rewrite Hl.
      apply elem_of_app in Hin as [Hin|Hin].
      * destruct (Hst id0 ok0 Hin) as (l0 & Hid0 & Hs0).
        exists l0. split; [|done]. apply list_lookup_insert_Some. right.
        split; [|done]. intros <-. congruence.
      * apply list_elem_of_singleton in Hin. injection Hin as -> ->.
        eexists. split.
        -- apply list_lookup_insert_Some. left.
           split; [done|]. split; [done|]. by eapply lookup_lt_Some.
        -- simpl. by rewrite Hnone.
Qed.

Lemma settle_inv_deliver h de :
  inv cfg h → settle_inv h → settle_inv (deliver cfg h de).
Proof.
  intros [Hb _] Hs. unfold deliver.
  destruct (launches h !! de.1) as [l|] eqn:E; [|done].
  pose proof (settle_inv_handle de.2 de.1 l h E Hb Hs) as Hs'.
  destruct (_ && _); [|done].
  destruct (resume_main_settles_nothing (handle de.2 de.1 l h))
    as (plan & evs & Hl & He & Hns).
  by eapply settle_inv_grows.
Qed.

(** X27. A promise is settled at most once: the trace of a run holds at
    most one [resolve] per launch, and it holds [resolve(ok)] for a launch
    exactly if the promise of that launch is settled with [ok]. *)
Theorem promises_are_settled_once (sched : list (nat * child_event)) :
  NoDup (omap settle_id (effects (run cfg sched)))
  ∧ ∀ id ok,
      Settle id ok ∈ effects (run cfg sched)
      ↔ ∃ l, launches (run cfg sched) !! id = Some l ∧ settled l = Some ok.
Proof.
  assert (settle_inv (run cfg sched)) as [Hnd Hst].
  { unfold run.
    assert (∀ h, inv cfg h → settle_inv h →
                 settle_inv (foldl (deliver cfg) h sched)) as Hgen.
    { induction sched as [|de sched IH]; intros h Hinv Hs; [done|].
      simpl. apply IH; [by apply deliver_inv|by apply settle_inv_deliver]. }
    apply Hgen; [apply main_start_inv|].
    unfold main_start.
    match goal with
    | |- settle_inv (main_loop cfg 0 ?h0) =>
        destruct (main_loop_settles_nothing 0 h0) as (plan & evs & Hl & He & Hns);
        apply (settle_inv_grows h0 _ plan evs); try done
    end.
    split.
    - simpl. apply NoDup_nil_2.
    - intros id ok Hin. simpl in Hin.
      repeat (apply elem_of_cons in Hin as [Hin|Hin]; [done|]).
      by apply elem_of_nil in Hin. }
  split; [done|]. intros id ok. split; [apply Hst|].
  intros (l & Hl & Hs).
  destruct (run_inv cfg sched) as [[_ _ _ Hsettled _ _ _] _].
  destruct (Hsettled id) as [ok' Hin].
  { apply is_settled_lookup. exists l. by rewrite Hs. }
  destruct (Hst id ok' Hin) as (l' & Hl' & Hs').
  assert (ok' = ok) as -> by congruence. done.
Qed.

End PromiseFacts.

(* ------------------------------------------------------------------------- *)
(** ** Ports under a filter *)

Section PortFacts.

Import Launcher.




End PortFacts.
